(** * cnspec: in-memory datalake and bundle map

    A shallow embedding of
    - [internal/datalakes/inmemory/policyresolver.go] (module [Datalake]):
      the policy-resolver half of the in-memory datalake, and
    - [policy/bundle_map.go] (module [BundleMap]): the dependency sort of a
      policy bundle map,
    followed by the properties of the specification that concern them. *)

From stdpp Require Import base option list strings gmap fin_maps fin_sets sets sorting.
From Stdlib Require Import ZArith Lia.

Set Warnings "-register-all,-clear-no-such-hyp".

#[local] Open Scope Z_scope.

(** ** Go values shared by both packages *)

(** The byte [\x00], which separates the two halves of a composite key. *)
Definition nul : string := String (Ascii.ascii_of_nat 0) EmptyString.

(** The [error] values the code builds.  [errors_New] is [errors.New],
    [status_Error] is ranger-rpc's [status.Error] with its code,
    [errTypesDontMatch] is the sentinel of that name, [fmt_Errorf_w] is the
    one [fmt.Errorf] of the file: it wraps an error (verb [%w]) and carries
    the three strings it formats; [multierror] is what [multierror.Append]
    returns. *)
Inductive codes := InvalidArgument.

Inductive error :=
| errors_New (msg : string)
| status_Error (code : codes) (msg : string)
| errTypesDontMatch
| fmt_Errorf_w (dpChecksum : string) (wrapped : error) (expected received : string)
| multierror (errs : list error).

(** [err.Error()] is only ever used to build the text of another error; the
    text of the wrapped and aggregated forms is produced by code outside
    this repository, so it is kept symbolic. *)
Definition Error_text (e : error) : string :=
  match e with
  | errors_New msg => msg
  | status_Error _ msg => msg
  | errTypesDontMatch => "types don't match"
  | fmt_Errorf_w c _ _ _ => "failed to store data for " +:+ c
  | multierror _ => "multiple errors"
  end.

(** The ways a Go call can end: it returns a value, it returns an error, it
    panics (a failed type assertion, a nil dereference), or the model ran
    out of the steps it was given (the call has not returned yet). *)
Inductive outcome (A : Type) : Type :=
| Ok (a : A)
| Err (e : error)
| Panic
| Diverge.
Arguments Ok {A} a.
Arguments Err {A} e.
Arguments Panic {A}.
Arguments Diverge {A}.

Definition is_Ok {A} (o : outcome A) : Prop := ∃ a, o = Ok a.

(** ** Package [explorer] and [llx] (cnquery): the fields this code reads *)

Record Property := {
  prop_Mrn : string;
  prop_Uid : string;
  prop_Mql : string;
}.

Record Mquery := {
  CodeId : string;
  mq_Mrn : string;
  mq_Mql : string;
}.

(** [llx.Primitive]: its [Type] and, since the method is declared in cnquery,
    the answer of [IsNil()] for this value. *)
Record Primitive := {
  prim_Type : string;
  IsNil : bool;
}.

(** [llx.Result]; [Data] is a pointer, [None] is [nil]. *)
Record Result := {
  Data : option Primitive;
  res_Error : string;
  res_CodeId : string;
}.

(** ** Package [policy]: the data the two files work on *)

Record PolicyRef := {
  ref_Mrn : string;
}.

Record PolicyGroup := {
  Policies : list PolicyRef;
}.

(** The four checksums of a policy (the names [policy_test.go] reads). *)
Record Checksums := {
  LocalContentChecksum : string;
  LocalExecutionChecksum : string;
  GraphContentChecksum : string;
  GraphExecutionChecksum : string;
}.

(** [policy.Policy].  [Filters] is the [*explorer.Filters] with its [Items]
    map, [None] when the pointer is nil. *)
Record Policy := {
  Mrn : string;
  Groups : list PolicyGroup;
  Filters : option (gmap string Mquery);
  Sums : Checksums;
}.

(** Modelled from the spec: the [ScoreType] constants are declared outside
    src; the data model lists [Type ∈ {Unknown, Result, Error, Skip}] and
    makes [Unknown] the type of the zero value [Score{}]. *)
Inductive ScoreType :=
| ScoreType_Unknown
| ScoreType_Result
| ScoreType_Error
| ScoreType_Skip.

#[global] Instance ScoreType_eq_dec : EqDecision ScoreType.
Proof. solve_decision. Defined.

(** [policy.Score]: [Value], [Weight] and the completion counters are
    [uint32], the two times are [int64]; only compared, never computed on. *)
Record Score := {
  QrId : string;
  Type_ : ScoreType;
  Value : Z;
  Weight : Z;
  ScoreCompletion : Z;
  DataTotal : Z;
  DataCompletion : Z;
  Message : string;
  ValueModifiedTime : Z;
  FailureTime : Z;
}.

(** [policy.Score{}] *)
Definition Score_zero : Score :=
  {| QrId := ""; Type_ := ScoreType_Unknown; Value := 0; Weight := 0;
     ScoreCompletion := 0; DataTotal := 0; DataCompletion := 0; Message := "";
     ValueModifiedTime := 0; FailureTime := 0 |}.

(** [score.ValueModifiedTime = vmt; score.FailureTime = ft] *)
Definition set_times (score : Score) (vmt ft : Z) : Score :=
  {| QrId := QrId score; Type_ := Type_ score; Value := Value score;
     Weight := Weight score; ScoreCompletion := ScoreCompletion score;
     DataTotal := DataTotal score; DataCompletion := DataCompletion score;
     Message := Message score; ValueModifiedTime := vmt; FailureTime := ft |}.

Record ReportingJob := {
  rj_QrId : string;
}.

Record DataQueryInfo := {
  dq_Type : string;
  Notify : list string;
}.

(** [policy.CollectorJob].  Both fields are Go maps that the code ranges
    over: they are kept as association lists in the order the range visits
    them (any order is possible in Go), with [lookup_assoc] for indexing. *)
Record CollectorJob := {
  ReportingJobs : list (string * ReportingJob);
  Datapoints : list (string * DataQueryInfo);
}.

Record ResolvedPolicy := {
  rp_GraphExecutionChecksum : string;
  FiltersChecksum : string;
  rp_CollectorJob : option CollectorJob;
}.

(** [policy.Report]; a nil pointer or nil map is [None]. *)
Record Report := {
  EntityMrn : string;
  ScoringMrn : string;
  rep_Score : option Score;
  Scores : option (gmap string Score);
  rep_Data : option (gmap string (option Result));
  ResolvedPolicyVersion : string;
}.

(** Indexing a Go map that is kept in range order. *)
Fixpoint lookup_assoc {V} (l : list (string * V)) (k : string) : option V :=
  match l with
  | [] => None
  | (k', v) :: l' => if decide (k' = k) then Some v else lookup_assoc l' k
  end.


(** * The policy bundle map ([bundle_map.go]) *)

Module BundleMap.

(** [PolicyBundleMap], of which the sort reads [Policies].  It is a Go map
    from MRN to [*Policy]; the sort ranges over it, so it is kept in the
    order that range visits it, and a nil pointer is [None]. *)
Record PolicyBundleMap := {
  bm_OwnerMrn : string;
  bm_Policies : list (string * option Policy);
}.

Definition empty_dependency : error :=
  errors_New "failed to sort policies: dependency MRN is empty".

Section sortPolicies.

Variable bundle : PolicyBundleMap.

(** The call [sortPolicies(dep, bundle, indexer)] inside the loops. *)
Variable sortPolicies : Policy → gset string → outcome (list Policy * gset string).

(** [for i := range group.Policies { ... }]: the inner loop of
    [sortPolicies], with the result so far and the set of visited MRNs. *)
Fixpoint sort_refs (refs : list PolicyRef) (res : list Policy) (indexer : gset string)
    : outcome (list Policy * gset string) :=
  match refs with
  | [] => Ok (res, indexer)
  | policy :: rest =>
      (* we only do very cursory sanity checking *)
      if decide (ref_Mrn policy = "") then Err empty_dependency
      else if decide (ref_Mrn policy ∈ indexer) then sort_refs rest res indexer
      else
        match lookup_assoc (bm_Policies bundle) (ref_Mrn policy) with
        | None =>
            (* ignore, since we are only looking to sort the policies of the map *)
            sort_refs rest res indexer
        | Some None => Panic
        | Some (Some dep) =>
            match sortPolicies dep indexer with
            | Ok (depRes, indexer') => sort_refs rest (res ++ depRes) indexer'
            | Err e => Err e
            | Panic => Panic
            | Diverge => Diverge
            end
        end
  end.

(** [for i := range p.Groups { ... }] *)
Fixpoint sort_groups (groups : list PolicyGroup) (res : list Policy) (indexer : gset string)
    : outcome (list Policy * gset string) :=
  match groups with
  | [] => Ok (res, indexer)
  | group :: rest =>
      match sort_refs (Policies group) res indexer with
      | Ok (res', indexer') => sort_groups rest res' indexer'
      | Err e => Err e
      | Panic => Panic
      | Diverge => Diverge
      end
  end.

End sortPolicies.

(** [sortPolicies(p, bundle, indexer)]: the result and the indexer as the
    call leaves it.  [depth] bounds how deep the calls may nest; a call that
    would nest deeper has not returned. *)
Fixpoint sortPolicies (depth : nat) (bundle : PolicyBundleMap) (p : Policy)
    (indexer : gset string) : outcome (list Policy * gset string) :=
  match depth with
  | O => Diverge
  | S depth' =>
      match sort_groups bundle (sortPolicies depth' bundle) (Groups p) []
              ({[Mrn p]} ∪ indexer) with
      | Ok (res, indexer') => Ok (res ++ [p], indexer')
      | Err e => Err e
      | Panic => Panic
      | Diverge => Diverge
      end
  end.

(** [for i := range p.Policies { ... }] of [PoliciesSortedByDependency] *)
Fixpoint sort_all (depth : nat) (bundle : PolicyBundleMap)
    (entries : list (string * option Policy)) (res : list Policy)
    (indexer : gset string) : outcome (list Policy) :=
  match entries with
  | [] => Ok res
  | (_, None) :: _ => Panic
  | (_, Some policy) :: rest =>
      if decide (Mrn policy ∈ indexer) then sort_all depth bundle rest res indexer
      else
        match sortPolicies depth bundle policy indexer with
        | Ok (depRes, indexer') => sort_all depth bundle rest (res ++ depRes) indexer'
        | Err e => Err e
        | Panic => Panic
        | Diverge => Diverge
        end
  end.

(** PoliciesSortedByDependency sorts policies by their dependencies
    note: the MRN field must be set and dependencies in groups must be specified by MRN *)
Definition PoliciesSortedByDependency (depth : nat) (p : PolicyBundleMap)
    : outcome (list Policy) :=
  sort_all depth p (bm_Policies p) [] ∅.

(** ** Names for what the properties speak of *)

(** The MRNs a policy refers to in its groups. *)
Definition deps (p : Policy) : list string :=
  concat (map (λ g, map ref_Mrn (Policies g)) (Groups p)).

(** The policies of the map. *)
Definition policies_of (bundle : PolicyBundleMap) : list Policy :=
  omap snd (bm_Policies bundle).

(** [q] is a dependency of [p] that is present in the map. *)
Definition depends (bundle : PolicyBundleMap) (p q : Policy) : Prop :=
  Mrn q ∈ deps p ∧ (Mrn q, Some q) ∈ bm_Policies bundle.

(** The map is keyed by MRN, as [Add] fills it and as the note on
    [PoliciesSortedByDependency] asks: no key twice, no nil policy, every
    policy under its own MRN, and no reference with an empty MRN. *)
Record keyed_by_mrn (bundle : PolicyBundleMap) : Prop := {
  keys_nodup : NoDup (bm_Policies bundle).*1;
  keys_mrn : ∀ k v, (k, v) ∈ bm_Policies bundle → ∃ p, v = Some p ∧ Mrn p = k;
  refs_named : ∀ k p, (k, Some p) ∈ bm_Policies bundle → "" ∉ deps p;
}.

(** No policy of the map depends, directly or through others, on itself. *)
Definition acyclic (bundle : PolicyBundleMap) : Prop :=
  ∀ p q, depends bundle p q → ¬ rtc (depends bundle) q p.

(** In [res], every dependency that is present in the map comes before the
    policy that depends on it. *)
Definition dependencies_first (bundle : PolicyBundleMap) (res : list Policy) : Prop :=
  ∀ l1 p l2 q, res = l1 ++ p :: l2 → depends bundle p q → q ∈ l1.

(** A stretch of the result: the policies [new] that a run of the sort adds
    when it starts with the visited set [V] and ends with [V'].  They are
    policies of the map, new to [V], each reached through dependencies from
    a policy in [from]; and a dependency of one of them either was visited
    before the run, or stands earlier in the stretch, or depends in turn on
    that policy (a cycle). *)
Definition segment (bundle : PolicyBundleMap) (from : Policy → Prop)
    (V : gset string) (new : list Policy) (V' : gset string) : Prop :=
  V' = V ∪ list_to_set (Mrn <$> new)
  ∧ NoDup (Mrn <$> new)
  ∧ (∀ x, x ∈ new →
       (Mrn x ∉ V) ∧ (Mrn x, Some x) ∈ bm_Policies bundle
       ∧ ∃ r, from r ∧ rtc (depends bundle) r x)
  ∧ (∀ l1 x l2 q, new = l1 ++ x :: l2 → depends bundle x q →
       Mrn q ∈ V ∨ q ∈ l1 ∨ rtc (depends bundle) q x).

(** A policy of the map whose MRN is one of [mrns]. *)
Definition referred (bundle : PolicyBundleMap) (mrns : list string) (r : Policy) : Prop :=
  Mrn r ∈ mrns ∧ (Mrn r, Some r) ∈ bm_Policies bundle.

(** Two policies that depend on each other. *)
Definition policy_x : Policy :=
  {| Mrn := "x"; Groups := [ {| Policies := [ {| ref_Mrn := "y" |} ] |} ];
     Filters := None;
     Sums := {| LocalContentChecksum := ""; LocalExecutionChecksum := "";
                GraphContentChecksum := ""; GraphExecutionChecksum := "" |} |}.

Definition policy_y : Policy :=
  {| Mrn := "y"; Groups := [ {| Policies := [ {| ref_Mrn := "x" |} ] |} ];
     Filters := None;
     Sums := {| LocalContentChecksum := ""; LocalExecutionChecksum := "";
                GraphContentChecksum := ""; GraphExecutionChecksum := "" |} |}.

Definition bundle_cycle : PolicyBundleMap :=
  {| bm_OwnerMrn := "o"; bm_Policies := [("x", Some policy_x); ("y", Some policy_y)] |}.

(** A policy [z] that depends on [y], a policy [w] that depends on
    nothing, and [y] without its reference to [x]. *)
Definition policy_plain (mrn : string) (refs : list string) : Policy :=
  {| Mrn := mrn; Groups := [ {| Policies := map (λ m, {| ref_Mrn := m |}) refs |} ];
     Filters := None;
     Sums := {| LocalContentChecksum := ""; LocalExecutionChecksum := "";
                GraphContentChecksum := ""; GraphExecutionChecksum := "" |} |}.

Definition bundle_chain : PolicyBundleMap :=
  {| bm_OwnerMrn := "o";
     bm_Policies := [("z", Some (policy_plain "z" ["y"; "missing"]));
                     ("w", Some (policy_plain "w" []));
                     ("y", Some (policy_plain "y" ["w"]))] |}.

(** ** The other operations on a bundle map *)

(** [sort.Strings]: increasing order, strings compared byte by byte. *)
Definition string_le (a b : string) : Prop := String.leb a b = true.

#[global] Instance string_le_dec a b : Decision (string_le a b).
Proof. unfold string_le. apply _. Defined.

Definition sort_Strings (ids : list string) : list string := merge_sort string_le ids.

(** [m[k] = v] and [delete(m, k)] for a Go map kept in range order; a new
    key comes last in the model, and any place is possible in Go. *)
Fixpoint assoc_set {V} (k : string) (v : V) (m : list (string * V)) : list (string * V) :=
  match m with
  | [] => [(k, v)]
  | (k', v') :: m' => if decide (k' = k) then (k, v) :: m' else (k', v') :: assoc_set k v m'
  end.

Definition assoc_delete {V} (k : string) (m : list (string * V)) : list (string * V) :=
  filter (λ kv, kv.1 ≠ k) m.

Definition set_Policies (policies : list (string * option Policy)) (b : PolicyBundleMap)
    : PolicyBundleMap :=
  {| bm_OwnerMrn := bm_OwnerMrn b; bm_Policies := policies |}.

(** [for i := range names { ... }] of [SelectPolicies]: the set [filters]
    of the names that are in the map, and the list [missing] of those that
    are not. *)
Fixpoint select_names (b : PolicyBundleMap) (names : list string)
    (filters : gset string) (missing : list string) : gset string * list string :=
  match names with
  | [] => (filters, missing)
  | name :: rest =>
      match lookup_assoc (bm_Policies b) name with
      | None => select_names b rest filters (missing ++ [name])
      | Some _ => select_names b rest ({[name]} ∪ filters) missing
      end
  end.

(** [for name := range b.Policies { if _, ok := filters[name]; !ok
    { delete(b.Policies, name) } }]: the range visits every key the map had
    when it began, since only the key in hand is ever deleted. *)
Fixpoint select_range (keys : list string) (filters : gset string)
    (policies : list (string * option Policy)) : list (string * option Policy) :=
  match keys with
  | [] => policies
  | name :: rest =>
      select_range rest filters
        (if decide (name ∈ filters) then policies else assoc_delete name policies)
  end.

(** SelectPolicies selects the policies by name from the list given.
    If a given name does not exist in the map, an error will be thrown.
    The final map will only have the given policies selected. This call does not
    remove queries (at this time). *)
Definition SelectPolicies (names : list string) (b : PolicyBundleMap)
    : outcome unit * PolicyBundleMap :=
  match names with
  | [] => (Ok tt, b)
  | _ =>
      let '(filters, missing) := select_names b names ∅ [] in
      match missing with
      | _ :: _ =>
          (Err (errors_New ("failed to find the following policies: "
                            +:+ String.concat ", " missing)), b)
      | [] =>
          (Ok tt, set_Policies (select_range (bm_Policies b).*1 filters (bm_Policies b)) b)
      end
  end.

(** The interface [Library]: its two lookups answer with a flag and an
    error (nil is [None]). *)
Record Library := {
  QueryExists : string → bool * option error;
  PolicyExists : string → bool * option error;
}.

(** A [PolicyBundleMap] with the fields the sort does not read: [Queries]
    and [Props] are Go maps like [Policies], [Library] is an interface that
    may be nil.  ([Code] is only ever initialized by the functions of
    [bundle_map.go].) *)
Record PolicyBundleMapFields := {
  bm_map : PolicyBundleMap;
  bm_Queries : list (string * option Mquery);
  bm_Props : list (string * option Property);
  bm_Library : option Library;
}.

(** NewPolicyBundleMap creates a new empty initialized map *)
Definition NewPolicyBundleMap (ownerMrn : string) : PolicyBundleMapFields :=
  {| bm_map := {| bm_OwnerMrn := ownerMrn; bm_Policies := [] |};
     bm_Queries := []; bm_Props := []; bm_Library := None |}.

(** [policy.Bundle], of which [ToList] fills these fields. *)
Record Bundle := {
  b_OwnerMrn : string;
  b_Policies : list (option Policy);
  b_Queries : list (option Mquery);
  b_Props : list (option Property);
}.

(** One block of [ToList]: collect the keys of the map, sort them, and list
    the values in that order. *)
Definition values_by_key {V} (m : list (string * option V)) : list (option V) :=
  let ids := sort_Strings m.*1 in
  map (λ id, default None (lookup_assoc m id)) ids.

(** ToList converts the map to a regular bundle *)
Definition ToList (p : PolicyBundleMapFields) : Bundle :=
  {| b_OwnerMrn := bm_OwnerMrn (bm_map p);
     b_Policies := values_by_key (bm_Policies (bm_map p));
     b_Queries := values_by_key (bm_Queries p);
     b_Props := values_by_key (bm_Props p) |}.

Definition with_Policies (policies : list (string * option Policy))
    (p : PolicyBundleMapFields) : PolicyBundleMapFields :=
  {| bm_map := set_Policies policies (bm_map p); bm_Queries := bm_Queries p;
     bm_Props := bm_Props p; bm_Library := bm_Library p |}.

Definition with_Queries (queries : list (string * option Mquery))
    (p : PolicyBundleMapFields) : PolicyBundleMapFields :=
  {| bm_map := bm_map p; bm_Queries := queries;
     bm_Props := bm_Props p; bm_Library := bm_Library p |}.

Definition with_Library (library : option Library)
    (p : PolicyBundleMapFields) : PolicyBundleMapFields :=
  {| bm_map := bm_map p; bm_Queries := bm_Queries p;
     bm_Props := bm_Props p; bm_Library := library |}.

(** [queryExists]: the answer, the error, and the map as the call leaves
    it. *)
Definition queryExists (mrn : string) (p : PolicyBundleMapFields)
    : (bool * option error) * PolicyBundleMapFields :=
  match lookup_assoc (bm_Queries p) mrn with
  | Some _ => ((true, None), p)
  | None =>
      match bm_Library p with
      | Some library =>
          let '(x, err) := QueryExists library mrn in
          (* we mark it off for caching purposes *)
          ((x, err), if x then with_Queries (assoc_set mrn None (bm_Queries p)) p else p)
      | None => ((false, None), p)
      end
  end.

Definition policyExists (mrn : string) (p : PolicyBundleMapFields)
    : (bool * option error) * PolicyBundleMapFields :=
  match lookup_assoc (bm_Policies (bm_map p)) mrn with
  | Some _ => ((true, None), p)
  | None =>
      match bm_Library p with
      | Some library =>
          let '(x, err) := PolicyExists library mrn in
          (* we mark it off for caching purposes *)
          ((x, err),
           if x then with_Policies (assoc_set mrn None (bm_Policies (bm_map p))) p else p)
      | None => ((false, None), p)
      end
  end.

(** [for _, v := range bundle.Queries { res[v.CodeId] = v }]; a nil query
    cannot be read. *)
Fixpoint QueryMap_range (queries : list (string * option Mquery))
    (res : gmap string Mquery) : outcome (gmap string Mquery) :=
  match queries with
  | [] => Ok res
  | (_, None) :: _ => Panic
  | (_, Some v) :: rest => QueryMap_range rest (<[CodeId v := v]> res)
  end.

(** QueryMap extracts all the queries from the policy bundle map *)
Definition QueryMap (bundle : PolicyBundleMapFields) : outcome (gmap string Mquery) :=
  QueryMap_range (bm_Queries bundle) ∅.

(** A map with three policies, of which [bundle_chain] lists the keys in
    another order, and a library that knows the policy [lib]. *)
Definition library_lib : Library :=
  {| QueryExists := λ mrn, (bool_decide (mrn = "q-lib"), None);
     PolicyExists := λ mrn, (bool_decide (mrn = "lib"), None) |}.

Definition query_sshd : Mquery := {| CodeId := "c-sshd"; mq_Mrn := "q-sshd"; mq_Mql := "sshd" |}.

Definition query_tls : Mquery := {| CodeId := "c-tls"; mq_Mrn := "q-tls"; mq_Mql := "tls" |}.

Definition fields_chain : PolicyBundleMapFields :=
  {| bm_map := bundle_chain;
     bm_Queries := [("q-tls", Some query_tls); ("q-sshd", Some query_sshd)];
     bm_Props := []; bm_Library := Some library_lib |}.

End BundleMap.
(** * The in-memory datalake ([policyresolver.go]) *)

Module Datalake.

(** ** The store

    [db.cache] holds values of type [interface{}]; the code recovers them
    with type assertions.  The wrappers are stored by value, but three of
    their parts are references: a wrapper's [parents] and [children] are Go
    maps, its [Policy] is a pointer, and its properties are pointers.  Two
    copies of a wrapper therefore share them, and a write through one copy
    is seen through every other, with or without a [cache.Set].  The model
    keeps those objects in heaps and the wrappers hold locations. *)

(** Modelled from the spec: [wrapPolicy] is declared outside src; §4.3 lists
    what it wraps: the policy, [parents] and [children] (sets of MRNs), the
    declared properties and the [invalidated] flag. *)
Record wrapPolicy := {
  wp_Policy : nat;
  parents : nat;
  children : nat;
  Props : list nat;
  invalidated : bool;
}.

(** [wrapAsset], of which this file reads [ResolvedPolicy] (a pointer) and
    [resolvedPolicyVersion]. *)
Record wrapAsset := {
  wa_mrn : string;
  wa_ResolvedPolicy : option ResolvedPolicy;
  resolvedPolicyVersion : string;
}.

(** What a cache slot can hold.  [IData None] is the [nil] that
    [initDataValue] stores. *)
Inductive Item :=
| IPolicy (w : wrapPolicy)
| IAsset (w : wrapAsset)
| IScore (s : Score)
| IData (r : option Result).

(** The datalake and everything its wrappers point to.
    - [cache]: the key/value cache;
    - [maps]: the Go maps that serve as [parents] and [children] sets;
    - [policies]: the [policy.Policy] objects;
    - [properties]: the [explorer.Property] objects;
    - [admission]: what the cache will answer to the coming [Set] calls, in
      order ([false]: the write is refused); once the list is used up every
      write is admitted;
    - [writes]: the keys of the [Set] calls made so far, latest first;
    - [nowProvider]: the Unix time [db.nowProvider()] reports. *)
Record Db := {
  cache : gmap string Item;
  maps : gmap nat (gset string);
  policies : gmap nat Policy;
  properties : gmap nat Property;
  admission : list bool;
  writes : list string;
  nowProvider : Z;
}.

Definition with_cache (c : gmap string Item) (a : list bool) (w : list string) (db : Db) : Db :=
  {| cache := c; maps := maps db; policies := policies db;
     properties := properties db; admission := a; writes := w;
     nowProvider := nowProvider db |}.

Definition with_maps (m : gmap nat (gset string)) (db : Db) : Db :=
  {| cache := cache db; maps := m; policies := policies db;
     properties := properties db; admission := admission db;
     writes := writes db; nowProvider := nowProvider db |}.

Definition with_policies (p : gmap nat Policy) (db : Db) : Db :=
  {| cache := cache db; maps := maps db; policies := p;
     properties := properties db; admission := admission db;
     writes := writes db; nowProvider := nowProvider db |}.

Definition with_properties (p : gmap nat Property) (db : Db) : Db :=
  {| cache := cache db; maps := maps db; policies := policies db;
     properties := p; admission := admission db;
     writes := writes db; nowProvider := nowProvider db |}.

(** ** Calls: state passing with the four outcomes

    A call threads the datalake; when it ends in an error or a panic the
    datalake is left as it was at that point (what was written stays
    written). *)
Definition M (A : Type) : Type := Db → outcome A * Db.

Definition ret {A} (a : A) : M A := λ db, (Ok a, db).

Definition throw {A} (e : error) : M A := λ db, (Err e, db).

Definition panic {A} : M A := λ db, (Panic, db).

Definition bind {A B} (m : M A) (k : A → M B) : M B := λ db,
  match m db with
  | (Ok a, db') => k a db'
  | (Err e, db') => (Err e, db')
  | (Panic, db') => (Panic, db')
  | (Diverge, db') => (Diverge, db')
  end.

Notation "'do' x <- m ; k" := (bind m (λ x, k))
  (at level 10, x name, m at level 100, k at level 200, only parsing).
Notation "'do' ' pat <- m ; k" := (bind m (λ x, match x with pat => k end))
  (at level 10, pat pattern, m at level 100, k at level 200, only parsing).

(** [v, err := call] followed by a test of [err]: the error becomes a value. *)
Definition try {A} (m : M A) : M (A + error) := λ db,
  match m db with
  | (Ok a, db') => (Ok (inl a), db')
  | (Err e, db') => (Ok (inr e), db')
  | (Panic, db') => (Panic, db')
  | (Diverge, db') => (Diverge, db')
  end.

(** ** The cache and its keys *)

(** Modelled from the spec: the key prefixes are constants declared outside
    src; §4.3 gives the keys as ["policy/"+mrn], ["asset/"+mrn],
    ["data/"+assetMrn+"\x00"+checksum] and ["score/"+assetMrn+"\x00"+qrId]. *)
Definition dbIDPolicy : string := "policy/".
Definition dbIDAsset : string := "asset/".
Definition dbIDData : string := "data/".
Definition dbIDScore : string := "score/".

(** [db.cache.Get(key)]: the value and whether it was found. *)
Definition cache_Get (key : string) : M (option Item) := λ db,
  (Ok (cache db !! key), db).

(** [db.cache.Set(key, value, cost)]: false when the cache refuses the
    write, which then leaves the slot as it was. *)
Definition cache_Set (key : string) (value : Item) (cost : Z) : M bool := λ db,
  match admission db with
  | false :: rest => (Ok false, with_cache (cache db) rest (key :: writes db) db)
  | true :: rest => (Ok true, with_cache (<[key := value]> (cache db)) rest (key :: writes db) db)
  | [] => (Ok true, with_cache (<[key := value]> (cache db)) [] (key :: writes db) db)
  end.

(** ** Scores *)

(** GetScore retrieves one score for an asset *)
Definition GetScore (assetMrn scoreID : string) : M Score :=
  do x <- cache_Get (dbIDScore +:+ assetMrn +:+ nul +:+ scoreID);
  match x with
  | None => throw (errors_New "cannot find score")
  | Some (IScore s) => ret s
  | Some _ => panic
  end.

(** The first test of [updateScore]: the stored score [org] and the incoming
    one agree on the six fields that make a result. *)
Definition unchanged (org score : Score) : bool :=
  bool_decide (Value org = Value score)
  && bool_decide (Type_ org = Type_ score)
  && bool_decide (DataCompletion org = DataCompletion score)
  && bool_decide (DataTotal org = DataTotal score)
  && bool_decide (ScoreCompletion org = ScoreCompletion score)
  && bool_decide (Weight org = Weight score).

(** The [if / else if / else] of [updateScore] that sets the two times of
    [score]; [found] is [err == nil], and [org] is [Score{}] when the score
    was not found. *)
Definition stamp (found : bool) (org score : Score) (now : Z) : Score :=
  (* if this is the first time saving the score *)
  if negb found
     || (bool_decide (ScoreCompletion org = 0)
         && bool_decide (Type_ score = ScoreType_Result))
  then
    set_times score now
      (if bool_decide (Value score = 100) || bool_decide (ScoreCompletion score < 100)
       then 0 else now)
  else if (bool_decide (Value org ≠ Value score)
           || bool_decide (ScoreCompletion org = 0))
          && bool_decide (Type_ score = ScoreType_Result)
  then
    (* we are failing from 100 => something else *)
    set_times score now
      (if bool_decide (Value org = 100) then now else FailureTime org)
  else
    set_times score (ValueModifiedTime org) (FailureTime org).

(** set one score and return true if it was updated.  [score] is a pointer
    in the source: the two times are written into the caller's object and a
    copy of it is stored. *)
Definition updateScore (assetMrn : string) (score : Score) (now : Z) : M bool :=
  do r <- try (GetScore assetMrn (QrId score));
  let org := match r with inl s => s | inr _ => Score_zero end in
  let found := match r with inl _ => true | inr _ => false end in
  if found && unchanged org score then ret false
  else
    do ok <- cache_Set (dbIDScore +:+ assetMrn +:+ nul +:+ QrId score)
               (IScore (stamp found org score now)) 1;
    if ok then ret true
    else throw (errors_New ("failed to set score for asset '" +:+ assetMrn
                            +:+ "' with ID '" +:+ QrId score +:+ "'")).

Fixpoint UpdateScores_range (assetMrn : string) (scores : list Score) (now : Z)
    (updated : gset string) : M (gset string) :=
  match scores with
  | [] => ret updated
  | score :: rest =>
      do ok <- updateScore assetMrn score now;
      UpdateScores_range assetMrn rest now
        (if ok then {[QrId score]} ∪ updated else updated)
  end.

(** UpdateScores sets the given scores and returns true if any were updated *)
Definition UpdateScores (assetMrn : string) (scores : list Score) : M (gset string) := λ db,
  UpdateScores_range assetMrn scores (nowProvider db) ∅ db.

(** ** Reports *)

(** GetScores retrieves a map of score for an asset *)
Fixpoint GetScores_range (assetMrn : string) (qrIDs : list string)
    (res : gmap string Score) : M (gmap string Score) :=
  match qrIDs with
  | [] => ret res
  | qrID :: rest =>
      do x <- cache_Get (dbIDScore +:+ assetMrn +:+ nul +:+ qrID);
      match x with
      | None => throw (errors_New ("score for asset '" +:+ assetMrn
                                   +:+ "' with ID '" +:+ qrID +:+ "' not found"))
      | Some (IScore score) => GetScores_range assetMrn rest (<[qrID := score]> res)
      | Some _ => panic
      end
  end.

Definition GetScores (assetMrn : string) (qrIDs : list string) : M (gmap string Score) :=
  GetScores_range assetMrn qrIDs ∅.

(** GetData retrieves a map of requested data fields for an asset *)
Fixpoint GetData_range (assetMrn : string) (fields : list (string * string))
    (res : gmap string (option Result)) : M (gmap string (option Result)) :=
  match fields with
  | [] => ret res
  | (checksum, _) :: rest =>
      do x <- cache_Get (dbIDData +:+ assetMrn +:+ nul +:+ checksum);
      match x with
      | None => throw (errors_New ("failed to get data for asset '" +:+ assetMrn
                                   +:+ "' and checksum '" +:+ checksum +:+ "'"))
      | Some (IData r) => GetData_range assetMrn rest (<[checksum := r]> res)
      | Some _ => panic
      end
  end.

Definition GetData (assetMrn : string) (fields : list (string * string))
    : M (gmap string (option Result)) :=
  GetData_range assetMrn fields ∅.

(** [qrid := job.QrId; if qrid == "root" { qrid = assetMrn }] *)
Definition job_qrid (assetMrn : string) (job : ReportingJob) : string :=
  if decide (rj_QrId job = "root") then assetMrn else rj_QrId job.

Definition emptyReport (assetMrn qrID : string) : Report :=
  {| EntityMrn := assetMrn; ScoringMrn := qrID; rep_Score := None;
     Scores := None; rep_Data := None; ResolvedPolicyVersion := "" |}.

(** GetReport retrieves all scores and data for a given asset *)
Definition GetReport (assetMrn qrID : string) : M Report :=
  do r <- try (GetScore assetMrn qrID);
  match r with
  | inr _ => ret (emptyReport assetMrn qrID)
  | inl score =>
      do x <- cache_Get (dbIDAsset +:+ assetMrn);
      match x with
      | None => throw (errors_New ("cannot find asset '" +:+ assetMrn +:+ "'"))
      | Some (IAsset assetw) =>
          match wa_ResolvedPolicy assetw with
          | None => panic
          | Some resolvedPolicy =>
              match rp_CollectorJob resolvedPolicy with
              | None => panic
              | Some collectorJob =>
                  let includedScores : gset string :=
                    foldl (λ acc kv, {[job_qrid assetMrn kv.2]} ∪ acc) ∅
                          (ReportingJobs collectorJob) in
                  let scoreQrIDs := elements includedScores in
                  do scores <- GetScores assetMrn scoreQrIDs;
                  let fields := map (λ kv, (kv.1, dq_Type kv.2)) (Datapoints collectorJob) in
                  do data <- GetData assetMrn fields;
                  ret {| EntityMrn := assetMrn; ScoringMrn := qrID;
                         rep_Score := Some score; Scores := Some scores;
                         rep_Data := Some data;
                         ResolvedPolicyVersion := resolvedPolicyVersion assetw |}
              end
          end
      | Some _ => panic
      end
  end.

(** ** The resolved policy of an asset *)

Definition initDataValue (assetMrn checksum typ : string) : M unit :=
  let id := dbIDData +:+ assetMrn +:+ nul +:+ checksum in
  do x <- cache_Get id;
  match x with
  | Some _ => ret tt
  | None =>
      do ok <- cache_Set id (IData None) 1;
      if ok then ret tt
      else throw (errors_New ("failed to initialize data value for asset '" +:+ assetMrn
                              +:+ "' with checksum '" +:+ checksum +:+ "'"))
  end.

Definition initEmptyScore (assetMrn qrid : string) : M unit :=
  let id := dbIDScore +:+ assetMrn +:+ nul +:+ qrid in
  do ok <- cache_Set id (IScore Score_zero) 1;
  if ok then ret tt
  else throw (errors_New ("failed to initialize score for asset '" +:+ assetMrn
                          +:+ "' with qrID '" +:+ qrid +:+ "'")).

Fixpoint initData_range (assetMrn : string) (datapoints : list (string * DataQueryInfo)) : M unit :=
  match datapoints with
  | [] => ret tt
  | (checksum, info) :: rest =>
      do r <- try (initDataValue assetMrn checksum (dq_Type info));
      match r with
      | inr _ => throw (errors_New "failed to create asset scoring job (failed to init data)")
      | inl _ => initData_range assetMrn rest
      end
  end.

Fixpoint initScores_range (assetMrn : string) (reportingJobs : list (string * ReportingJob)) : M unit :=
  match reportingJobs with
  | [] => ret tt
  | (_, job) :: rest =>
      do r <- try (initEmptyScore assetMrn (job_qrid assetMrn job));
      match r with
      | inr _ => throw (errors_New "failed to create asset scoring job (failed to init score)")
      | inl _ => initScores_range assetMrn rest
      end
  end.

(** The test that makes [SetAssetResolvedPolicy] return at once. *)
Definition already_cached (assetw : wrapAsset) (resolvedPolicy : ResolvedPolicy)
    (version : string) : bool :=
  match wa_ResolvedPolicy assetw with
  | Some old =>
      bool_decide (rp_GraphExecutionChecksum old = rp_GraphExecutionChecksum resolvedPolicy)
      && bool_decide (resolvedPolicyVersion assetw = version)
  | None => false
  end.

(** SetAssetResolvedPolicy sets and initialized all fields for an asset's resolved policy *)
Definition SetAssetResolvedPolicy (assetMrn : string) (resolvedPolicy : ResolvedPolicy)
    (version : string) : M unit :=
  do x <- cache_Get (dbIDAsset +:+ assetMrn);
  match x with
  | None => throw (errors_New ("cannot find asset '" +:+ assetMrn +:+ "'"))
  | Some (IAsset assetw) =>
      if already_cached assetw resolvedPolicy version then ret tt
      else
        let assetw' := {| wa_mrn := wa_mrn assetw;
                          wa_ResolvedPolicy := Some resolvedPolicy;
                          resolvedPolicyVersion := version |} in
        match rp_CollectorJob resolvedPolicy with
        | None => panic
        | Some collectorJob =>
            do _ <- initData_range assetMrn (Datapoints collectorJob);
            do _ <- initScores_range assetMrn (ReportingJobs collectorJob);
            do ok <- cache_Set (dbIDAsset +:+ assetMrn) (IAsset assetw') 1;
            if ok then ret tt
            else throw (errors_New ("failed to save resolved policy for asset '"
                                    +:+ assetMrn +:+ "'"))
        end
  | Some _ => panic
  end.

(** GetCollectorJob returns the collector job for a given asset *)
Definition GetCollectorJob (assetMrn : string) : M CollectorJob :=
  do x <- cache_Get (dbIDAsset +:+ assetMrn);
  match x with
  | None => throw (errors_New ("cannot find asset '" +:+ assetMrn +:+ "'"))
  | Some (IAsset assetw) =>
      match wa_ResolvedPolicy assetw with
      | None => throw (errors_New ("cannot find resolved policy for asset '"
                                   +:+ assetMrn +:+ "'"))
      | Some resolvedPolicy =>
          match rp_CollectorJob resolvedPolicy with
          | None => throw (errors_New ("cannot find collectorJob for asset '"
                                       +:+ assetMrn +:+ "'"))
          | Some collectorJob => ret collectorJob
          end
      end
  | Some _ => panic
  end.

(** ** Data *)

Definition setDatum (assetMrn checksum : string) (value : Result) : M unit :=
  let id := dbIDData +:+ assetMrn +:+ nul +:+ checksum in
  do ok <- cache_Set id (IData (Some value)) 1;
  if ok then ret tt
  else throw (errors_New ("failed to save asset data for asset '" +:+ assetMrn
                          +:+ "' and checksum '" +:+ checksum +:+ "'")).

(** [multierror.Append(errList, err)]; a nil [errList] is the empty list. *)
Definition multierror_Append (errList : list error) (err : error) : list error :=
  match err with
  | multierror errs => errList ++ errs
  | _ => errList ++ [err]
  end.

Section UpdateData.

(** [types.Unset] and the method [Label] of [types.Type] are declared in
    cnquery. *)
Variable Unset : string.
Variable Label : string → string.

(** The test of [UpdateData] that rejects one value:
    [val.Data != nil && !val.Data.IsNil() && val.Data.Type != "" &&
     val.Data.Type != info.Type && types.Type(info.Type) != types.Unset] *)
Definition types_dont_match (val : Result) (info : DataQueryInfo) : bool :=
  match Data val with
  | Some d =>
      negb (IsNil d)
      && bool_decide (prim_Type d ≠ "")
      && bool_decide (prim_Type d ≠ dq_Type info)
      && bool_decide (dq_Type info ≠ Unset)
  | None => false
  end.

(** The error [UpdateData] records for a rejected value. *)
Definition type_error (dpChecksum : string) (val : Result) (info : DataQueryInfo) : error :=
  fmt_Errorf_w dpChecksum errTypesDontMatch (Label (dq_Type info))
    (Label (default "" (prim_Type <$> Data val))).

(** The body of [for dpChecksum, val := range data]; a nil [val] is [None]. *)
Fixpoint UpdateData_range (assetMrn : string) (collectorJob : CollectorJob)
    (data : list (string * option Result)) (res : gmap string string)
    (errList : list error) : M (gmap string string * list error) :=
  match data with
  | [] => ret (res, errList)
  | (dpChecksum, val) :: rest =>
      match lookup_assoc (Datapoints collectorJob) dpChecksum with
      | None => throw (errors_New ("cannot find this datapoint to store values: "
                                   +:+ dpChecksum))
      | Some info =>
          match val with
          | None => panic
          | Some val =>
              if types_dont_match val info then
                UpdateData_range assetMrn collectorJob rest res
                  (multierror_Append errList (type_error dpChecksum val info))
              else
                do r <- try (setDatum assetMrn dpChecksum val);
                match r with
                | inr err =>
                    UpdateData_range assetMrn collectorJob rest res
                      (multierror_Append errList err)
                | inl _ =>
                    (* TODO: we don't know which data was updated and which wasn't yet, so
                       we currently always notify... *)
                    UpdateData_range assetMrn collectorJob rest
                      (<[dpChecksum := dq_Type info]> res) errList
                end
          end
      end
  end.

(** UpdateData sets the list of data value for a given asset and returns a list of updated IDs *)
Definition UpdateData (assetMrn : string) (data : list (string * option Result))
    : M (gmap string string) :=
  do r <- try (GetCollectorJob assetMrn);
  match r with
  | inr err => throw (errors_New ("cannot find collectorJob to store data: "
                                  +:+ Error_text err))
  | inl collectorJob =>
      do '(res, errList) <- UpdateData_range assetMrn collectorJob data ∅ [];
      match errList with
      | [] => ret res
      | _ => throw (multierror errList)
      end
  end.

End UpdateData.

(** ** Objects behind pointers *)

(** Reading through a [*policy.Policy]; a nil or dangling pointer panics. *)
Definition load_policy (l : nat) : M Policy := λ db,
  match policies db !! l with
  | Some p => (Ok p, db)
  | None => (Panic, db)
  end.

(** Writing a field of the object behind a [*policy.Policy]. *)
Definition update_policy (l : nat) (f : Policy → Policy) : M unit := λ db,
  match policies db !! l with
  | Some p => (Ok tt, with_policies (<[l := f p]> (policies db)) db)
  | None => (Panic, db)
  end.

Definition load_property (l : nat) : M Property := λ db,
  match properties db !! l with
  | Some p => (Ok p, db)
  | None => (Panic, db)
  end.

(** [x.Mql = mql] for a [*explorer.Property] *)
Definition store_Mql (l : nat) (mql : string) : M unit := λ db,
  match properties db !! l with
  | Some p =>
      (Ok tt, with_properties
                (<[l := {| prop_Mrn := prop_Mrn p; prop_Uid := prop_Uid p; prop_Mql := mql |}]>
                   (properties db)) db)
  | None => (Panic, db)
  end.

(** [for k := range m] over the Go map at [l]: its keys; a nil map has none. *)
Definition map_keys (l : nat) : M (list string) := λ db,
  (Ok (elements (default ∅ (maps db !! l))), db).

(** [m[k] = struct{}{}] for the Go map at [l]; assigning into a nil map
    panics. *)
Definition map_add (l : nat) (k : string) : M unit := λ db,
  match maps db !! l with
  | Some s => (Ok tt, with_maps (<[l := {[k]} ∪ s]> (maps db)) db)
  | None => (Panic, db)
  end.

(** [delete(m, k)] for the Go map at [l]; a no-op on a nil map. *)
Definition map_delete (l : nat) (k : string) : M unit := λ db,
  match maps db !! l with
  | Some s => (Ok tt, with_maps (<[l := s ∖ {[k]}]> (maps db)) db)
  | None => (Ok tt, db)
  end.

(** ** Policies *)

Definition Checksums_zero : Checksums :=
  {| LocalContentChecksum := ""; LocalExecutionChecksum := "";
     GraphContentChecksum := ""; GraphExecutionChecksum := "" |}.

Definition set_Sums (s : Checksums) (p : Policy) : Policy :=
  {| Mrn := Mrn p; Groups := Groups p; Filters := Filters p; Sums := s |}.

Definition set_Filters (f : option (gmap string Mquery)) (p : Policy) : Policy :=
  {| Mrn := Mrn p; Groups := Groups p; Filters := f; Sums := Sums p |}.

(** [group := p.Groups[0]; group.Policies = refs] *)
Definition set_group_Policies (refs : list PolicyRef) (p : Policy) : Policy :=
  {| Mrn := Mrn p;
     Groups := match Groups p with
               | [] => []
               | _ :: groups => {| Policies := refs |} :: groups
               end;
     Filters := Filters p; Sums := Sums p |}.

(** Modelled from the spec: [InvalidateExecutionChecksums] and
    [InvalidateGraphChecksums] are declared outside src.  §4.1: the
    execution axis has a local and a graph checksum, and invalidating graph
    only clears graph. *)
Definition InvalidateExecutionChecksums (p : Policy) : Policy :=
  set_Sums {| LocalContentChecksum := LocalContentChecksum (Sums p);
              LocalExecutionChecksum := "";
              GraphContentChecksum := GraphContentChecksum (Sums p);
              GraphExecutionChecksum := "" |} p.

Definition InvalidateGraphChecksums (p : Policy) : Policy :=
  set_Sums {| LocalContentChecksum := LocalContentChecksum (Sums p);
              LocalExecutionChecksum := LocalExecutionChecksum (Sums p);
              GraphContentChecksum := "";
              GraphExecutionChecksum := "" |} p.

(** Modelled from the spec: [DependentPolicyMrns] is declared outside src.
    §4.4 (b): the direct sub-policies of a policy, which are the MRNs its
    groups reference; the result is a Go set, ranged over by the caller. *)
Definition DependentPolicyMrns (p : Policy) : list string :=
  elements (list_to_set (C := gset string)
              (concat (map (λ g, map ref_Mrn (Policies g)) (Groups p)))).

(** Modelled from the spec: [GetRawPolicy] is declared outside src.  §7: a
    missing policy is a not-found error; the policy of a stored wrapper is
    the one it wraps. *)
Definition GetRawPolicy (mrn : string) : M nat :=
  do x <- cache_Get (dbIDPolicy +:+ mrn);
  match x with
  | None => throw (errors_New ("policy '" +:+ mrn +:+ "' not found"))
  | Some (IPolicy w) => ret (wp_Policy w)
  | Some _ => panic
  end.

Definition set_invalidated (b : bool) (w : wrapPolicy) : wrapPolicy :=
  {| wp_Policy := wp_Policy w; parents := parents w; children := children w;
     Props := Props w; invalidated := b |}.

Definition set_Props (ps : list nat) (w : wrapPolicy) : wrapPolicy :=
  {| wp_Policy := wp_Policy w; parents := parents w; children := children w;
     Props := ps; invalidated := invalidated w |}.

(** Modelled from the spec: [checkAndInvalidatePolicyBundle] is declared
    outside src.  §4.3 step 5 and §4.4: it marks the cached resolved policy
    of the wrapper invalid, which is the wrapper's [invalidated] flag; the
    flag is part of the stored value, so the wrapper is written back, and a
    refused write is an error (§4.3). *)
Definition checkAndInvalidatePolicyBundle (wrap : wrapPolicy) : M wrapPolicy :=
  do p <- load_policy (wp_Policy wrap);
  let wrap' := set_invalidated true wrap in
  do ok <- cache_Set (dbIDPolicy +:+ Mrn p) (IPolicy wrap') 2;
  if ok then ret wrap'
  else throw (errors_New ("failed to save policy '" +:+ Mrn p +:+ "' to cache")).

(** Modelled from the spec: [ensureAsset] is declared outside src.  §4.3
    step 1: a missing target is synthesized as an asset policy with one
    empty group; §3: the asset holds that policy, whose wrapper starts with
    no parents and no children.  The new objects take fresh locations. *)
Definition ensureAsset (mrn : string) : M (wrapAsset * wrapPolicy) := λ db,
  let lp := fresh (dom (policies db)) in
  let l1 := fresh (dom (maps db)) in
  let l2 := fresh ({[l1]} ∪ dom (maps db)) in
  let policyObj := {| Mrn := mrn; Groups := [ {| Policies := [] |} ];
                      Filters := None; Sums := Checksums_zero |} in
  let policyw := {| wp_Policy := lp; parents := l1; children := l2;
                    Props := []; invalidated := false |} in
  let assetw := {| wa_mrn := mrn; wa_ResolvedPolicy := None;
                   resolvedPolicyVersion := "" |} in
  (do ok <- cache_Set (dbIDPolicy +:+ mrn) (IPolicy policyw) 2;
   if negb ok then throw (errors_New ("failed to save policy '" +:+ mrn +:+ "' to cache"))
   else
     do ok <- cache_Set (dbIDAsset +:+ mrn) (IAsset assetw) 1;
     if negb ok then throw (errors_New ("failed to save asset '" +:+ mrn +:+ "' to cache"))
     else ret (assetw, policyw))
    (with_maps (<[l2 := ∅]> (<[l1 := ∅]> (maps db)))
       (with_policies (<[lp := policyObj]> (policies db)) db)).

Definition ensurePolicy (mrn : string) (createIfMissing : bool) : M wrapPolicy :=
  do x <- cache_Get (dbIDPolicy +:+ mrn);
  match x with
  | Some (IPolicy w) => ret w
  | Some _ => panic
  | None =>
      if negb createIfMissing then
        throw (errors_New ("failed to modify policy '" +:+ mrn +:+ "', could not find it"))
      else
        do '(_, policyw) <- ensureAsset mrn;
        ret policyw
  end.

(** ** Properties *)

(** [explorer.PropsReq]: the entity and the properties (pointers) to set. *)
Record PropsReq := {
  req_EntityMrn : string;
  req_Props : list nat;
}.

(** The first loop of [SetProps]: index the wrapper's properties by MRN
    and by UID. *)
Fixpoint SetProps_index (props : list nat) (propsIdx : gmap string nat) : M (gmap string nat) :=
  match props with
  | [] => ret propsIdx
  | l :: rest =>
      do cur <- load_property l;
      let propsIdx := if decide (prop_Mrn cur ≠ "") then <[prop_Mrn cur := l]> propsIdx
                      else propsIdx in
      let propsIdx := if decide (prop_Uid cur ≠ "") then <[prop_Uid cur := l]> propsIdx
                      else propsIdx in
      SetProps_index rest propsIdx
  end.

(** The second loop of [SetProps]; [policyw] is the local copy of the
    wrapper, whose [Props] the loop extends. *)
Fixpoint SetProps_range (props : list nat) (policyw : wrapPolicy)
    (propsIdx : gmap string nat) : M wrapPolicy :=
  match props with
  | [] => ret policyw
  | l :: rest =>
      do cur <- load_property l;
      let id := if decide (prop_Mrn cur = "") then prop_Uid cur else prop_Mrn cur in
      if decide (id = "") then
        throw (errors_New ("cannot set property without MRN: " +:+ prop_Mql cur))
      else
        match propsIdx !! id with
        | Some x =>
            do _ <- store_Mql x (prop_Mql cur);
            SetProps_range rest policyw propsIdx
        | None =>
            SetProps_range rest (set_Props (Props policyw ++ [l]) policyw)
              (<[id := l]> propsIdx)
        end
  end.

(** SetProps will override properties for a given entity (asset, space, org) *)
Definition SetProps (req : PropsReq) : M unit :=
  do policyw <- ensurePolicy (req_EntityMrn req) false;
  do propsIdx <- SetProps_index (Props policyw) ∅;
  do _ <- SetProps_range (req_Props req) policyw propsIdx;
  (* since weonly altered an existing policy, we don't need to set it again *)
  ret tt.

(** ** Mutating a policy *)

(** [policy.PolicyDelta_Action]: the two actions, and any other number the
    wire may carry. *)
Inductive PolicyDelta_Action :=
| PolicyDelta_ADD
| PolicyDelta_DELETE
| PolicyDelta_other (n : Z).

Record PolicyDelta := {
  pd_PolicyMrn : string;
  Action : PolicyDelta_Action;
}.

(** [policy.PolicyMutationDelta]; [PolicyDeltas] is a Go map, kept in the
    order the range of [MutatePolicy] visits it. *)
Record PolicyMutationDelta := {
  PolicyMrn : string;
  PolicyDeltas : list (string * PolicyDelta);
}.

Definition get_db : M Db := λ db, (Ok db, db).

Definition diverge {A} : M A := λ db, (Diverge, db).

Section Mutate.

(** Two routines of package [policy] that are declared outside src.  They
    read the datalake through the lookups they are handed.
    [ComputeAssetFilters] answers with the filters of a policy or an error;
    [UpdateChecksums] answers with the checksums it computed, for each
    policy object it wrote them to, or an error. *)
Variable ComputeAssetFilters : Db → Policy → list Mquery + error.
Variable UpdateChecksums : Db → nat → gmap nat Checksums + error.

(** [err = p.UpdateChecksums(...); if err != nil { return err }] *)
Definition UpdateChecksums_call (policyObj : nat) : M unit := λ db,
  match UpdateChecksums db policyObj with
  | inr err => (Err err, db)
  | inl sums =>
      (Ok tt, with_policies
                (map_imap (λ l p, Some (match sums !! l with
                                        | Some s => set_Sums s p
                                        | None => p
                                        end)) (policies db)) db)
  end.

(** The loop over [depMrns] in [refreshAssetFilters]. *)
Fixpoint refreshAssetFilters_deps (policyObj : nat) (depMrns : list string) : M unit :=
  match depMrns with
  | [] => ret tt
  | mrn :: rest =>
      do r <- try (GetRawPolicy mrn);
      match r with
      | inr err => throw (errors_New ("failed to get dependent policy '" +:+ mrn
                                      +:+ "': " +:+ Error_text err))
      | inl depl =>
          do dep <- load_policy depl;
          match Filters dep with
          | None => refreshAssetFilters_deps policyObj rest
          | Some items =>
              do _ <- update_policy policyObj
                        (λ p, set_Filters (Some (items ∪ default ∅ (Filters p))) p);
              refreshAssetFilters_deps policyObj rest
          end
      end
  end.

Definition refreshAssetFilters (policyw : wrapPolicy) : M unit :=
  let policyObj := wp_Policy policyw in
  do p <- load_policy policyObj;
  do db <- get_db;
  match ComputeAssetFilters db p with
  | inr err => throw (errors_New ("failed to compute asset filters: " +:+ Error_text err))
  | inl filters =>
      do _ <- update_policy policyObj
                (set_Filters (Some (foldl (λ items filter, <[CodeId filter := filter]> items)
                                          ∅ filters)));
      do _ <- refreshAssetFilters_deps policyObj (DependentPolicyMrns p);
      do ok <- cache_Set (dbIDPolicy +:+ Mrn p) (IPolicy policyw) 2;
      if ok then ret tt
      else throw (errors_New ("failed to update policy asset filters for '"
                              +:+ Mrn p +:+ "'"))
  end.

(** [for k := range parents { needsUpdate[k] = the stored wrapper of k }] *)
Fixpoint load_parents (ks : list string) (needsUpdate : gmap string wrapPolicy)
    : M (gmap string wrapPolicy) :=
  match ks with
  | [] => ret needsUpdate
  | k :: rest =>
      do x <- cache_Get (dbIDPolicy +:+ k);
      match x with
      | None => throw (errors_New ("failed to get parent policy '" +:+ k +:+ "'"))
      | Some (IPolicy w) => load_parents rest (<[k := w]> needsUpdate)
      | Some _ => panic
      end
  end.

(** [for len(needsUpdate) > 0 { for k, policyw := range needsUpdate {...} }]:
    each turn of the inner loop handles one pending wrapper, adds its
    parents and removes it.  Go ranges a map in no fixed order and the map
    changes under the range, so which pending wrapper comes next is open:
    [sched] names, turn by turn, the one that is taken.  When [sched] is
    used up with wrappers still pending the loop has not ended yet. *)
Fixpoint refreshDependent_loop (sched : list nat) (needsUpdate : gmap string wrapPolicy)
    : M unit :=
  match map_to_list needsUpdate with
  | [] => ret tt
  | first :: others =>
      match sched with
      | [] => diverge
      | n :: sched' =>
          let pending := first :: others in
          let '(k, policyw) := nth (n mod length pending) pending first in
          do _ <- refreshAssetFilters policyw;
          do _ <- update_policy (wp_Policy policyw) InvalidateGraphChecksums;
          do _ <- UpdateChecksums_call (wp_Policy policyw);
          do p <- load_policy (wp_Policy policyw);
          do _ <- cache_Set (dbIDPolicy +:+ Mrn p) (IPolicy policyw) 2;
          do policyw' <- checkAndInvalidatePolicyBundle policyw;
          do ks <- map_keys (parents policyw');
          do needsUpdate' <- load_parents ks needsUpdate;
          refreshDependent_loop sched' (delete k needsUpdate')
      end
  end.

Definition refreshDependentAssetFilters (sched : list nat) (startPolicy : wrapPolicy) : M unit :=
  do ks <- map_keys (parents startPolicy);
  do needsUpdate <- load_parents ks ∅;
  refreshDependent_loop sched needsUpdate.

Definition child_not_found (policyMrn : string) : error :=
  errors_New ("cannot find child policy '" +:+ policyMrn +:+ "' when trying to assign it").

Definition child_not_saved (policyMrn : string) : error :=
  errors_New ("failed to update child-parent relationship for policy '" +:+ policyMrn +:+ "'").

(** [for policyMrn, delta := range mutation.PolicyDeltas { switch delta.Action ... }]
    with the local index [policies] and the flag [changed]. *)
Fixpoint MutatePolicy_range (targetMRN : string) (policyw : wrapPolicy)
    (deltas : list (string * PolicyDelta)) (policies : gmap string PolicyRef)
    (changed : bool) : M (gmap string PolicyRef * bool) :=
  match deltas with
  | [] => ret (policies, changed)
  | (policyMrn, delta) :: rest =>
      match Action delta with
      | PolicyDelta_ADD =>
          match policies !! policyMrn with
          | Some _ => MutatePolicy_range targetMRN policyw rest policies changed
          | None =>
              (* FIXME: upstream policies *)
              do x <- cache_Get (dbIDPolicy +:+ policyMrn);
              match x with
              | None => throw (child_not_found policyMrn)
              | Some (IPolicy childw) =>
                  do _ <- map_add (children policyw) policyMrn;
                  do _ <- map_add (parents childw) targetMRN;
                  do ok <- cache_Set (dbIDPolicy +:+ policyMrn) (IPolicy childw) 2;
                  if negb ok then throw (child_not_saved policyMrn)
                  else
                    MutatePolicy_range targetMRN policyw rest
                      (<[policyMrn := {| ref_Mrn := policyMrn |}]> policies) true
              | Some _ => panic
              end
          end
      | PolicyDelta_DELETE =>
          do x <- cache_Get (dbIDPolicy +:+ policyMrn);
          match x with
          | None => throw (child_not_found policyMrn)
          | Some (IPolicy childw) =>
              do _ <- map_delete (children policyw) policyMrn;
              do _ <- map_delete (parents childw) targetMRN;
              do ok <- cache_Set (dbIDPolicy +:+ policyMrn) (IPolicy childw) 2;
              if negb ok then throw (child_not_saved policyMrn)
              else
                MutatePolicy_range targetMRN policyw rest (delete policyMrn policies) true
          | Some _ => panic
          end
      | PolicyDelta_other _ =>
          throw (status_Error InvalidArgument "unsupported change  is required")
      end
  end.

(** MutatePolicy modifies a policy. If it does not find the policy, and if the
    caller chooses to, it will treat the MRN as an asset and create it + its policy.
    The result is the [*policy.Policy] of the target. *)
Definition MutatePolicy (sched : list nat) (mutation : PolicyMutationDelta)
    (createIfMissing : bool) : M nat :=
  let targetMRN := PolicyMrn mutation in
  do policyw <- ensurePolicy targetMRN createIfMissing;
  do p <- load_policy (wp_Policy policyw);
  match Groups p with
  | [] => throw (errors_New "cannot modify policy, it has no specs (invalid state)")
  | group :: _ =>
      (* prepare a map for easier processing *)
      let policies := foldl (λ idx cur, <[ref_Mrn cur := cur]> idx) ∅ (Policies group) in
      do '(policies, changed) <-
        MutatePolicy_range targetMRN policyw (PolicyDeltas mutation) policies false;
      if negb changed then ret (wp_Policy policyw)
      else
        (* since the map was only used for faster create/delete, we now have to
           translate it back *)
        do _ <- update_policy (wp_Policy policyw)
                  (set_group_Policies (map snd (map_to_list policies)));
        do _ <- refreshAssetFilters policyw;
        do _ <- update_policy (wp_Policy policyw) InvalidateExecutionChecksums;
        do _ <- UpdateChecksums_call (wp_Policy policyw);
        do ok <- cache_Set (dbIDPolicy +:+ targetMRN) (IPolicy policyw) 2;
        if negb ok then throw (errors_New "")
        else
          do policyw' <- checkAndInvalidatePolicyBundle policyw;
          do _ <- refreshDependentAssetFilters sched policyw';
          ret (wp_Policy policyw)
  end.

End Mutate.

(** ** Names for what the properties speak of *)

Definition skey (assetMrn qrId : string) : string :=
  dbIDScore +:+ assetMrn +:+ nul +:+ qrId.

Definition dkey (assetMrn checksum : string) : string :=
  dbIDData +:+ assetMrn +:+ nul +:+ checksum.

Definition pkey (mrn : string) : string := dbIDPolicy +:+ mrn.

Definition akey (mrn : string) : string := dbIDAsset +:+ mrn.

(** The first byte of a key tells its namespace. *)
Definition first_byte (s : string) : option Ascii.ascii :=
  match s with
  | String a _ => Some a
  | EmptyString => None
  end.

(** The cache admits the next write. *)
Definition admits_next (db : Db) : Prop := head (admission db) ≠ Some false.

(** What [cache.Set] leaves behind when the write is admitted. *)
Definition stored (key : string) (value : Item) (db : Db) : Db :=
  with_cache (<[key := value]> (cache db)) (tail (admission db)) (key :: writes db) db.

(** The six fields [updateScore] compares before it writes. *)
Definition same_result (org score : Score) : Prop :=
  Value org = Value score ∧ Type_ org = Type_ score ∧
  DataCompletion org = DataCompletion score ∧ DataTotal org = DataTotal score ∧
  ScoreCompletion org = ScoreCompletion score ∧ Weight org = Weight score.

Definition set_failed (assetMrn qrId : string) : error :=
  errors_New ("failed to set score for asset '" +:+ assetMrn
              +:+ "' with ID '" +:+ qrId +:+ "'").


(** What [UpdateData] does with one entry of its input, given the catalog:
    [rejects] tells whether the type test refuses it, [entry_error] is the
    error recorded for it then. *)
Definition rejects (Unset : string) (collectorJob : CollectorJob)
    (entry : string * option Result) : bool :=
  match lookup_assoc (Datapoints collectorJob) entry.1, entry.2 with
  | Some info, Some val => types_dont_match Unset val info
  | _, _ => false
  end.

Definition entry_error (Label : string → string) (collectorJob : CollectorJob)
    (entry : string * option Result) : error :=
  match lookup_assoc (Datapoints collectorJob) entry.1, entry.2 with
  | Some info, Some val => type_error Label entry.1 val info
  | _, _ => errTypesDontMatch
  end.

(** [errors.Is(err, errTypesDontMatch)] for the errors of this file. *)
Definition is_type_mismatch (e : error) : bool :=
  match e with
  | fmt_Errorf_w _ errTypesDontMatch _ _ => true
  | errTypesDontMatch => true
  | _ => false
  end.

(** ** The policy graph held by the datalake *)

(** The wrapper stored for the policy [m], if any. *)
Definition policy_at (db : Db) (m : string) : option wrapPolicy :=
  match cache db !! pkey m with
  | Some (IPolicy w) => Some w
  | _ => None
  end.

(** The content of the Go map at [l], read as a set (a nil map is empty). *)
Definition set_at (db : Db) (l : nat) : gset string := default ∅ (maps db !! l).

(** I1, edge symmetry: for stored policies [a] and [b], [b] is among the
    children of [a] iff [a] is among the parents of [b]. *)
Definition edge_symmetry (db : Db) : Prop :=
  ∀ a b wa wb,
    policy_at db a = Some wa → policy_at db b = Some wb →
    (b ∈ set_at db (children wa) ↔ a ∈ set_at db (parents wb)).

(** How the wrappers of a datalake lie in memory, as the code that creates
    them leaves them:
    - the maps and the policy object of a stored wrapper exist;
    - no map serves two purposes: the parents map of a policy is not the
      children map of any policy, and two policies share neither;
    - the policy object of the wrapper stored for [m] is named [m];
    - the MRNs in the parents and children of a stored policy are those of
      stored policies. *)
Record well_formed (db : Db) : Prop := {
  wf_alloc : ∀ m w, policy_at db m = Some w →
    is_Some (maps db !! parents w) ∧ is_Some (maps db !! children w)
    ∧ is_Some (policies db !! wp_Policy w);
  wf_apart : ∀ m1 m2 w1 w2,
    policy_at db m1 = Some w1 → policy_at db m2 = Some w2 →
    parents w1 ≠ children w2
    ∧ (m1 ≠ m2 → parents w1 ≠ parents w2 ∧ children w1 ≠ children w2);
  wf_named : ∀ m w p,
    policy_at db m = Some w → policies db !! wp_Policy w = Some p → Mrn p = m;
  wf_closed : ∀ m w x,
    policy_at db m = Some w →
    x ∈ set_at db (children w) ∪ set_at db (parents w) →
    is_Some (policy_at db x);
}.

(** The datalake holds a sound policy graph. *)
Definition graph_ok (db : Db) : Prop := well_formed db ∧ edge_symmetry db.

(** What one delta does to a set: [m[k] = struct{}{}] or [delete(m, k)]. *)
Definition edit (add : bool) (k : string) (s : gset string) : gset string :=
  if add then {[k]} ∪ s else s ∖ {[k]}.

(** The three references of a wrapper: its policy object and its two maps. *)
Definition refs (w : wrapPolicy) : nat * nat * nat :=
  (wp_Policy w, parents w, children w).

Definition refs_at (db : Db) (m : string) : option (nat * nat * nat) :=
  refs <$> policy_at db m.

Definition name_at (db : Db) (l : nat) : option string := Mrn <$> policies db !! l.

(** Two datalakes show the same policy graph: the same references under
    every policy key, the same maps, the same names of policy objects. *)
Definition same_view (db db' : Db) : Prop :=
  (∀ m, refs_at db' m = refs_at db m)
  ∧ maps db' = maps db
  ∧ (∀ l, name_at db' l = name_at db l).

(** The wrapper [w] is a copy of one that is stored. *)
Definition held (db : Db) (w : wrapPolicy) : Prop := ∃ m, refs_at db m = Some (refs w).

(** A call seen from outside: from a datalake that satisfies [P] it ends
    with a value and a datalake that satisfy [Q], or it ends otherwise
    (error, panic, no end yet) with a datalake that satisfies [E]. *)
Definition triple {A} (P : Db → Prop) (m : M A) (Q : A → Db → Prop) (E : Db → Prop) : Prop :=
  ∀ db, P db →
    match m db with
    | (Ok a, db') => Q a db'
    | (_, db') => E db'
    end.

(** The cache will answer the coming writes as [answers] says. *)
Definition with_admission (answers : list bool) (db : Db) : Db :=
  with_cache (cache db) answers (writes db) db.

(** The datalakes reached from [db0] by a sequence of [MutatePolicy] calls
    that returned, whatever the cache answered to their writes and in
    whatever order the pending ancestors were refreshed.  [reach_mutate] is
    a call that returned without error; [reach_failed] is a call that
    returned an error, which leaves behind what it had written so far. *)
Inductive reachable (ComputeAssetFilters : Db → Policy → list Mquery + error)
    (UpdateChecksums : Db → nat → gmap nat Checksums + error) (db0 : Db) : Db → Prop :=
| reach_start : reachable ComputeAssetFilters UpdateChecksums db0 db0
| reach_mutate db answers sched mutation createIfMissing p db' :
    reachable ComputeAssetFilters UpdateChecksums db0 db →
    MutatePolicy ComputeAssetFilters UpdateChecksums sched mutation createIfMissing
      (with_admission answers db) = (Ok p, db') →
    reachable ComputeAssetFilters UpdateChecksums db0 db'
| reach_failed db answers sched mutation createIfMissing e db' :
    reachable ComputeAssetFilters UpdateChecksums db0 db →
    MutatePolicy ComputeAssetFilters UpdateChecksums sched mutation createIfMissing
      (with_admission answers db) = (Err e, db') →
    reachable ComputeAssetFilters UpdateChecksums db0 db'.

(** ** Sample stores *)

(** A datalake with nothing in it. *)
Definition db_empty : Db :=
  {| cache := ∅; maps := ∅; policies := ∅; properties := ∅;
     admission := []; writes := []; nowProvider := 0 |}.

Definition with_slot (key : string) (value : Item) (db : Db) : Db :=
  with_cache (<[key := value]> (cache db)) (admission db) (writes db) db.

(** A failing result for the check [c1]: value 50, fully scored. *)
Definition score_failing : Score :=
  {| QrId := "c1"; Type_ := ScoreType_Result; Value := 50; Weight := 1;
     ScoreCompletion := 100; DataTotal := 1; DataCompletion := 100;
     Message := "port is 2222"; ValueModifiedTime := 0; FailureTime := 0 |}.

(** The same result as stored earlier, at time 40, with another message. *)
Definition score_failing_stored : Score :=
  {| QrId := "c1"; Type_ := ScoreType_Result; Value := 50; Weight := 1;
     ScoreCompletion := 100; DataTotal := 1; DataCompletion := 100;
     Message := "port is 2200"; ValueModifiedTime := 40; FailureTime := 40 |}.

(** A passing result for [c1], stored at time 40. *)
Definition score_passing_stored : Score :=
  {| QrId := "c1"; Type_ := ScoreType_Result; Value := 100; Weight := 1;
     ScoreCompletion := 100; DataTotal := 1; DataCompletion := 100;
     Message := ""; ValueModifiedTime := 40; FailureTime := 0 |}.


Definition db_c1_failing : Db := with_slot (skey "a1" "c1") (IScore score_failing_stored) db_empty.

Definition db_c1_passing : Db := with_slot (skey "a1" "c1") (IScore score_passing_stored) db_empty.

(** Every coming write is admitted. *)
Definition admits_all (db : Db) : Prop := Forall (λ b, b = true) (admission db).

(** The asset [a1] before its first resolved policy, with a stale score for
    [c1], data for the datapoint [dp1] and nothing for [dp2]. *)
Definition asset_a1 : wrapAsset :=
  {| wa_mrn := "a1"; wa_ResolvedPolicy := None; resolvedPolicyVersion := "" |}.

Definition result_dp1 : Result :=
  {| Data := Some {| prim_Type := "s"; IsNil := false |};
     res_Error := ""; res_CodeId := "dp1" |}.

Definition collector_a1 : CollectorJob :=
  {| ReportingJobs := [("uuid-root", {| rj_QrId := "root" |});
                       ("uuid-c1", {| rj_QrId := "c1" |})];
     Datapoints := [("dp1", {| dq_Type := "s"; Notify := ["uuid-c1"] |});
                    ("dp2", {| dq_Type := "i"; Notify := ["uuid-c1"] |})] |}.

Definition resolved_a1 : ResolvedPolicy :=
  {| rp_GraphExecutionChecksum := "g1"; FiltersChecksum := "f1";
     rp_CollectorJob := Some collector_a1 |}.

Definition db_a1 : Db :=
  with_slot (akey "a1") (IAsset asset_a1)
    (with_slot (dkey "a1" "dp1") (IData (Some result_dp1))
       (with_slot (skey "a1" "c1") (IScore score_failing_stored) db_empty)).

(** [a1] with the resolved policy [resolved_a1] set and its slots filled. *)
Definition asset_a1_resolved : wrapAsset :=
  {| wa_mrn := "a1"; wa_ResolvedPolicy := Some resolved_a1;
     resolvedPolicyVersion := "v2" |}.

Definition db_a1_resolved : Db :=
  with_slot (akey "a1") (IAsset asset_a1_resolved)
    (with_slot (dkey "a1" "dp1") (IData None)
       (with_slot (dkey "a1" "dp2") (IData None) db_empty)).

(** A value of type [s] for [dp2], whose catalog type is [i]. *)
Definition result_dp2_wrong : Result :=
  {| Data := Some {| prim_Type := "s"; IsNil := false |};
     res_Error := ""; res_CodeId := "dp2" |}.

Definition data_a1 : list (string * option Result) :=
  [("dp2", Some result_dp2_wrong); ("dp1", Some result_dp1)].

(** Two policies and the asset [a1].  [a1] has [pA] assigned: its first
    group lists it, [pA] is among its children and it is among the parents
    of [pA].  [pB] is assigned to nothing.  The locations 0 to 5 hold the
    parents and children maps, 0 to 2 the policy objects, and 7 a property
    object that is not part of any policy yet. *)
Definition policy_obj (mrn : string) (refs : list string) : Policy :=
  {| Mrn := mrn; Groups := [ {| Policies := map (λ m, {| ref_Mrn := m |}) refs |} ];
     Filters := None; Sums := Checksums_zero |}.

Definition wrap (obj up down : nat) : wrapPolicy :=
  {| wp_Policy := obj; parents := up; children := down; Props := [];
     invalidated := false |}.

Definition db_policies : Db :=
  {| cache := <[pkey "a1" := IPolicy (wrap 0 0 1)]>
              (<[pkey "pA" := IPolicy (wrap 1 2 3)]>
               (<[pkey "pB" := IPolicy (wrap 2 4 5)]> ∅));
     maps := <[0%nat := ∅]> (<[1%nat := {["pA"]}]> (<[2%nat := {["a1"]}]>
             (<[3%nat := ∅]> (<[4%nat := ∅]> (<[5%nat := ∅]> ∅)))));
     policies := <[0%nat := policy_obj "a1" ["pA"]]>
                 (<[1%nat := policy_obj "pA" []]>
                  (<[2%nat := policy_obj "pB" []]> ∅));
     properties := <[7%nat := {| prop_Mrn := "prop1"; prop_Uid := ""; prop_Mql := "22" |}]> ∅;
     admission := []; writes := []; nowProvider := 0 |}.

(** Stand-ins for the two routines of package [policy]: no filters, and no
    checksum written. *)
Definition no_filters (db : Db) (p : Policy) : list Mquery + error := inl [].

Definition no_checksums (db : Db) (l : nat) : gmap nat Checksums + error := inl ∅.

Definition delta (mrn : string) (action : PolicyDelta_Action) : string * PolicyDelta :=
  (mrn, {| pd_PolicyMrn := mrn; Action := action |}).

(** Assign [pA] to [a1] once more. *)
Definition assign_pA_again : PolicyMutationDelta :=
  {| PolicyMrn := "a1"; PolicyDeltas := [delta "pA" PolicyDelta_ADD] |}.

(** The local index [MutatePolicy] builds from the first group. *)
Definition index_of (group : PolicyGroup) : gmap string PolicyRef :=
  foldl (λ idx cur, <[ref_Mrn cur := cur]> idx) ∅ (Policies group).

(** Make [pB] a sub-policy of [pA]; then unassign [pA] from [a1]. *)
Definition add_pB_to_pA : PolicyMutationDelta :=
  {| PolicyMrn := "pA"; PolicyDeltas := [delta "pB" PolicyDelta_ADD] |}.

Definition unassign_pA : PolicyMutationDelta :=
  {| PolicyMrn := "a1"; PolicyDeltas := [delta "pA" PolicyDelta_DELETE] |}.

Definition db_policies_1 : Db :=
  (MutatePolicy no_filters no_checksums [0%nat] add_pB_to_pA false db_policies).2.

Definition db_policies_2 : Db :=
  (MutatePolicy no_filters no_checksums [] unassign_pA false db_policies_1).2.

(** ** More of the datalake *)

(** GetResolvedPolicy returns the resolved policy for a given asset *)
Definition GetResolvedPolicy (assetMrn : string) : M ResolvedPolicy :=
  do x <- cache_Get (dbIDAsset +:+ assetMrn);
  match x with
  | None => throw (errors_New ("cannot find asset '" +:+ assetMrn +:+ "'"))
  | Some (IAsset assetw) =>
      match wa_ResolvedPolicy assetw with
      | None => throw (errors_New ("cannot find resolved policy for asset '"
                                   +:+ assetMrn +:+ "'"))
      | Some resolvedPolicy => ret resolvedPolicy
      end
  | Some _ => panic
  end.

(** The cache refuses the next write. *)
Definition refuses_next (db : Db) : Prop := head (admission db) = Some false.

(** The data slots of an asset hold data, as every write of this file
    leaves them. *)
Definition data_typed (db : Db) (assetMrn : string) : Prop :=
  ∀ c it, cache db !! dkey assetMrn c = Some it → ∃ r, it = IData r.

(** The score slots the reporting jobs of a collector job stand for. *)
Definition job_slots (assetMrn : string) (collectorJob : CollectorJob) : list string :=
  map (λ kv, job_qrid assetMrn kv.2) (ReportingJobs collectorJob).

(** A result for [c1] that could not be computed: an error, no value. *)
Definition score_errored : Score :=
  {| QrId := "c1"; Type_ := ScoreType_Error; Value := 0; Weight := 1;
     ScoreCompletion := 100; DataTotal := 1; DataCompletion := 100;
     Message := "timeout"; ValueModifiedTime := 0; FailureTime := 0 |}.

(** [db_c1_failing] with a cache that refuses the next write. *)
Definition db_c1_refusing : Db := with_admission [false] db_c1_failing.

(** [a1] as [ensureAsset] leaves it, with a score posted for [c1]. *)
Definition db_a1_unresolved : Db :=
  with_slot (akey "a1") (IAsset asset_a1)
    (with_slot (skey "a1" "c1") (IScore score_failing_stored) db_empty).


(** [x.Mql = mql] on a property value. *)
Definition set_Mql (mql : string) (p : Property) : Property :=
  {| prop_Mrn := prop_Mrn p; prop_Uid := prop_Uid p; prop_Mql := mql |}.


(** The names of the property object at [l], if there is one. *)
Definition names_at (db : Db) (l : nat) : option (string * string) :=
  (λ p, (prop_Mrn p, prop_Uid p)) <$> properties db !! l.

(** ** What a mutation asks for *)

(** The MRNs the group of a policy lists. *)
Definition group_mrns (g : PolicyGroup) : gset string :=
  list_to_set (ref_Mrn <$> Policies g).

Definition is_ADD (d : PolicyDelta) : bool :=
  match Action d with PolicyDelta_ADD => true | _ => false end.

Definition is_DELETE (d : PolicyDelta) : bool :=
  match Action d with PolicyDelta_DELETE => true | _ => false end.

Definition is_unsupported (d : PolicyDelta) : bool :=
  match Action d with PolicyDelta_other _ => true | _ => false end.

(** The MRNs a delta map adds, and those it deletes (the MRN is the key of
    the map, as in the code). *)
Definition added (deltas : list (string * PolicyDelta)) : gset string :=
  list_to_set (filter (λ kd, is_ADD kd.2 = true) deltas).*1.

Definition deleted (deltas : list (string * PolicyDelta)) : gset string :=
  list_to_set (filter (λ kd, is_DELETE kd.2 = true) deltas).*1.

(** Two datalakes whose policy objects have the same groups. *)
Definition same_groups (db db' : Db) : Prop :=
  ∀ l, Groups <$> policies db' !! l = Groups <$> policies db !! l.

(** A call that leaves the groups of every policy object as they are,
    however it ends. *)
Definition keeps_groups {A} (m : M A) : Prop := ∀ db, same_groups db (m db).2.

(** Assign [pB] to [a1] and unassign [pA], in one mutation. *)
Definition swap_pA_pB : PolicyMutationDelta :=
  {| PolicyMrn := "a1";
     PolicyDeltas := [delta "pB" PolicyDelta_ADD; delta "pA" PolicyDelta_DELETE] |}.

(** The deltas applied to a set one after the other, in the order the range
    visits them. *)
Definition fold_edits (deltas : list (string * PolicyDelta)) (s : gset string) : gset string :=
  foldl (λ s kd, match Action kd.2 with
                 | PolicyDelta_ADD => {[kd.1]} ∪ s
                 | PolicyDelta_DELETE => s ∖ {[kd.1]}
                 | PolicyDelta_other _ => s
                 end) s deltas.

(** [db_policies] with the groups of the policy of [a1] removed. *)
Definition db_no_groups : Db :=
  with_policies
    (<[0%nat := {| Mrn := "a1"; Groups := []; Filters := None; Sums := Checksums_zero |}]>
       (policies db_policies)) db_policies.

(** A mutation of a policy that is not stored. *)
Definition assign_to_zz : PolicyMutationDelta :=
  {| PolicyMrn := "zz"; PolicyDeltas := [delta "pA" PolicyDelta_ADD] |}.

(** Assign [pB] to [a1], with a second delta whose action is neither ADD nor
    DELETE. *)
Definition assign_pB_and_more : PolicyMutationDelta :=
  {| PolicyMrn := "a1";
     PolicyDeltas := [delta "pB" PolicyDelta_ADD; delta "pA" (PolicyDelta_other 7)] |}.

(** Assign a policy that is not stored to [a1], after [pB]. *)
Definition assign_pB_pZ : PolicyMutationDelta :=
  {| PolicyMrn := "a1";
     PolicyDeltas := [delta "pB" PolicyDelta_ADD; delta "pZ" PolicyDelta_ADD] |}.

(** One delta for [a1] whose action is neither ADD nor DELETE. *)
Definition other_pA : PolicyMutationDelta :=
  {| PolicyMrn := "a1"; PolicyDeltas := [delta "pA" (PolicyDelta_other 7)] |}.

(** Assign a policy that is not stored to [a1]. *)
Definition assign_pZ : PolicyMutationDelta :=
  {| PolicyMrn := "a1"; PolicyDeltas := [delta "pZ" PolicyDelta_ADD] |}.

End Datalake.

(** * Properties of the datalake *)

Import Datalake.

(** ** Go maps in range order *)

Lemma NoDup_keys_functional {V} (l : list (string * V)) k v v' :
  NoDup l.*1 → (k, v) ∈ l → (k, v') ∈ l → v = v'.
Proof.
  induction l as [|[k0 v0] l IH]; intros Hnd Hin Hin'.
  - by apply elem_of_nil in Hin.
  - simpl in Hnd. apply NoDup_cons in Hnd as [Hfresh Hnd].
    apply elem_of_cons in Hin as [Heq|Hin]; apply elem_of_cons in Hin' as [Heq'|Hin'].
    + congruence.
    + simplify_eq. exfalso. apply Hfresh. apply list_elem_of_fmap. by exists (k0, v').
    + simplify_eq. exfalso. apply Hfresh. apply list_elem_of_fmap. by exists (k0, v).
    + by apply IH.
Qed.

(** ** Keys *)

Lemma first_byte_skey a q : first_byte (skey a q) = first_byte "s".
Proof. reflexivity. Qed.

Lemma first_byte_dkey a c : first_byte (dkey a c) = first_byte "d".
Proof. reflexivity. Qed.

Lemma first_byte_pkey m : first_byte (pkey m) = first_byte "p".
Proof. reflexivity. Qed.

Lemma first_byte_akey m : first_byte (akey m) = first_byte "a".
Proof. reflexivity. Qed.

Lemma skey_inj a q q' : skey a q = skey a q' → q = q'.
Proof.
  unfold skey. intros H.
  do 3 apply String.app_inj in H. exact H.
Qed.

Lemma dkey_inj a c c' : dkey a c = dkey a c' → c = c'.
Proof.
  unfold dkey. intros H.
  do 3 apply String.app_inj in H. exact H.
Qed.

Lemma pkey_inj m m' : pkey m = pkey m' → m = m'.
Proof. unfold pkey. apply String.app_inj. Qed.

Lemma skey_dkey a q a' c : skey a q ≠ dkey a' c.
Proof. intros H. apply (f_equal first_byte) in H. discriminate H. Qed.

Lemma akey_dkey m a c : akey m ≠ dkey a c.
Proof. intros H. apply (f_equal first_byte) in H. discriminate H. Qed.

Lemma akey_skey m a q : akey m ≠ skey a q.
Proof. intros H. apply (f_equal first_byte) in H. discriminate H. Qed.

Lemma akey_pkey m m' : akey m ≠ pkey m'.
Proof. intros H. apply (f_equal first_byte) in H. discriminate H. Qed.

(** ** Scores *)

Lemma cache_Set_admitted key value cost db :
  admits_next db → cache_Set key value cost db = (Ok true, stored key value db).
Proof.
  unfold admits_next, cache_Set, stored. destruct (admission db) as [|[] rest]; simpl; congruence.
Qed.

Lemma GetScore_eq assetMrn qrId db :
  GetScore assetMrn qrId db =
  (match cache db !! skey assetMrn qrId with
   | Some (IScore s) => Ok s
   | None => Err (errors_New "cannot find score")
   | Some _ => Panic
   end, db).
Proof.
  unfold GetScore, bind, cache_Get. fold (skey assetMrn qrId).
  by destruct (cache db !! skey assetMrn qrId) as [[?|?|?|?]|].
Qed.

Lemma cache_Set_cache key value cost db k :
  k ≠ key → cache (cache_Set key value cost db).2 !! k = cache db !! k.
Proof.
  intros Hk. unfold cache_Set.
  destruct (admission db) as [|[] ?]; simpl; by rewrite ?lookup_insert_ne.
Qed.

Lemma unchanged_true org score : unchanged org score = true ↔ same_result org score.
Proof.
  unfold unchanged, same_result.
  rewrite !andb_true_iff, !bool_decide_eq_true. tauto.
Qed.

(** [updateScore], case by case on the slot it reads. *)
Lemma updateScore_eq assetMrn score now db :
  updateScore assetMrn score now db =
  let write found org :=
    match cache_Set (skey assetMrn (QrId score))
            (IScore (stamp found org score now)) 1 db with
    | (Ok true, db') => (Ok true, db')
    | (Ok false, db') => (Err (set_failed assetMrn (QrId score)), db')
    | (Err e, db') => (Err e, db')
    | (Panic, db') => (Panic, db')
    | (Diverge, db') => (Diverge, db')
    end in
  match cache db !! skey assetMrn (QrId score) with
  | Some (IScore org) => if unchanged org score then (Ok false, db) else write true org
  | None => write false Score_zero
  | Some _ => (Panic, db)
  end.
Proof.
  unfold updateScore, bind, try. rewrite GetScore_eq.
  fold (skey assetMrn (QrId score)).
  destruct (cache db !! skey assetMrn (QrId score)) as [[?|?|org|?]|]; try done; simpl.
  - destruct (unchanged org score); [done|].
    by destruct (cache_Set _ _ _ _) as [[[]| | |] ?].
  - by destruct (cache_Set _ _ _ _) as [[[]| | |] ?].
Qed.

Lemma updateScore_noop assetMrn score now org db :
  cache db !! skey assetMrn (QrId score) = Some (IScore org) →
  same_result org score →
  updateScore assetMrn score now db = (Ok false, db).
Proof.
  intros Hget Hsame. rewrite updateScore_eq, Hget. simpl.
  by apply unchanged_true in Hsame as ->.
Qed.

Lemma updateScore_first assetMrn score now db :
  cache db !! skey assetMrn (QrId score) = None →
  admits_next db →
  updateScore assetMrn score now db
  = (Ok true, stored (skey assetMrn (QrId score))
                (IScore (stamp false Score_zero score now)) db).
Proof.
  intros Hget Hadm. rewrite updateScore_eq, Hget. simpl.
  by rewrite cache_Set_admitted.
Qed.

Lemma updateScore_changed assetMrn score now org db :
  cache db !! skey assetMrn (QrId score) = Some (IScore org) →
  ¬ same_result org score →
  admits_next db →
  updateScore assetMrn score now db
  = (Ok true, stored (skey assetMrn (QrId score))
                (IScore (stamp true org score now)) db).
Proof.
  intros Hget Hdiff Hadm. rewrite updateScore_eq, Hget. simpl.
  destruct (unchanged org score) eqn:E.
  - by apply unchanged_true in E.
  - by rewrite cache_Set_admitted.
Qed.

Lemma stored_lookup key value db : cache (stored key value db) !! key = Some value.
Proof. unfold stored. simpl. apply lookup_insert_eq. Qed.

(** Whatever [updateScore] does, it touches no score slot but its own. *)
Lemma updateScore_other assetMrn score now db q :
  q ≠ QrId score →
  cache (updateScore assetMrn score now db).2 !! skey assetMrn q
  = cache db !! skey assetMrn q.
Proof.
  intros Hq. rewrite updateScore_eq.
  assert (Hk : skey assetMrn q ≠ skey assetMrn (QrId score)).
  { intros E. apply skey_inj in E. congruence. }
  pose proof (cache_Set_cache (skey assetMrn (QrId score))) as Hset.
  destruct (cache db !! skey assetMrn (QrId score)) as [[?|?|org|?]|] eqn:E;
    try done; simpl.
  - destruct (unchanged org score); [done|].
    specialize (Hset (IScore (stamp true org score now)) 1 db _ Hk).
    by destruct (cache_Set _ _ _ _) as [[[]| | |] ?].
  - specialize (Hset (IScore (stamp false Score_zero score now)) 1 db _ Hk).
    by destruct (cache_Set _ _ _ _) as [[[]| | |] ?].
Qed.

Lemma UpdateScores_range_noop assetMrn q org now scores :
  (∀ s, s ∈ scores → QrId s = q → same_result org s) →
  ∀ updated db res db',
    cache db !! skey assetMrn q = Some (IScore org) →
    q ∉ updated →
    UpdateScores_range assetMrn scores now updated db = (Ok res, db') →
    (q ∉ res) ∧ (cache db' !! skey assetMrn q = Some (IScore org)).
Proof.
  induction scores as [|s scores IH]; intros Hall updated db res db' Hget Hq Hrun.
  - simpl in Hrun. unfold ret in Hrun. by simplify_eq.
  - simpl in Hrun. unfold bind in Hrun.
    destruct (decide (QrId s = q)) as [Heq|Hne].
    + subst q. rewrite (updateScore_noop _ _ _ org) in Hrun;
        [|done|apply Hall; [left|done]].
      eapply IH; [|exact Hget|exact Hq|exact Hrun].
      intros s' ?. apply Hall. by right.
    + pose proof (updateScore_other assetMrn s now db q (not_eq_sym Hne)) as Hoth.
      destruct (updateScore assetMrn s now db) as [[ok| | |] db1]; try done.
      simpl in Hoth.
      eapply IH; [| |  |exact Hrun].
      * intros s' ?. apply Hall. by right.
      * by rewrite Hoth.
      * destruct ok; [|done]. rewrite elem_of_union, elem_of_singleton.
        intros [?|?]; [congruence|contradiction].
Qed.

(** C2.  First persistence of a score.  When no score is stored at
    [(asset, qrId)], the incoming score has type Result and the write is
    admitted, [updateScore] stores the incoming score with
    [ValueModifiedTime = now]; its [FailureTime] is 0 if [Value == 100] or
    [ScoreCompletion < 100], and [now] otherwise. *)
Theorem first_persistence assetMrn score now db :
  cache db !! skey assetMrn (QrId score) = None →
  Type_ score = ScoreType_Result →
  admits_next db →
  ∃ db' persisted,
    updateScore assetMrn score now db = (Ok true, db')
    ∧ cache db' !! skey assetMrn (QrId score) = Some (IScore persisted)
    ∧ ValueModifiedTime persisted = now
    ∧ FailureTime persisted
      = (if decide (Value score = 100 ∨ ScoreCompletion score < 100) then 0 else now).
Proof.
  intros Hget _ Hadm.
  eexists _, _. split; [by apply updateScore_first|].
  split; [apply stored_lookup|].
  unfold stamp. simpl.
  destruct (decide (Value score = 100 ∨ ScoreCompletion score < 100)) as [Hc|Hc].
  - assert (E : bool_decide (Value score = 100) || bool_decide (ScoreCompletion score < 100) = true).
    { apply orb_true_iff. rewrite !bool_decide_eq_true. exact Hc. }
    rewrite E. by simpl.
  - assert (E : bool_decide (Value score = 100) || bool_decide (ScoreCompletion score < 100) = false).
    { apply orb_false_iff. rewrite !bool_decide_eq_false. tauto. }
    rewrite E. by simpl.
Qed.

Lemma first_persistence_witness :
  cache db_empty !! skey "a1" (QrId score_failing) = None
  ∧ Type_ score_failing = ScoreType_Result
  ∧ admits_next db_empty
  ∧ ∃ db' persisted,
      updateScore "a1" score_failing 100 db_empty = (Ok true, db')
      ∧ cache db' !! skey "a1" (QrId score_failing) = Some (IScore persisted)
      ∧ ValueModifiedTime persisted = 100
      ∧ FailureTime persisted
        = (if decide (Value score_failing = 100 ∨ ScoreCompletion score_failing < 100)
           then 0 else 100).
Proof.
  split; [reflexivity|]. split; [reflexivity|]. split; [discriminate|].
  apply (first_persistence "a1" score_failing 100 db_empty);
    [reflexivity|reflexivity|discriminate].
Defined.




(** C4.  When the stored score and the incoming one agree on [Value],
    [Type], [DataCompletion], [DataTotal], [ScoreCompletion] and [Weight],
    [updateScore] returns [false] and no error and leaves the whole
    datalake as it was, whatever the incoming [Message] is; and in any run
    of [UpdateScores] whose scores for that [qrId] all agree with the
    stored one in this way, the [qrId] is not in the updated set and its
    slot still holds the stored score. *)
Theorem score_update_noop assetMrn score now org db :
  cache db !! skey assetMrn (QrId score) = Some (IScore org) →
  same_result org score →
  updateScore assetMrn score now db = (Ok false, db)
  ∧ UpdateScores assetMrn [score] db = (Ok ∅, db)
  ∧ ∀ scores updated db',
      (∀ s, s ∈ scores → QrId s = QrId score → same_result org s) →
      UpdateScores assetMrn scores db = (Ok updated, db') →
      (QrId score ∉ updated)
      ∧ (cache db' !! skey assetMrn (QrId score) = Some (IScore org)).
Proof.
  intros Hget Hsame. split; [by eapply updateScore_noop|]. split.
  - unfold UpdateScores. simpl. unfold bind.
    by rewrite (updateScore_noop _ _ _ org).
  - intros scores updated db' Hall Hrun. unfold UpdateScores in Hrun.
    eapply UpdateScores_range_noop; [exact Hall|exact Hget| |exact Hrun].
    apply not_elem_of_empty.
Qed.

Lemma score_update_noop_witness :
  cache db_c1_failing !! skey "a1" (QrId score_failing) = Some (IScore score_failing_stored)
  ∧ same_result score_failing_stored score_failing
  ∧ Message score_failing ≠ Message score_failing_stored
  ∧ updateScore "a1" score_failing 100 db_c1_failing = (Ok false, db_c1_failing)
  ∧ UpdateScores "a1" [score_failing] db_c1_failing = (Ok ∅, db_c1_failing).
Proof.
  assert (H1 : cache db_c1_failing !! skey "a1" (QrId score_failing)
               = Some (IScore score_failing_stored)) by reflexivity.
  assert (H2 : same_result score_failing_stored score_failing)
    by (repeat split; reflexivity).
  split; [exact H1|]. split; [exact H2|]. split; [discriminate|].
  pose proof (score_update_noop "a1" score_failing 100 score_failing_stored
                db_c1_failing H1 H2) as (Ha & Hb & _).
  split; [exact Ha|exact Hb].
Defined.

(** ** Reports *)

(** C8.  When no score is stored for [(assetMrn, qrID)], [GetReport] returns,
    without an error and without touching the datalake, the empty report: it
    carries the entity MRN and the scoring MRN and has no score, no scores,
    no data and no resolved-policy version. *)
Theorem GetReport_bootstrap assetMrn qrID db :
  cache db !! skey assetMrn qrID = None →
  ∃ report,
    GetReport assetMrn qrID db = (Ok report, db)
    ∧ EntityMrn report = assetMrn
    ∧ ScoringMrn report = qrID
    ∧ rep_Score report = None
    ∧ Scores report = None
    ∧ rep_Data report = None
    ∧ ResolvedPolicyVersion report = "".
Proof.
  intros Hget. exists (emptyReport assetMrn qrID).
  split; [|by repeat split].
  unfold GetReport, bind, try. by rewrite GetScore_eq, Hget.
Qed.

Lemma GetReport_bootstrap_witness :
  cache db_a1 !! skey "a1" "a1" = None
  ∧ ∃ report,
      GetReport "a1" "a1" db_a1 = (Ok report, db_a1)
      ∧ EntityMrn report = "a1"
      ∧ ScoringMrn report = "a1"
      ∧ rep_Score report = None
      ∧ Scores report = None
      ∧ rep_Data report = None
      ∧ ResolvedPolicyVersion report = "".
Proof.
  split; [reflexivity|]. apply (GetReport_bootstrap "a1" "a1" db_a1). reflexivity.
Defined.

(** ** The resolved policy of an asset *)

Lemma admits_all_tail db c w :
  admits_all db → admits_all (with_cache c (tail (admission db)) w db).
Proof.
  unfold admits_all. simpl. destruct (admission db); [done|].
  intros H. by apply Forall_cons in H as [_ ?].
Qed.

Lemma admits_all_next db : admits_all db → admits_next db.
Proof.
  unfold admits_all, admits_next. destruct (admission db) as [|[] ?]; try done.
  intros H. by apply Forall_cons in H as [? _].
Qed.

Lemma admits_all_stored key value db : admits_all db → admits_all (stored key value db).
Proof. apply admits_all_tail. Qed.

(** [cache.Set], case by case on what the cache answers. *)
Lemma cache_Set_cases key value cost db :
  (∃ db', cache_Set key value cost db = (Ok false, db') ∧ cache db' = cache db)
  ∨ cache_Set key value cost db = (Ok true, stored key value db).
Proof.
  unfold cache_Set, stored. destruct (admission db) as [|[] ?]; simpl; eauto.
Qed.

(** A refused write changes no slot and no object. *)
Lemma cache_Set_refused_heaps key value cost db db' :
  cache_Set key value cost db = (Ok false, db') →
  cache db' = cache db ∧ maps db' = maps db ∧ policies db' = policies db.
Proof.
  unfold cache_Set. destruct (admission db) as [|[] ?]; intros E; by simplify_eq.
Qed.

Lemma cache_Set_refused key value cost db db' :
  cache_Set key value cost db = (Ok false, db') → ¬ admits_all db.
Proof.
  unfold cache_Set, admits_all. destruct (admission db) as [|[] ?]; intros E Ha; simplify_eq.
  by apply Forall_cons in Ha as [? _].
Qed.

Lemma initDataValue_eq assetMrn checksum typ db :
  initDataValue assetMrn checksum typ db =
  match cache db !! dkey assetMrn checksum with
  | Some _ => (Ok tt, db)
  | None =>
      match cache_Set (dkey assetMrn checksum) (IData None) 1 db with
      | (Ok true, db') => (Ok tt, db')
      | (Ok false, db') =>
          (Err (errors_New ("failed to initialize data value for asset '" +:+ assetMrn
                            +:+ "' with checksum '" +:+ checksum +:+ "'")), db')
      | (Err e, db') => (Err e, db')
      | (Panic, db') => (Panic, db')
      | (Diverge, db') => (Diverge, db')
      end
  end.
Proof.
  unfold initDataValue, bind, cache_Get. fold (dkey assetMrn checksum).
  destruct (cache db !! dkey assetMrn checksum); [done|].
  by destruct (cache_Set _ _ _ _) as [[[]| | |] ?].
Qed.

(** [initDataValue] never changes a slot that holds something. *)
Lemma initDataValue_keeps assetMrn checksum typ db k v :
  cache db !! k = Some v →
  cache (initDataValue assetMrn checksum typ db).2 !! k = Some v.
Proof.
  intros Hk. rewrite initDataValue_eq.
  destruct (cache db !! dkey assetMrn checksum) eqn:E; [done|].
  destruct (cache_Set_cases (dkey assetMrn checksum) (IData None) 1 db)
    as [(db' & -> & Hc)| ->]; simpl.
  - by rewrite Hc.
  - rewrite lookup_insert_ne; [done|]. congruence.
Qed.

Lemma initData_range_keeps assetMrn datapoints db k v :
  cache db !! k = Some v →
  cache (initData_range assetMrn datapoints db).2 !! k = Some v.
Proof.
  revert db. induction datapoints as [|[c info] rest IH]; intros db Hk; [done|].
  simpl. unfold bind, try.
  pose proof (initDataValue_keeps assetMrn c (dq_Type info) db k v Hk) as H1.
  destruct (initDataValue assetMrn c (dq_Type info) db) as [[[]|e| |] db1]; simpl in *;
    try done.
  by apply IH.
Qed.

(** After a run of [initData_range] that returned, every datapoint has a
    slot, and the slots that were missing hold [nil]. *)
Lemma initData_range_fills assetMrn datapoints db db' c info :
  initData_range assetMrn datapoints db = (Ok tt, db') →
  (c, info) ∈ datapoints →
  cache db !! dkey assetMrn c = None →
  cache db' !! dkey assetMrn c = Some (IData None).
Proof.
  revert db. induction datapoints as [|[c0 info0] rest IH]; intros db Hrun Hin Hnone.
  - by apply elem_of_nil in Hin.
  - simpl in Hrun. unfold bind, try in Hrun. rewrite initDataValue_eq in Hrun.
    destruct (decide (c0 = c)) as [->|Hne].
    + rewrite Hnone in Hrun.
      destruct (cache_Set_cases (dkey assetMrn c) (IData None) 1 db)
        as [(db1 & E & _)|E]; rewrite E in Hrun; simpl in Hrun; [done|].
      pose proof (initData_range_keeps assetMrn rest
                    (stored (dkey assetMrn c) (IData None) db) _ _
                    (stored_lookup _ _ _)) as Hk.
      by rewrite Hrun in Hk.
    + apply elem_of_cons in Hin as [Heq|Hin]; [congruence|].
      destruct (cache db !! dkey assetMrn c0) eqn:E0; simpl in Hrun.
      { by eapply IH. }
      destruct (cache_Set_cases (dkey assetMrn c0) (IData None) 1 db)
        as [(db1 & E & _)|E]; rewrite E in Hrun; simpl in Hrun; [done|].
      eapply IH; [exact Hrun|exact Hin|].
      unfold stored; simpl. rewrite lookup_insert_ne; [done|].
      intros Hk. by apply dkey_inj in Hk.
Qed.

(** [initData_range] returns when every write is admitted. *)
Lemma initData_range_total assetMrn datapoints db :
  admits_all db →
  ∃ db', initData_range assetMrn datapoints db = (Ok tt, db') ∧ admits_all db'.
Proof.
  revert db. induction datapoints as [|[c info] rest IH]; intros db Hadm.
  - by exists db.
  - simpl. unfold bind, try. rewrite initDataValue_eq.
    destruct (cache db !! dkey assetMrn c); simpl.
    + by apply IH.
    + rewrite cache_Set_admitted by by apply admits_all_next.
      simpl. apply IH. by apply admits_all_stored.
Qed.

Lemma initEmptyScore_eq assetMrn qrid db :
  initEmptyScore assetMrn qrid db =
  match cache_Set (skey assetMrn qrid) (IScore Score_zero) 1 db with
  | (Ok true, db') => (Ok tt, db')
  | (Ok false, db') =>
      (Err (errors_New ("failed to initialize score for asset '" +:+ assetMrn
                        +:+ "' with qrID '" +:+ qrid +:+ "'")), db')
  | (Err e, db') => (Err e, db')
  | (Panic, db') => (Panic, db')
  | (Diverge, db') => (Diverge, db')
  end.
Proof.
  unfold initEmptyScore, bind. fold (skey assetMrn qrid).
  by destruct (cache_Set _ _ _ _) as [[[]| | |] ?].
Qed.

(** [initScores_range] writes score slots of the asset only, and what it
    writes is the empty score. *)
Lemma initScores_range_other assetMrn jobs db k :
  (∀ q, k ≠ skey assetMrn q) →
  cache (initScores_range assetMrn jobs db).2 !! k = cache db !! k.
Proof.
  intros Hk. revert db. induction jobs as [|[uuid job] rest IH]; intros db; [done|].
  simpl. unfold bind, try. rewrite initEmptyScore_eq.
  destruct (cache_Set_cases (skey assetMrn (job_qrid assetMrn job)) (IScore Score_zero) 1 db)
    as [(db1 & -> & Hc)| ->]; simpl.
  - by rewrite Hc.
  - rewrite IH. unfold stored; simpl. by rewrite lookup_insert_ne.
Qed.

Lemma initScores_range_zero assetMrn jobs db q :
  cache db !! skey assetMrn q = Some (IScore Score_zero) →
  cache (initScores_range assetMrn jobs db).2 !! skey assetMrn q = Some (IScore Score_zero).
Proof.
  revert db. induction jobs as [|[uuid job] rest IH]; intros db Hq; [done|].
  simpl. unfold bind, try. rewrite initEmptyScore_eq.
  destruct (cache_Set_cases (skey assetMrn (job_qrid assetMrn job)) (IScore Score_zero) 1 db)
    as [(db1 & -> & Hc)| ->]; simpl.
  - by rewrite Hc.
  - apply IH. unfold stored; simpl.
    destruct (decide (skey assetMrn (job_qrid assetMrn job) = skey assetMrn q)) as [->|Hne].
    + apply lookup_insert_eq.
    + by rewrite lookup_insert_ne.
Qed.

Lemma initScores_range_resets assetMrn jobs db db' uuid job :
  initScores_range assetMrn jobs db = (Ok tt, db') →
  (uuid, job) ∈ jobs →
  cache db' !! skey assetMrn (job_qrid assetMrn job) = Some (IScore Score_zero).
Proof.
  revert db. induction jobs as [|[uuid0 job0] rest IH]; intros db Hrun Hin.
  - by apply elem_of_nil in Hin.
  - simpl in Hrun. unfold bind, try in Hrun. rewrite initEmptyScore_eq in Hrun.
    destruct (cache_Set_cases (skey assetMrn (job_qrid assetMrn job0)) (IScore Score_zero) 1 db)
      as [(db1 & E & _)|E]; rewrite E in Hrun; simpl in Hrun; [done|].
    apply elem_of_cons in Hin as [Heq|Hin].
    + simplify_eq.
      pose proof (initScores_range_zero assetMrn rest
                    (stored (skey assetMrn (job_qrid assetMrn job0)) (IScore Score_zero) db)
                    _ (stored_lookup _ _ _)) as Hk.
      by rewrite Hrun in Hk.
    + by eapply IH.
Qed.

Lemma initScores_range_total assetMrn jobs db :
  admits_all db →
  ∃ db', initScores_range assetMrn jobs db = (Ok tt, db') ∧ admits_all db'.
Proof.
  revert db. induction jobs as [|[uuid job] rest IH]; intros db Hadm.
  - by exists db.
  - simpl. unfold bind, try. rewrite initEmptyScore_eq.
    rewrite cache_Set_admitted by by apply admits_all_next.
    simpl. apply IH. by apply admits_all_stored.
Qed.

Lemma already_cached_false assetw resolvedPolicy version :
  (∀ old, wa_ResolvedPolicy assetw = Some old →
     rp_GraphExecutionChecksum old ≠ rp_GraphExecutionChecksum resolvedPolicy
     ∨ resolvedPolicyVersion assetw ≠ version) →
  already_cached assetw resolvedPolicy version = false.
Proof.
  intros H. unfold already_cached. destruct (wa_ResolvedPolicy assetw) as [old|]; [|done].
  destruct (H old eq_refl) as [Hne|Hne].
  - by rewrite (bool_decide_eq_false_2 _ Hne).
  - rewrite (bool_decide_eq_false_2 _ Hne). apply andb_false_r.
Qed.

(** [SetAssetResolvedPolicy] past its early return: the two loops and the
    final write. *)
Lemma SetAssetResolvedPolicy_eq assetMrn resolvedPolicy version assetw collectorJob db :
  cache db !! akey assetMrn = Some (IAsset assetw) →
  already_cached assetw resolvedPolicy version = false →
  rp_CollectorJob resolvedPolicy = Some collectorJob →
  SetAssetResolvedPolicy assetMrn resolvedPolicy version db =
  (do _ <- initData_range assetMrn (Datapoints collectorJob);
   do _ <- initScores_range assetMrn (ReportingJobs collectorJob);
   do ok <- cache_Set (akey assetMrn)
              (IAsset {| wa_mrn := wa_mrn assetw;
                         wa_ResolvedPolicy := Some resolvedPolicy;
                         resolvedPolicyVersion := version |}) 1;
   if ok then ret tt
   else throw (errors_New ("failed to save resolved policy for asset '"
                           +:+ assetMrn +:+ "'"))) db.
Proof.
  intros Hasset Hcached Hcj.
  unfold SetAssetResolvedPolicy. unfold bind at 1. unfold cache_Get.
  fold (akey assetMrn). rewrite Hasset. simpl. by rewrite Hcached, Hcj.
Qed.

(** C10.  Take an asset whose stored resolved policy is missing or differs
    from the incoming one in [GraphExecutionChecksum] or in the version.
    When [SetAssetResolvedPolicy] returns without error, the score slot of
    every reporting job (at the asset's MRN for the job ["root"], at the
    job's [QrId] otherwise) holds the empty score [Score{}], of type
    Unknown, whatever it held before; every data slot that held something
    holds the same; and the data slots of the datapoints that were missing
    hold [nil].  The call does return when the cache admits every write. *)
Theorem resolved_policy_reset assetMrn resolvedPolicy version assetw collectorJob db :
  cache db !! akey assetMrn = Some (IAsset assetw) →
  (∀ old, wa_ResolvedPolicy assetw = Some old →
     rp_GraphExecutionChecksum old ≠ rp_GraphExecutionChecksum resolvedPolicy
     ∨ resolvedPolicyVersion assetw ≠ version) →
  rp_CollectorJob resolvedPolicy = Some collectorJob →
  (∀ db', SetAssetResolvedPolicy assetMrn resolvedPolicy version db = (Ok tt, db') →
     (∀ uuid job, (uuid, job) ∈ ReportingJobs collectorJob →
        cache db' !! skey assetMrn (job_qrid assetMrn job) = Some (IScore Score_zero))
     ∧ Type_ Score_zero = ScoreType_Unknown
     ∧ (∀ a c v, cache db !! dkey a c = Some v → cache db' !! dkey a c = Some v)
     ∧ (∀ c info, (c, info) ∈ Datapoints collectorJob →
          cache db !! dkey assetMrn c = None →
          cache db' !! dkey assetMrn c = Some (IData None)))
  ∧ (admits_all db →
     ∃ db', SetAssetResolvedPolicy assetMrn resolvedPolicy version db = (Ok tt, db')).
Proof.
  intros Hasset Hdiff Hcj.
  apply already_cached_false in Hdiff.
  rewrite (SetAssetResolvedPolicy_eq _ _ _ _ _ _ Hasset Hdiff Hcj).
  split.
  - intros db' Hrun. unfold bind in Hrun.
    destruct (initData_range assetMrn (Datapoints collectorJob) db)
      as [[[]| | |] db1] eqn:Hd; try done.
    destruct (initScores_range assetMrn (ReportingJobs collectorJob) db1)
      as [[[]| | |] db2] eqn:Hs; try done.
    match type of Hrun with context [cache_Set ?k ?v ?c db2] =>
      destruct (cache_Set_cases k v c db2) as [(db3 & E & _)|E]; rewrite E in Hrun end;
      [done|].
    unfold ret in Hrun. simplify_eq.
    assert (Hdata : ∀ a c v, cache db1 !! dkey a c = Some v →
              cache (stored (akey assetMrn)
                       (IAsset {| wa_mrn := wa_mrn assetw;
                                  wa_ResolvedPolicy := Some resolvedPolicy;
                                  resolvedPolicyVersion := version |}) db2) !! dkey a c
              = Some v).
    { intros a c v Hv. unfold stored; simpl.
      rewrite lookup_insert_ne by apply akey_dkey.
      pose proof (initScores_range_other assetMrn (ReportingJobs collectorJob) db1
                    (dkey a c)) as Ho.
      rewrite Hs in Ho. simpl in Ho. rewrite Ho; [done|].
      intros q Hq. symmetry in Hq. by apply skey_dkey in Hq. }
    split; [|split; [done|split]].
    + intros uuid job Hin. unfold stored; simpl.
      rewrite lookup_insert_ne by apply akey_skey.
      by eapply initScores_range_resets.
    + intros a c v Hv. apply Hdata.
      pose proof (initData_range_keeps assetMrn (Datapoints collectorJob) db _ _ Hv) as Hk.
      by rewrite Hd in Hk.
    + intros c info Hin Hnone. apply Hdata.
      by eapply initData_range_fills.
  - intros Hadm. unfold bind.
    destruct (initData_range_total assetMrn (Datapoints collectorJob) db Hadm)
      as (db1 & -> & Hadm1).
    destruct (initScores_range_total assetMrn (ReportingJobs collectorJob) db1 Hadm1)
      as (db2 & -> & Hadm2).
    rewrite cache_Set_admitted by by apply admits_all_next.
    by eexists.
Qed.

Lemma resolved_policy_reset_witness :
  cache db_a1 !! akey "a1" = Some (IAsset asset_a1)
  ∧ cache db_a1 !! skey "a1" "c1" = Some (IScore score_failing_stored)
  ∧ cache db_a1 !! dkey "a1" "dp1" = Some (IData (Some result_dp1))
  ∧ cache db_a1 !! dkey "a1" "dp2" = None
  ∧ ∃ db', SetAssetResolvedPolicy "a1" resolved_a1 "v2" db_a1 = (Ok tt, db')
      ∧ cache db' !! skey "a1" "c1" = Some (IScore Score_zero)
      ∧ cache db' !! skey "a1" "a1" = Some (IScore Score_zero)
      ∧ cache db' !! dkey "a1" "dp1" = Some (IData (Some result_dp1))
      ∧ cache db' !! dkey "a1" "dp2" = Some (IData None).
Proof.
  split; [reflexivity|]. split; [reflexivity|]. split; [reflexivity|].
  split; [reflexivity|].
  destruct (resolved_policy_reset "a1" resolved_a1 "v2" asset_a1 collector_a1 db_a1)
    as [Hpost Htotal]; [reflexivity|discriminate|reflexivity|].
  destruct Htotal as [db' Hrun]; [constructor|].
  destruct (Hpost db' Hrun) as (Hscores & _ & Hkeep & Hfill).
  exists db'. split; [exact Hrun|].
  split; [apply (Hscores "uuid-c1" {| rj_QrId := "c1" |}); by repeat constructor|].
  split; [apply (Hscores "uuid-root" {| rj_QrId := "root" |}); by repeat constructor|].
  split; [by apply Hkeep|].
  apply (Hfill "dp2" {| dq_Type := "i"; Notify := ["uuid-c1"] |});
    [by repeat constructor|reflexivity].
Defined.

(** ** Data *)

Lemma setDatum_eq assetMrn checksum value db :
  setDatum assetMrn checksum value db =
  match cache_Set (dkey assetMrn checksum) (IData (Some value)) 1 db with
  | (Ok true, db') => (Ok tt, db')
  | (Ok false, db') =>
      (Err (errors_New ("failed to save asset data for asset '" +:+ assetMrn
                        +:+ "' and checksum '" +:+ checksum +:+ "'")), db')
  | (Err e, db') => (Err e, db')
  | (Panic, db') => (Panic, db')
  | (Diverge, db') => (Diverge, db')
  end.
Proof.
  unfold setDatum, bind. fold (dkey assetMrn checksum).
  by destruct (cache_Set _ _ _ _) as [[[]| | |] ?].
Qed.

Lemma GetCollectorJob_found assetMrn assetw resolvedPolicy collectorJob db :
  cache db !! akey assetMrn = Some (IAsset assetw) →
  wa_ResolvedPolicy assetw = Some resolvedPolicy →
  rp_CollectorJob resolvedPolicy = Some collectorJob →
  GetCollectorJob assetMrn db = (Ok collectorJob, db).
Proof.
  intros Ha Hrp Hcj. unfold GetCollectorJob, bind, cache_Get.
  fold (akey assetMrn). rewrite Ha. simpl. by rewrite Hrp, Hcj.
Qed.

Section UpdateData_facts.

Variable Unset : string.
Variable Label : string → string.

(** The input is well formed for the catalog: every checksum is in it and
    no value is a nil pointer. *)
Definition in_catalog (collectorJob : CollectorJob) (data : list (string * option Result)) : Prop :=
  ∀ c v, (c, v) ∈ data →
    is_Some (lookup_assoc (Datapoints collectorJob) c) ∧ is_Some v.

Lemma in_catalog_cons collectorJob c v data :
  in_catalog collectorJob ((c, v) :: data) →
  (∃ info val, lookup_assoc (Datapoints collectorJob) c = Some info ∧ v = Some val)
  ∧ in_catalog collectorJob data.
Proof.
  intros H. split.
  - destruct (H c v) as [[info ?] [val ?]]; [left|]. eauto.
  - intros c' v' Hin. apply H. by right.
Qed.

Lemma is_type_mismatch_type_error c val info :
  is_type_mismatch (type_error Label c val info) = true.
Proof. reflexivity. Qed.

(** The loop of [UpdateData] on a well-formed input, whatever the cache
    admits: it runs to its end, the errors it adds hold the type errors of
    the rejected entries in order, and no slot changes but those of the
    entries that pass the type test. *)
Lemma UpdateData_range_spec assetMrn collectorJob data :
  in_catalog collectorJob data →
  ∀ res errList db,
  ∃ res' errs db',
    UpdateData_range Unset Label assetMrn collectorJob data res errList db
    = (Ok (res', errList ++ errs), db')
    ∧ filter (λ e, is_type_mismatch e) errs
      = map (entry_error Label collectorJob) (filter (λ e, rejects Unset collectorJob e) data)
    ∧ (∀ k, (∀ c v, (c, v) ∈ data → rejects Unset collectorJob (c, v) = false →
               k ≠ dkey assetMrn c) →
            cache db' !! k = cache db !! k)
    ∧ (admits_all db →
       errs = map (entry_error Label collectorJob)
                (filter (λ e, rejects Unset collectorJob e) data)
       ∧ admits_all db').
Proof.
  induction data as [|[c v] rest IH]; intros Hwf res errList db.
  - exists res, [], db. simpl. by rewrite app_nil_r.
  - apply in_catalog_cons in Hwf as [(info & val & Hinfo & ->) Hwf].
    specialize (IH Hwf). cbn [UpdateData_range]. rewrite Hinfo.
    destruct (types_dont_match Unset val info) eqn:Hrej.
    + destruct (IH res (multierror_Append errList (type_error Label c val info)) db)
        as (res' & errs & db' & Hrun & Hfilter & Hframe & Hadm).
      exists res', (type_error Label c val info :: errs), db'.
      split; [|split; [|split]].
      * rewrite Hrun. simpl. by rewrite <- app_assoc.
      * rewrite (filter_cons_True _ (c, Some val)) by (unfold rejects; simpl; by rewrite Hinfo, Hrej).
        rewrite filter_cons_True by done.
        simpl. rewrite Hfilter. f_equal. unfold entry_error. simpl. by rewrite Hinfo.
      * intros k Hk. apply Hframe. intros c' v' Hin. apply Hk. by right.
      * intros Ha. destruct (Hadm Ha) as [-> ?]. split; [|done].
        rewrite (filter_cons_True _ (c, Some val)) by (unfold rejects; simpl; by rewrite Hinfo, Hrej).
        simpl. f_equal. unfold entry_error. simpl. by rewrite Hinfo.
    + assert (Hrej' : ¬ rejects Unset collectorJob (c, Some val)).
      { unfold rejects. simpl. rewrite Hinfo, Hrej. by intros []. }
      unfold bind, try. rewrite setDatum_eq.
      destruct (cache_Set_cases (dkey assetMrn c) (IData (Some val)) 1 db)
        as [(db1 & E & Hc)|E]; rewrite E.
      * match goal with |- context [multierror_Append errList ?e] =>
          destruct (IH res (multierror_Append errList e) db1)
            as (res' & errs & db' & Hrun & Hfilter & Hframe & Hadm);
          exists res', (e :: errs), db' end.
        split; [|split; [|split]].
        -- cbn beta iota. rewrite Hrun. simpl. by rewrite <- app_assoc.
        -- rewrite (filter_cons_False _ (c, Some val)) by done.
           rewrite filter_cons_False by (simpl; by intros []). done.
        -- intros k Hk. rewrite Hframe, Hc; [done|].
           intros c' v' Hin. apply Hk. by right.
        -- intros Ha. exfalso. by eapply cache_Set_refused.
      * destruct (IH (<[c := dq_Type info]> res) errList
                    (stored (dkey assetMrn c) (IData (Some val)) db))
          as (res' & errs & db' & Hrun & Hfilter & Hframe & Hadm).
        exists res', errs, db'. split; [|split; [|split]].
        -- exact Hrun.
        -- by rewrite (filter_cons_False _ (c, Some val)) by done.
        -- intros k Hk. rewrite Hframe.
           ++ unfold stored; simpl. rewrite lookup_insert_ne; [done|].
              apply not_eq_sym, (Hk c (Some val)); [left|].
              unfold rejects. simpl. by rewrite Hinfo.
           ++ intros c' v' Hin. apply Hk. by right.
        -- intros Ha. rewrite (filter_cons_False _ (c, Some val)) by done.
           apply Hadm. by apply admits_all_stored.
Qed.

(** With every write admitted, the entries that pass the type test are
    stored. *)
Lemma UpdateData_range_stores assetMrn collectorJob data :
  in_catalog collectorJob data →
  NoDup data.*1 →
  ∀ res errList db res' errs' db',
    admits_all db →
    UpdateData_range Unset Label assetMrn collectorJob data res errList db
    = (Ok (res', errs'), db') →
    ∀ c val, (c, Some val) ∈ data → rejects Unset collectorJob (c, Some val) = false →
      cache db' !! dkey assetMrn c = Some (IData (Some val)).
Proof.
  induction data as [|[c v] rest IH];
    intros Hwf Hnd res errList db res' errs' db' Ha Hrun c0 val0 Hin Hacc.
  - by apply elem_of_nil in Hin.
  - pose proof Hwf as Hwf0.
    apply in_catalog_cons in Hwf as [(info & val & Hinfo & ->) Hwf].
    simpl in Hnd. apply NoDup_cons in Hnd as [Hfresh Hnd].
    simpl in Hrun. rewrite Hinfo in Hrun.
    apply elem_of_cons in Hin as [Heq|Hin].
    + simplify_eq. unfold rejects in Hacc. simpl in Hacc. rewrite Hinfo in Hacc.
      rewrite Hacc in Hrun. unfold bind, try in Hrun. rewrite setDatum_eq in Hrun.
      rewrite cache_Set_admitted in Hrun by by apply admits_all_next.
      destruct (UpdateData_range_spec assetMrn collectorJob rest Hwf
                  (<[c := dq_Type info]> res) errList
                  (stored (dkey assetMrn c) (IData (Some val)) db))
        as (r & e & d & Hrun' & _ & Hframe & _).
      rewrite Hrun in Hrun'. simplify_eq.
      rewrite Hframe; [apply stored_lookup|].
      intros c' v' Hin' _ Hk. apply dkey_inj in Hk. subst c'.
      apply Hfresh. apply list_elem_of_fmap. by exists (c, v').
    + destruct (types_dont_match Unset val info).
      { by eapply IH. }
      unfold bind, try in Hrun. rewrite setDatum_eq in Hrun.
      rewrite cache_Set_admitted in Hrun by by apply admits_all_next.
      eapply IH; [done|done| |exact Hrun|done|done].
      by apply admits_all_stored.
Qed.

(** C5.  Take an asset with a collector job and an input whose checksums
    are all in its datapoint catalog (and whose values are not nil).
    [UpdateData] runs through the whole input.  The slot of every entry
    that the type test rejects is left as it was.  If there is such an
    entry, [UpdateData] returns an aggregate error that holds, in order, one
    type-mismatch error for each rejected entry.  When the cache admits
    every write, the entries that pass the test are stored, and the
    aggregate holds the type-mismatch errors and nothing else; with no
    rejected entry, [UpdateData] returns no error. *)
Theorem UpdateData_type_mismatch assetMrn assetw resolvedPolicy collectorJob data db :
  cache db !! akey assetMrn = Some (IAsset assetw) →
  wa_ResolvedPolicy assetw = Some resolvedPolicy →
  rp_CollectorJob resolvedPolicy = Some collectorJob →
  in_catalog collectorJob data →
  NoDup data.*1 →
  let rejected := filter (λ e, rejects Unset collectorJob e) data in
  ∃ outcome db',
    UpdateData Unset Label assetMrn data db = (outcome, db')
    ∧ (∀ c v, (c, v) ∈ rejected →
         cache db' !! dkey assetMrn c = cache db !! dkey assetMrn c)
    ∧ (rejected ≠ [] →
       ∃ errs, outcome = Err (multierror errs)
               ∧ filter (λ e, is_type_mismatch e) errs
                 = map (entry_error Label collectorJob) rejected)
    ∧ (admits_all db →
       (∀ c val, (c, Some val) ∈ data →
          rejects Unset collectorJob (c, Some val) = false →
          cache db' !! dkey assetMrn c = Some (IData (Some val)))
       ∧ (rejected ≠ [] →
          outcome = Err (multierror (map (entry_error Label collectorJob) rejected)))
       ∧ (rejected = [] → ∃ res, outcome = Ok res)).
Proof.
  intros Ha Hrp Hcj Hwf Hnd rejected.
  unfold UpdateData. unfold bind at 1. unfold try.
  rewrite (GetCollectorJob_found _ _ _ _ _ Ha Hrp Hcj).
  destruct (UpdateData_range_spec assetMrn collectorJob data Hwf ∅ [] db)
    as (res' & errs & db' & Hrun & Hfilter & Hframe & Hadm).
  simpl in Hrun. unfold bind. rewrite Hrun.
  fold rejected in Hfilter, Hadm.
  exists (match errs with [] => Ok res' | _ => Err (multierror errs) end), db'.
  split; [by destruct errs|]. split; [|split].
  - intros c v Hin. apply list_elem_of_filter in Hin as [Hrej Hin].
    apply Hframe. intros c' v' Hin' Hacc Hk. apply dkey_inj in Hk. subst c'.
    rewrite (NoDup_keys_functional data c v v' Hnd Hin Hin') in Hrej.
    rewrite Hacc in Hrej. by destruct Hrej.
  - intros Hne. exists errs. split; [|done].
    destruct errs as [|e errs]; [|done].
    simpl in Hfilter. symmetry in Hfilter. apply fmap_nil_inv in Hfilter. done.
  - intros Hall. destruct (Hadm Hall) as [-> Hall']. split; [|split].
    + intros c val Hin Hacc.
      eapply UpdateData_range_stores;
        [exact Hwf|exact Hnd|exact Hall|exact Hrun|exact Hin|exact Hacc].
    + intros Hne. destruct (map (entry_error Label collectorJob) rejected) eqn:E; [|done].
      by apply fmap_nil_inv in E.
    + intros ->. simpl. by eexists.
Qed.

End UpdateData_facts.

Lemma UpdateData_type_mismatch_witness :
  cache db_a1_resolved !! akey "a1" = Some (IAsset asset_a1_resolved)
  ∧ rejects nul collector_a1 ("dp2", Some result_dp2_wrong) = true
  ∧ rejects nul collector_a1 ("dp1", Some result_dp1) = false
  ∧ ∃ db',
      UpdateData nul (λ s, s) "a1" data_a1 db_a1_resolved
      = (Err (multierror [fmt_Errorf_w "dp2" errTypesDontMatch "i" "s"]), db')
      ∧ cache db' !! dkey "a1" "dp2" = Some (IData None)
      ∧ cache db' !! dkey "a1" "dp1" = Some (IData (Some result_dp1)).
Proof.
  split; [reflexivity|]. split; [reflexivity|]. split; [reflexivity|].
  destruct (UpdateData_type_mismatch nul (λ s, s) "a1" asset_a1_resolved resolved_a1
              collector_a1 data_a1 db_a1_resolved)
    as (outcome & db' & Hrun & Hrej & _ & Hadm);
    [reflexivity|reflexivity|reflexivity| | |].
  - intros c v Hin. unfold data_a1 in Hin.
    apply elem_of_cons in Hin as [Heq|Hin]; [injection Heq as -> ->; split; by eexists|].
    apply elem_of_cons in Hin as [Heq|Hin]; [injection Heq as -> ->; split; by eexists|].
    by apply elem_of_nil in Hin.
  - simpl. apply NoDup_cons. split.
    + intros Hin. apply elem_of_cons in Hin as [Heq|Hin]; [discriminate|].
      by apply elem_of_nil in Hin.
    + apply NoDup_cons. split; [apply not_elem_of_nil|apply NoDup_nil_2].
  - destruct Hadm as (Hstored & Herr & _); [constructor|].
    exists db'. split; [|split].
    + rewrite Hrun. f_equal. apply Herr. discriminate.
    + rewrite (Hrej "dp2" (Some result_dp2_wrong)); [reflexivity|by left].
    + apply Hstored; [by right; left|reflexivity].
Defined.

(** ** Properties of an entity *)

(** Two datalakes that differ at most in their property objects: the cache,
    the record of writes and the other heaps are the same. *)
Definition props_only (db db' : Db) : Prop :=
  cache db' = cache db ∧ writes db' = writes db ∧ admission db' = admission db
  ∧ maps db' = maps db ∧ policies db' = policies db.

Lemma props_only_refl db : props_only db db.
Proof. by repeat split. Qed.

Lemma props_only_trans db1 db2 db3 :
  props_only db1 db2 → props_only db2 db3 → props_only db1 db3.
Proof. unfold props_only. intros (?&?&?&?&?) (?&?&?&?&?). repeat split; congruence. Qed.

Lemma load_property_state l db : (load_property l db).2 = db.
Proof. unfold load_property. by destruct (properties db !! l). Qed.

Lemma store_Mql_props_only l mql db : props_only db (store_Mql l mql db).2.
Proof. unfold store_Mql. destruct (properties db !! l); by repeat split. Qed.

Lemma ensurePolicy_found mrn db :
  (ensurePolicy mrn false db).2 = db.
Proof.
  unfold ensurePolicy, bind, cache_Get.
  by destruct (cache db !! (dbIDPolicy +:+ mrn)) as [[?|?|?|?]|].
Qed.

Lemma SetProps_index_state props propsIdx db : (SetProps_index props propsIdx db).2 = db.
Proof.
  revert propsIdx. induction props as [|l rest IH]; intros propsIdx; [done|].
  simpl. unfold bind. pose proof (load_property_state l db) as Hl.
  destruct (load_property l db) as [[cur| | |] db1]; simpl in Hl; subst;
    first [done|apply IH].
Qed.

Lemma SetProps_range_props_only props policyw propsIdx db :
  props_only db (SetProps_range props policyw propsIdx db).2.
Proof.
  revert policyw propsIdx db. induction props as [|l rest IH]; intros policyw propsIdx db.
  - apply props_only_refl.
  - simpl. unfold bind. pose proof (load_property_state l db) as Hl.
    destruct (load_property l db) as [[cur| | |] db1]; simpl in Hl; subst;
      try apply props_only_refl.
    case_decide; [apply props_only_refl|].
    destruct (propsIdx !! _) as [x|]; [|apply IH].
    pose proof (store_Mql_props_only x (prop_Mql cur) db) as Hs.
    destruct (store_Mql x (prop_Mql cur) db) as [[[]| | |] db1]; simpl in Hs; try done.
    eapply props_only_trans; [exact Hs|apply IH].
Qed.

(** [SetProps] makes no [cache.Set] call, however it ends. *)
Lemma SetProps_props_only req db : props_only db (SetProps req db).2.
Proof.
  unfold SetProps, bind.
  pose proof (ensurePolicy_found (req_EntityMrn req) db) as He.
  destruct (ensurePolicy (req_EntityMrn req) false db) as [[policyw| | |] db1];
    simpl in He; subst; try apply props_only_refl.
  pose proof (SetProps_index_state (Props policyw) ∅ db) as Hi.
  destruct (SetProps_index (Props policyw) ∅ db) as [[propsIdx| | |] db1];
    simpl in Hi; subst; try apply props_only_refl.
  pose proof (SetProps_range_props_only (req_Props req) policyw propsIdx db) as Hr.
  by destruct (SetProps_range (req_Props req) policyw propsIdx db) as [[?| | |] db1].
Qed.

(** C9.  A [SetProps] call that returns without error for an entity policy
    has made no [cache.Set] call: the record of writes and the whole cache
    are as before, so the slot of the entity still holds the wrapper it
    held, with the list of properties it had. *)
Theorem SetProps_does_not_persist req db db' :
  SetProps req db = (Ok tt, db') →
  writes db' = writes db
  ∧ cache db' = cache db
  ∧ cache db' !! pkey (req_EntityMrn req) = cache db !! pkey (req_EntityMrn req).
Proof.
  intros Hrun. pose proof (SetProps_props_only req db) as (Hc & Hw & _).
  rewrite Hrun in Hc, Hw. simpl in Hc, Hw. by rewrite Hc.
Qed.

Lemma SetProps_does_not_persist_witness :
  ∃ db',
    SetProps {| req_EntityMrn := "a1"; req_Props := [7%nat] |} db_policies = (Ok tt, db')
    ∧ writes db' = writes db_policies
    ∧ cache db' = cache db_policies
    ∧ cache db' !! pkey "a1" = Some (IPolicy (wrap 0 0 1))
    ∧ Props (wrap 0 0 1) = [].
Proof.
  eexists. split; [reflexivity|].
  destruct (SetProps_does_not_persist
              {| req_EntityMrn := "a1"; req_Props := [7%nat] |} db_policies _ eq_refl)
    as (Hw & Hc & Hk).
  split; [exact Hw|]. split; [exact Hc|]. split; [|reflexivity].
  exact (eq_trans Hk eq_refl).
Defined.

(** ** Mutating a policy *)

Lemma index_of_fold refs m (acc : gmap string PolicyRef) :
  is_Some (acc !! m) ∨ m ∈ map ref_Mrn refs →
  is_Some (foldl (λ idx cur, <[ref_Mrn cur := cur]> idx) acc refs !! m).
Proof.
  revert acc. induction refs as [|r refs IH]; intros acc [H|H]; simpl.
  - done.
  - by apply elem_of_nil in H.
  - apply IH. left. destruct (decide (ref_Mrn r = m)) as [->|Hne].
    + rewrite lookup_insert_eq. by eexists.
    + by rewrite lookup_insert_ne.
  - simpl in H. apply elem_of_cons in H as [->|H].
    + apply IH. left. rewrite lookup_insert_eq. by eexists.
    + apply IH. by right.
Qed.

Lemma index_of_listed group m :
  m ∈ map ref_Mrn (Policies group) → is_Some (index_of group !! m).
Proof. intros H. apply index_of_fold. by right. Qed.

Lemma ensurePolicy_stored mrn createIfMissing policyw db :
  cache db !! pkey mrn = Some (IPolicy policyw) →
  ensurePolicy mrn createIfMissing db = (Ok policyw, db).
Proof.
  intros H. unfold ensurePolicy, bind, cache_Get. fold (pkey mrn). by rewrite H.
Qed.

Lemma load_policy_found l p db :
  policies db !! l = Some p → load_policy l db = (Ok p, db).
Proof. intros H. unfold load_policy. by rewrite H. Qed.

(** The loop of [MutatePolicy] over deltas that only add what the index
    already lists: every turn takes the [continue]. *)
Lemma MutatePolicy_range_present targetMRN policyw deltas idx changed db :
  (∀ mrn d, (mrn, d) ∈ deltas → Action d = PolicyDelta_ADD ∧ is_Some (idx !! mrn)) →
  MutatePolicy_range targetMRN policyw deltas idx changed db = (Ok (idx, changed), db).
Proof.
  induction deltas as [|[mrn d] rest IH]; intros Hall; [done|].
  destruct (Hall mrn d) as [Hadd [ref Href]]; [left|].
  simpl. rewrite Hadd, Href. apply IH. intros mrn' d' Hin. apply Hall. by right.
Qed.

Section Mutate_facts.

Variable ComputeAssetFilters : Db → Policy → list Mquery + error.
Variable UpdateChecksums : Db → nat → gmap nat Checksums + error.

(** C7.  When the target policy is stored and the deltas are all ADD
    actions for policies that its first group already lists, [MutatePolicy]
    returns the target's policy without error and leaves the datalake
    exactly as it was: no parents or children map has changed, no policy
    object (so no checksum) has changed, and no [cache.Set] was made. *)
Theorem MutatePolicy_ADD_idempotent sched mutation createIfMissing policyw p group groups db :
  cache db !! pkey (PolicyMrn mutation) = Some (IPolicy policyw) →
  policies db !! wp_Policy policyw = Some p →
  Groups p = group :: groups →
  (∀ mrn d, (mrn, d) ∈ PolicyDeltas mutation →
     Action d = PolicyDelta_ADD ∧ mrn ∈ map ref_Mrn (Policies group)) →
  MutatePolicy ComputeAssetFilters UpdateChecksums sched mutation createIfMissing db
  = (Ok (wp_Policy policyw), db).
Proof.
  intros Hw Hp Hg Hall. unfold MutatePolicy, bind.
  rewrite (ensurePolicy_stored _ _ _ _ Hw), (load_policy_found _ _ _ Hp), Hg.
  fold (index_of group).
  rewrite MutatePolicy_range_present; [done|].
  intros mrn d Hin. destruct (Hall mrn d Hin) as [? ?].
  split; [done|]. by apply index_of_listed.
Qed.

End Mutate_facts.

Lemma MutatePolicy_ADD_idempotent_witness :
  cache db_policies !! pkey "a1" = Some (IPolicy (wrap 0 0 1))
  ∧ policies db_policies !! 0%nat = Some (policy_obj "a1" ["pA"])
  ∧ MutatePolicy no_filters no_checksums [] assign_pA_again false db_policies
    = (Ok 0%nat, db_policies).
Proof.
  split; [reflexivity|]. split; [reflexivity|].
  apply (MutatePolicy_ADD_idempotent no_filters no_checksums [] assign_pA_again false
           (wrap 0 0 1) (policy_obj "a1" ["pA"])
           {| Policies := [ {| ref_Mrn := "pA" |} ] |} [] db_policies);
    [reflexivity|reflexivity|reflexivity|].
  intros mrn d Hin. apply elem_of_cons in Hin as [Heq|Hin].
  - injection Heq as -> ->. split; [reflexivity|by left].
  - by apply elem_of_nil in Hin.
Defined.

(** * More properties of the datalake *)

(** ** Scores *)

Lemma stamp_set_times found org score now :
  ∃ vmt ft, stamp found org score now = set_times score vmt ft.
Proof. unfold stamp. repeat case_match; eauto. Qed.

Lemma same_result_set_times score vmt ft : same_result (set_times score vmt ft) score.
Proof. by repeat split. Qed.

(** X1.  A score that is already stored and whose update is not a first
    persistence nor a change of value of a result keeps its two times: when
    the incoming score differs from the stored one in one of the six compared
    fields and either is not of type Result, or has the stored value while
    the stored [ScoreCompletion] is not 0, [updateScore] stores the incoming
    score with the [ValueModifiedTime] and [FailureTime] of the stored one. *)
Theorem updateScore_carries_times assetMrn score now org db :
  cache db !! skey assetMrn (QrId score) = Some (IScore org) →
  ¬ same_result org score →
  Type_ score ≠ ScoreType_Result
  ∨ (Value score = Value org ∧ ScoreCompletion org ≠ 0) →
  admits_next db →
  ∃ db',
    updateScore assetMrn score now db = (Ok true, db')
    ∧ cache db' !! skey assetMrn (QrId score)
      = Some (IScore (set_times score (ValueModifiedTime org) (FailureTime org))).
Proof.
  intros Hget Hdiff Hcase Hadm.
  eexists. split; [by apply (updateScore_changed _ _ _ org)|].
  rewrite stored_lookup. do 2 f_equal. unfold stamp. simpl.
  destruct Hcase as [Hty|[Hval Hsc]].
  - rewrite (bool_decide_eq_false_2 _ Hty). by rewrite !andb_false_r.
  - rewrite (bool_decide_eq_false_2 _ Hsc). simpl.
    rewrite (bool_decide_eq_false_2 (Value org ≠ Value score)); [done|].
    intros H. by apply H.
Qed.

Lemma updateScore_carries_times_witness :
  ∃ db',
    updateScore "a1" score_errored 100 db_c1_failing = (Ok true, db')
    ∧ cache db' !! skey "a1" "c1" = Some (IScore (set_times score_errored 40 40)).
Proof.
  apply (updateScore_carries_times "a1" score_errored 100 score_failing_stored db_c1_failing).
  - reflexivity.
  - intros (H & _). discriminate H.
  - left. discriminate.
  - discriminate.
Defined.

(** X2.  When the cache refuses the write of a score that is new or differs
    from the stored one, [updateScore] returns its error and the cache holds
    what it held: the slot keeps the previous score, or stays empty. *)
Theorem updateScore_refused assetMrn score now db :
  refuses_next db →
  (∀ it, cache db !! skey assetMrn (QrId score) = Some it →
     ∃ org, it = IScore org ∧ ¬ same_result org score) →
  ∃ db',
    updateScore assetMrn score now db = (Err (set_failed assetMrn (QrId score)), db')
    ∧ cache db' = cache db.
Proof.
  intros Href Hslot. rewrite updateScore_eq. cbv zeta.
  assert (Hset : ∀ v, cache_Set (skey assetMrn (QrId score)) v 1 db
                      = (Ok false, with_cache (cache db) (tail (admission db))
                                     (skey assetMrn (QrId score) :: writes db) db)).
  { intros v. unfold cache_Set, refuses_next in *.
    destruct (admission db) as [|[] rest]; simplify_eq/=; done. }
  destruct (cache db !! skey assetMrn (QrId score)) as [it|] eqn:E.
  - destruct (Hslot it eq_refl) as (org & -> & Hdiff).
    destruct (unchanged org score) eqn:Eu; [by apply unchanged_true in Eu|].
    rewrite Hset. by eexists.
  - rewrite Hset. by eexists.
Qed.

Lemma updateScore_refused_witness :
  ∃ db',
    updateScore "a1" score_errored 100 db_c1_refusing = (Err (set_failed "a1" "c1"), db')
    ∧ cache db' = cache db_c1_refusing.
Proof.
  apply (updateScore_refused "a1" score_errored 100 db_c1_refusing).
  - reflexivity.
  - intros it Hit. exists score_failing_stored. split.
    + vm_compute in Hit. by injection Hit as <-.
    + intros (H & _). discriminate H.
Defined.

(** What [updateScore] leaves in its slot when it returns without error. *)
Lemma updateScore_post assetMrn score now db ok db' :
  updateScore assetMrn score now db = (Ok ok, db') →
  ∃ s,
    cache db' !! skey assetMrn (QrId score) = Some (IScore s)
    ∧ same_result s score
    ∧ (ok = true → ∃ vmt ft, s = set_times score vmt ft).
Proof.
  rewrite updateScore_eq. cbv zeta. intros Hrun.
  assert (Hw : ∀ found org db1,
    match cache_Set (skey assetMrn (QrId score)) (IScore (stamp found org score now)) 1 db
    with
    | (Ok true, db') => (Ok true, db')
    | (Ok false, db') => (Err (set_failed assetMrn (QrId score)), db')
    | (Err e, db') => (Err e, db')
    | (Panic, db') => (Panic, db')
    | (Diverge, db') => (Diverge, db')
    end = (Ok ok, db1) →
    ok = true ∧ cache db1 !! skey assetMrn (QrId score)
                = Some (IScore (stamp found org score now))).
  { intros found org db1 H.
    destruct (cache_Set_cases (skey assetMrn (QrId score))
                (IScore (stamp found org score now)) 1 db) as [(db2 & E & _)|E];
      rewrite E in H; simplify_eq. split; [done|apply stored_lookup]. }
  destruct (cache db !! skey assetMrn (QrId score)) as [[?|?|org|?]|] eqn:E; try done.
  - destruct (unchanged org score) eqn:Eu.
    + simplify_eq. exists org. split; [done|].
      split; [by apply unchanged_true|done].
    + apply Hw in Hrun as [-> ->].
      destruct (stamp_set_times true org score now) as (vmt & ft & ->).
      eexists. split; [done|]. split; [apply same_result_set_times|eauto].
  - apply Hw in Hrun as [-> ->].
    destruct (stamp_set_times false Score_zero score now) as (vmt & ft & ->).
    eexists. split; [done|]. split; [apply same_result_set_times|eauto].
Qed.

(** Whatever [updateScore] does, it touches no slot but its own. *)
Lemma updateScore_frame assetMrn score now db k :
  k ≠ skey assetMrn (QrId score) →
  cache (updateScore assetMrn score now db).2 !! k = cache db !! k.
Proof.
  intros Hk. rewrite updateScore_eq.
  pose proof (cache_Set_cache (skey assetMrn (QrId score))) as Hset.
  destruct (cache db !! skey assetMrn (QrId score)) as [[?|?|org|?]|] eqn:E;
    try done; simpl.
  - destruct (unchanged org score); [done|].
    specialize (Hset (IScore (stamp true org score now)) 1 db _ Hk).
    by destruct (cache_Set _ _ _ _) as [[[]| | |] ?].
  - specialize (Hset (IScore (stamp false Score_zero score now)) 1 db _ Hk).
    by destruct (cache_Set _ _ _ _) as [[[]| | |] ?].
Qed.

(** X3.  Round trip of a score: after any [updateScore] that returns without
    error, [GetScore] for the same asset and [QrId] finds a score that agrees
    with the incoming one on the six compared fields; when [updateScore]
    answered true, the stored score is the incoming one with its two times
    set, so that [QrId] and [Message] are the incoming ones as well. *)
Theorem updateScore_then_GetScore assetMrn score now db ok db' :
  updateScore assetMrn score now db = (Ok ok, db') →
  ∃ s,
    GetScore assetMrn (QrId score) db' = (Ok s, db')
    ∧ same_result s score
    ∧ (ok = true → ∃ vmt ft, s = set_times score vmt ft).
Proof.
  intros (s & Hs & Hsame & Hok)%updateScore_post.
  exists s. rewrite GetScore_eq, Hs. done.
Qed.

Lemma updateScore_then_GetScore_witness :
  ∃ s,
    GetScore "a1" "c1" (updateScore "a1" score_errored 100 db_c1_failing).2
    = (Ok s, (updateScore "a1" score_errored 100 db_c1_failing).2)
    ∧ same_result s score_errored
    ∧ (true = true → ∃ vmt ft, s = set_times score_errored vmt ft).
Proof.
  apply (updateScore_then_GetScore "a1" score_errored 100 db_c1_failing true).
  reflexivity.
Defined.

Lemma UpdateScores_range_post assetMrn now scores :
  ∀ updated0 db updated db',
    UpdateScores_range assetMrn scores now updated0 db = (Ok updated, db') →
    (∀ q, q ∈ updated → q ∈ updated0 ∨ q ∈ QrId <$> scores)
    ∧ (∀ l1 score l2, scores = l1 ++ score :: l2 → QrId score ∉ QrId <$> l2 →
         ∃ s, cache db' !! skey assetMrn (QrId score) = Some (IScore s)
              ∧ same_result s score)
    ∧ (∀ k, k ∉ skey assetMrn <$> (QrId <$> scores) → cache db' !! k = cache db !! k).
Proof.
  induction scores as [|score rest IH]; intros updated0 db updated db' Hrun.
  - simpl in Hrun. unfold ret in Hrun. simplify_eq.
    split; [by left|]. split; [|done].
    intros [|??] ?? H; discriminate H.
  - simpl in Hrun. unfold bind in Hrun.
    pose proof (updateScore_frame assetMrn score now db) as Hframe.
    destruct (updateScore assetMrn score now db) as [[ok| | |] db1] eqn:E; try done.
    simpl in Hframe.
    destruct (IH _ _ _ _ Hrun) as (Hupd & Hlast & Hrest).
    split; [|split].
    + intros q Hq. destruct (Hupd q Hq) as [H|H].
      * destruct ok; [|by left]. apply elem_of_union in H as [H|H]; [|by left].
        apply elem_of_singleton in H as ->. right. simpl. left.
      * right. simpl. by right.
    + intros l1 s l2 Heq Hnot. destruct l1 as [|s1 l1]; simpl in Heq; simplify_eq.
      * destruct (updateScore_post _ _ _ _ _ _ E) as (st & Hst & Hsame & _).
        exists st. split; [|done]. rewrite Hrest; [done|].
        intros (q & Hk & Hq)%list_elem_of_fmap. apply skey_inj in Hk. by subst q.
      * by apply (Hlast l1 s l2).
    + intros k Hk. rewrite Hrest, Hframe; [done| |].
      * intros ->. apply Hk. simpl. left.
      * intros H. apply Hk. simpl. by right.
Qed.

(** X4.  [UpdateScores] that returns without error leaves a score in the
    slot of every score it was given: the slot of a [QrId] agrees, on the six
    compared fields, with the last score given for that [QrId].  The updated
    set holds only [QrId]s of the given scores, and no other slot of the
    cache has changed. *)
Theorem UpdateScores_stores_all assetMrn scores db updated db' :
  UpdateScores assetMrn scores db = (Ok updated, db') →
  (∀ q, q ∈ updated → q ∈ QrId <$> scores)
  ∧ (∀ l1 score l2, scores = l1 ++ score :: l2 → QrId score ∉ QrId <$> l2 →
       ∃ s, GetScore assetMrn (QrId score) db' = (Ok s, db') ∧ same_result s score)
  ∧ (∀ k, k ∉ skey assetMrn <$> (QrId <$> scores) → cache db' !! k = cache db !! k).
Proof.
  unfold UpdateScores. intros (Hupd & Hlast & Hframe)%UpdateScores_range_post.
  split; [|split; [|done]].
  - intros q Hq. destruct (Hupd q Hq) as [H|H]; [|done]. by apply not_elem_of_empty in H.
  - intros l1 score l2 Heq Hnot. destruct (Hlast l1 score l2 Heq Hnot) as (s & Hs & Hsame).
    exists s. by rewrite GetScore_eq, Hs.
Qed.

Lemma UpdateScores_stores_all_witness :
  let db' := (UpdateScores "a1" [score_failing; score_errored] db_c1_passing).2 in
  (∀ q, q ∈ ({["c1"]} : gset string) → q ∈ QrId <$> [score_failing; score_errored])
  ∧ (∀ l1 score l2, [score_failing; score_errored] = l1 ++ score :: l2 →
       QrId score ∉ QrId <$> l2 →
       ∃ s, GetScore "a1" (QrId score) db' = (Ok s, db') ∧ same_result s score)
  ∧ (∀ k, k ∉ skey "a1" <$> (QrId <$> [score_failing; score_errored]) →
       cache db' !! k = cache db_c1_passing !! k).
Proof.
  apply (UpdateScores_stores_all "a1" [score_failing; score_errored] db_c1_passing).
  vm_compute. reflexivity.
Defined.

(** ** Reports and resolved policies *)

Lemma GetScores_range_found assetMrn qrIDs :
  ∀ res db,
    (∀ q, q ∈ qrIDs → ∃ s, cache db !! skey assetMrn q = Some (IScore s)) →
    ∃ res',
      GetScores_range assetMrn qrIDs res db = (Ok res', db)
      ∧ ∀ q s, res' !! q = Some s ↔
          ((q ∈ qrIDs ∧ cache db !! skey assetMrn q = Some (IScore s))
           ∨ ((q ∉ qrIDs) ∧ res !! q = Some s)).
Proof.
  induction qrIDs as [|q0 rest IH]; intros res db Hall.
  - exists res. split; [done|]. intros q s. split.
    + intros H. right. split; [apply not_elem_of_nil|done].
    + intros [[H _]|[_ H]]; [by apply elem_of_nil in H|done].
  - destruct (Hall q0) as [s0 Hs0]; [left|].
    cbn [GetScores_range]. unfold bind, cache_Get. fold (skey assetMrn q0).
    rewrite Hs0. cbn beta iota.
    destruct (IH (<[q0 := s0]> res) db) as (res' & Hrun & Hres).
    { intros q Hq. apply Hall. by right. }
    exists res'. split; [exact Hrun|].
    intros q s. rewrite Hres, elem_of_cons.
    destruct (decide (q = q0)) as [->|Hne].
    + rewrite lookup_insert_eq. split.
      * intros [[? ?]|[? ?]]; left; [by split; [right|]|]. split; [by left|congruence].
      * intros [[_ H]|[H _]]; [|exfalso; apply H; by left].
        destruct (decide (q0 ∈ rest)); [left|right]; (split; [done|congruence]).
    + rewrite lookup_insert_ne by done. split.
      * intros [[? ?]|[? ?]]; [left; split; [by right|done]|right].
        split; [|done]. intros [?|?]; done.
      * intros [[[?|?] ?]|[H ?]]; [done|by left|right].
        split; [|done]. intros ?. apply H. by right.
Qed.

Lemma GetData_range_found assetMrn fields :
  ∀ res db,
    (∀ c, c ∈ fields.*1 → ∃ r, cache db !! dkey assetMrn c = Some (IData r)) →
    ∃ res',
      GetData_range assetMrn fields res db = (Ok res', db)
      ∧ ∀ c r, res' !! c = Some r ↔
          ((c ∈ fields.*1 ∧ cache db !! dkey assetMrn c = Some (IData r))
           ∨ ((c ∉ fields.*1) ∧ res !! c = Some r)).
Proof.
  induction fields as [|[c0 t0] rest IH]; intros res db Hall.
  - exists res. split; [done|]. intros c r. split.
    + intros H. right. split; [apply not_elem_of_nil|done].
    + intros [[H _]|[_ H]]; [by apply elem_of_nil in H|done].
  - destruct (Hall c0) as [r0 Hr0]; [left|].
    cbn [GetData_range]. unfold bind, cache_Get. fold (dkey assetMrn c0).
    rewrite Hr0. cbn beta iota.
    destruct (IH (<[c0 := r0]> res) db) as (res' & Hrun & Hres).
    { intros c Hc. apply Hall. by right. }
    exists res'. split; [exact Hrun|].
    intros c r. rewrite Hres. cbn [fmap list_fmap fst]. rewrite elem_of_cons.
    destruct (decide (c = c0)) as [->|Hne].
    + rewrite lookup_insert_eq. split.
      * intros [[? ?]|[? ?]]; left; [by split; [right|]|]. split; [by left|congruence].
      * intros [[_ H]|[H _]]; [|exfalso; apply H; by left].
        destruct (decide (c0 ∈ rest.*1)); [left|right]; (split; [done|congruence]).
    + rewrite lookup_insert_ne by done. split.
      * intros [[? ?]|[? ?]]; [left; split; [by right|done]|right].
        split; [|done]. intros [?|?]; done.
      * intros [[[?|?] ?]|[H ?]]; [done|by left|right].
        split; [|done]. intros ?. apply H. by right.
Qed.

(** The set of score slots [GetReport] collects from the reporting jobs. *)
Lemma includedScores_elem assetMrn jobs q :
  q ∈ foldl (λ (acc : gset string) (kv : string * ReportingJob),
               {[job_qrid assetMrn kv.2]} ∪ acc) ∅ jobs
  ↔ q ∈ map (λ kv : string * ReportingJob, job_qrid assetMrn kv.2) jobs.
Proof.
  assert (H : ∀ acc : gset string,
    q ∈ foldl (λ (acc : gset string) (kv : string * ReportingJob),
                 {[job_qrid assetMrn kv.2]} ∪ acc) acc jobs
    ↔ q ∈ acc ∨ q ∈ map (λ kv : string * ReportingJob, job_qrid assetMrn kv.2) jobs).
  { induction jobs as [|[u j] rest IH]; intros acc; simpl.
    - split; [by left|]. intros [?|H]; [done|by apply elem_of_nil in H].
    - rewrite IH, elem_of_union, elem_of_singleton, elem_of_cons. tauto. }
  rewrite H. split; [|by right]. intros [H0|?]; [|done]. by apply not_elem_of_empty in H0.
Qed.

(** What a run of [SetAssetResolvedPolicy] that stores a new resolved policy
    leaves in the cache. *)
Lemma SetAssetResolvedPolicy_changed assetMrn resolvedPolicy version assetw collectorJob db db' :
  cache db !! akey assetMrn = Some (IAsset assetw) →
  already_cached assetw resolvedPolicy version = false →
  rp_CollectorJob resolvedPolicy = Some collectorJob →
  SetAssetResolvedPolicy assetMrn resolvedPolicy version db = (Ok tt, db') →
  cache db' !! akey assetMrn
  = Some (IAsset {| wa_mrn := wa_mrn assetw; wa_ResolvedPolicy := Some resolvedPolicy;
                    resolvedPolicyVersion := version |})
  ∧ (∀ uuid job, (uuid, job) ∈ ReportingJobs collectorJob →
       cache db' !! skey assetMrn (job_qrid assetMrn job) = Some (IScore Score_zero))
  ∧ (∀ c info, (c, info) ∈ Datapoints collectorJob →
       cache db' !! dkey assetMrn c
       = Some (default (IData None) (cache db !! dkey assetMrn c))).
Proof.
  intros Hasset Hcached Hcj.
  rewrite (SetAssetResolvedPolicy_eq _ _ _ _ _ _ Hasset Hcached Hcj).
  intros Hrun. unfold bind in Hrun.
  destruct (initData_range assetMrn (Datapoints collectorJob) db)
    as [[[]| | |] db1] eqn:Hd; try done.
  destruct (initScores_range assetMrn (ReportingJobs collectorJob) db1)
    as [[[]| | |] db2] eqn:Hs; try done.
  match type of Hrun with context [cache_Set ?k ?v ?c db2] =>
    destruct (cache_Set_cases k v c db2) as [(db3 & E & _)|E]; rewrite E in Hrun end;
    [done|].
  unfold ret in Hrun. simplify_eq.
  split; [apply stored_lookup|]. split.
  - intros uuid job Hin. unfold stored; simpl.
    rewrite lookup_insert_ne by apply akey_skey.
    by eapply initScores_range_resets.
  - intros c info Hin. unfold stored; simpl.
    rewrite lookup_insert_ne by apply akey_dkey.
    pose proof (initScores_range_other assetMrn (ReportingJobs collectorJob) db1
                  (dkey assetMrn c)) as Ho.
    rewrite Hs in Ho. simpl in Ho. rewrite Ho.
    2:{ intros q Hq. symmetry in Hq. by apply skey_dkey in Hq. }
    destruct (cache db !! dkey assetMrn c) as [it|] eqn:E0; simpl.
    + pose proof (initData_range_keeps assetMrn (Datapoints collectorJob) db _ _ E0) as Hk.
      by rewrite Hd in Hk.
    + by eapply initData_range_fills.
Qed.

(** X5.  The report after a new resolved policy.  Take an asset whose stored
    resolved policy is missing or differs from the incoming one in
    [GraphExecutionChecksum] or version, and whose data slots hold data.
    After [SetAssetResolvedPolicy] has returned without error, [GetReport]
    for the slot of any of the reporting jobs returns a report, not an
    error: its score is the empty score, its scores are the empty score for
    the slot of every reporting job and nothing else, its data holds, for
    every datapoint and nothing else, what the data slot held before the
    call (nil where it was missing), and its version is the incoming one. *)
Theorem SetAssetResolvedPolicy_then_GetReport
    assetMrn resolvedPolicy version assetw collectorJob db db' uuid job :
  cache db !! akey assetMrn = Some (IAsset assetw) →
  (∀ old, wa_ResolvedPolicy assetw = Some old →
     rp_GraphExecutionChecksum old ≠ rp_GraphExecutionChecksum resolvedPolicy
     ∨ resolvedPolicyVersion assetw ≠ version) →
  rp_CollectorJob resolvedPolicy = Some collectorJob →
  data_typed db assetMrn →
  SetAssetResolvedPolicy assetMrn resolvedPolicy version db = (Ok tt, db') →
  (uuid, job) ∈ ReportingJobs collectorJob →
  ∃ scores data,
    GetReport assetMrn (job_qrid assetMrn job) db'
    = (Ok {| EntityMrn := assetMrn; ScoringMrn := job_qrid assetMrn job;
             rep_Score := Some Score_zero; Scores := Some scores;
             rep_Data := Some data; ResolvedPolicyVersion := version |}, db')
    ∧ (∀ q s, scores !! q = Some s ↔ q ∈ job_slots assetMrn collectorJob ∧ s = Score_zero)
    ∧ (∀ c r, data !! c = Some r ↔
         c ∈ (Datapoints collectorJob).*1
         ∧ default (IData None) (cache db !! dkey assetMrn c) = IData r).
Proof.
  intros Hasset Hdiff Hcj Htyped Hrun Hjob.
  apply already_cached_false in Hdiff.
  destruct (SetAssetResolvedPolicy_changed _ _ _ _ _ _ _ Hasset Hdiff Hcj Hrun)
    as (Ha' & Hscores & Hdata).
  assert (Hslots : ∀ q, q ∈ job_slots assetMrn collectorJob →
            cache db' !! skey assetMrn q = Some (IScore Score_zero)).
  { intros q (kv & -> & Hin)%list_elem_of_fmap. destruct kv as [u j]. by eapply Hscores. }
  set (S := foldl (λ (acc : gset string) (kv : string * ReportingJob),
                     {[job_qrid assetMrn kv.2]} ∪ acc) ∅ (ReportingJobs collectorJob)).
  destruct (GetScores_range_found assetMrn (elements S) ∅ db') as (scores & Hgs & Hsc).
  { intros q Hq%elem_of_elements. exists Score_zero. apply Hslots.
    by apply includedScores_elem in Hq. }
  set (fields := map (λ kv : string * DataQueryInfo, (kv.1, dq_Type kv.2))
                     (Datapoints collectorJob)).
  assert (Hfields : fields.*1 = (Datapoints collectorJob).*1).
  { unfold fields. generalize (Datapoints collectorJob). intros l.
    induction l as [|[] ? IH]; [done|]. simpl. f_equal. exact IH. }
  assert (Hslot : ∀ c, c ∈ (Datapoints collectorJob).*1 →
            ∃ r, default (IData None) (cache db !! dkey assetMrn c) = IData r
                 ∧ cache db' !! dkey assetMrn c = Some (IData r)).
  { intros c (kv & -> & Hin)%list_elem_of_fmap. destruct kv as [c info]. simpl.
    rewrite (Hdata c info Hin).
    destruct (cache db !! dkey assetMrn c) as [it|] eqn:E; simpl.
    - destruct (Htyped c it E) as [r ->]. by exists r.
    - by exists None. }
  destruct (GetData_range_found assetMrn fields ∅ db') as (data & Hgd & Hda).
  { rewrite Hfields. intros c Hc. destruct (Hslot c Hc) as (r & _ & Hr). by exists r. }
  exists scores, data. split; [|split].
  - unfold GetReport. unfold bind at 1. unfold try. rewrite GetScore_eq.
    rewrite (Hscores uuid job Hjob). cbn beta iota.
    unfold bind at 1. unfold cache_Get. fold (akey assetMrn). rewrite Ha'.
    cbn beta iota. cbn [wa_ResolvedPolicy resolvedPolicyVersion]. rewrite Hcj.
    cbv zeta. fold S. unfold GetScores. unfold bind at 1. rewrite Hgs.
    fold fields. unfold GetData. unfold bind. rewrite Hgd. done.
  - intros q s. rewrite Hsc. split.
    + intros [[Hq Hs]|[_ Hs]]; [|by rewrite lookup_empty in Hs].
      apply elem_of_elements, includedScores_elem in Hq.
      split; [done|]. rewrite (Hslots q Hq) in Hs. congruence.
    + intros [Hq ->]. left. split; [|by apply Hslots].
      by apply elem_of_elements, includedScores_elem.
  - intros c r. rewrite Hda, Hfields. split.
    + intros [[Hc Hr]|[_ Hr]]; [|by rewrite lookup_empty in Hr].
      split; [done|]. destruct (Hslot c Hc) as (r' & Hr' & Hr''). congruence.
    + intros [Hc Hr]. left. split; [done|].
      destruct (Hslot c Hc) as (r' & Hr' & Hr''). congruence.
Qed.

Lemma data_typed_empty assetMrn : data_typed db_empty assetMrn.
Proof. intros c it H. unfold db_empty in H. simpl in H. by rewrite lookup_empty in H. Qed.

Lemma data_typed_with_slot key value db assetMrn :
  data_typed db assetMrn →
  (∀ c, key = dkey assetMrn c → ∃ r, value = IData r) →
  data_typed (with_slot key value db) assetMrn.
Proof.
  intros Hdb Hval c it. unfold with_slot; simpl.
  destruct (decide (key = dkey assetMrn c)) as [->|Hne].
  - rewrite lookup_insert_eq. intros [= <-]. by apply (Hval c).
  - rewrite lookup_insert_ne by done. apply Hdb.
Qed.

Lemma data_typed_db_a1 : data_typed db_a1 "a1".
Proof.
  unfold db_a1. apply data_typed_with_slot; [apply data_typed_with_slot;
    [apply data_typed_with_slot; [apply data_typed_empty|]|]|].
  - intros c H. by apply skey_dkey in H.
  - intros c _. by eexists.
  - intros c H. by apply akey_dkey in H.
Defined.

Lemma SetAssetResolvedPolicy_then_GetReport_witness :
  let db' := (SetAssetResolvedPolicy "a1" resolved_a1 "v2" db_a1).2 in
  ∃ scores data,
    GetReport "a1" "c1" db'
    = (Ok {| EntityMrn := "a1"; ScoringMrn := "c1"; rep_Score := Some Score_zero;
             Scores := Some scores; rep_Data := Some data;
             ResolvedPolicyVersion := "v2" |}, db')
    ∧ (∀ q s, scores !! q = Some s ↔ q ∈ job_slots "a1" collector_a1 ∧ s = Score_zero)
    ∧ (∀ c r, data !! c = Some r ↔
         c ∈ (Datapoints collector_a1).*1
         ∧ default (IData None) (cache db_a1 !! dkey "a1" c) = IData r).
Proof.
  apply (SetAssetResolvedPolicy_then_GetReport "a1" resolved_a1 "v2" asset_a1 collector_a1
           db_a1 _ "uuid-c1" {| rj_QrId := "c1" |}).
  - reflexivity.
  - discriminate.
  - reflexivity.
  - apply data_typed_db_a1.
  - reflexivity.
  - right. left.
Defined.

(** What [SetAssetResolvedPolicy] leaves in the slot of the asset when it
    returns without error. *)
Lemma SetAssetResolvedPolicy_holds assetMrn resolvedPolicy version db db' :
  SetAssetResolvedPolicy assetMrn resolvedPolicy version db = (Ok tt, db') →
  ∃ assetw assetw',
    cache db !! akey assetMrn = Some (IAsset assetw)
    ∧ cache db' !! akey assetMrn = Some (IAsset assetw')
    ∧ already_cached assetw' resolvedPolicy version = true
    ∧ (already_cached assetw resolvedPolicy version = true → db' = db)
    ∧ (already_cached assetw resolvedPolicy version = false →
       wa_ResolvedPolicy assetw' = Some resolvedPolicy
       ∧ is_Some (rp_CollectorJob resolvedPolicy)).
Proof.
  intros Hrun.
  destruct (cache db !! akey assetMrn) as [[?|assetw|?|?]|] eqn:Ha;
    try (unfold SetAssetResolvedPolicy, bind, cache_Get in Hrun;
         fold (akey assetMrn) in Hrun; rewrite Ha in Hrun; done).
  exists assetw.
  destruct (already_cached assetw resolvedPolicy version) eqn:Hc.
  - unfold SetAssetResolvedPolicy, bind, cache_Get in Hrun.
    fold (akey assetMrn) in Hrun. rewrite Ha in Hrun. simpl in Hrun.
    rewrite Hc in Hrun. unfold ret in Hrun. simplify_eq.
    exists assetw. done.
  - destruct (rp_CollectorJob resolvedPolicy) as [collectorJob|] eqn:Hcj.
    2:{ unfold SetAssetResolvedPolicy, bind, cache_Get in Hrun.
        fold (akey assetMrn) in Hrun. rewrite Ha in Hrun. simpl in Hrun.
        by rewrite Hc, Hcj in Hrun. }
    destruct (SetAssetResolvedPolicy_changed _ _ _ _ _ _ _ Ha Hc Hcj Hrun) as (Ha' & _).
    eexists. split; [done|]. split; [exact Ha'|]. split; [|done].
    unfold already_cached. simpl. by rewrite !bool_decide_eq_true_2.
Qed.

(** X6.  Sending a resolved policy again does not reset anything.  After
    [SetAssetResolvedPolicy] has returned without error for an asset, a
    later call for that asset with the same version and a resolved policy
    of the same [GraphExecutionChecksum] returns at once and leaves the
    datalake exactly as it is, whatever was written to the scores and data
    of the asset in between, and even if the resolved policy sent differs in
    its collector job. *)
Theorem SetAssetResolvedPolicy_resubmit assetMrn resolvedPolicy version db db' again later :
  SetAssetResolvedPolicy assetMrn resolvedPolicy version db = (Ok tt, db') →
  rp_GraphExecutionChecksum again = rp_GraphExecutionChecksum resolvedPolicy →
  cache later !! akey assetMrn = cache db' !! akey assetMrn →
  SetAssetResolvedPolicy assetMrn again version later = (Ok tt, later).
Proof.
  intros (assetw & assetw' & _ & Ha' & Hc & _)%SetAssetResolvedPolicy_holds Hsum Hlater.
  unfold SetAssetResolvedPolicy, bind, cache_Get. fold (akey assetMrn).
  rewrite Hlater, Ha'. cbn beta iota.
  assert (Hc' : already_cached assetw' again version = true).
  { unfold already_cached in *. destruct (wa_ResolvedPolicy assetw'); [|done].
    by rewrite Hsum. }
  by rewrite Hc'.
Qed.

Lemma SetAssetResolvedPolicy_resubmit_witness :
  let db' := (SetAssetResolvedPolicy "a1" resolved_a1 "v2" db_a1).2 in
  let later := (UpdateScores "a1" [score_failing] db').2 in
  SetAssetResolvedPolicy "a1"
    {| rp_GraphExecutionChecksum := "g1"; FiltersChecksum := "f2"; rp_CollectorJob := None |}
    "v2" later
  = (Ok tt, later).
Proof.
  apply (SetAssetResolvedPolicy_resubmit "a1" resolved_a1 "v2" db_a1
           (SetAssetResolvedPolicy "a1" resolved_a1 "v2" db_a1).2).
  - reflexivity.
  - reflexivity.
  - reflexivity.
Defined.

Lemma GetResolvedPolicy_found assetMrn assetw resolvedPolicy db :
  cache db !! akey assetMrn = Some (IAsset assetw) →
  wa_ResolvedPolicy assetw = Some resolvedPolicy →
  GetResolvedPolicy assetMrn db = (Ok resolvedPolicy, db).
Proof.
  intros Ha Hrp. unfold GetResolvedPolicy, bind, cache_Get.
  fold (akey assetMrn). rewrite Ha. simpl. by rewrite Hrp.
Qed.

(** X7.  Round trip of a resolved policy.  After [SetAssetResolvedPolicy]
    has returned without error, [GetResolvedPolicy] returns a resolved
    policy with the [GraphExecutionChecksum] of the one that was set.  It is
    the very one that was set, and [GetCollectorJob] returns its collector
    job, when the asset had no resolved policy before or one that differs in
    checksum or version; otherwise the asset keeps the resolved policy it
    had. *)
Theorem SetAssetResolvedPolicy_then_GetResolvedPolicy assetMrn resolvedPolicy version db db' :
  SetAssetResolvedPolicy assetMrn resolvedPolicy version db = (Ok tt, db') →
  ∃ assetw got,
    cache db !! akey assetMrn = Some (IAsset assetw)
    ∧ GetResolvedPolicy assetMrn db' = (Ok got, db')
    ∧ rp_GraphExecutionChecksum got = rp_GraphExecutionChecksum resolvedPolicy
    ∧ (already_cached assetw resolvedPolicy version = true →
       wa_ResolvedPolicy assetw = Some got ∧ db' = db)
    ∧ (already_cached assetw resolvedPolicy version = false →
       got = resolvedPolicy
       ∧ ∃ collectorJob, rp_CollectorJob resolvedPolicy = Some collectorJob
                         ∧ GetCollectorJob assetMrn db' = (Ok collectorJob, db')).
Proof.
  intros (assetw & assetw' & Ha & Ha' & Hc & Hsame & Hnew)%SetAssetResolvedPolicy_holds.
  exists assetw.
  assert (∃ got, wa_ResolvedPolicy assetw' = Some got
                 ∧ rp_GraphExecutionChecksum got = rp_GraphExecutionChecksum resolvedPolicy)
    as (got & Hgot & Hsum).
  { unfold already_cached in Hc. destruct (wa_ResolvedPolicy assetw') as [old|]; [|done].
    exists old. split; [done|].
    apply andb_true_iff in Hc as [Hc _]. by apply bool_decide_eq_true in Hc. }
  exists got. split; [done|]. split; [by eapply GetResolvedPolicy_found|].
  split; [done|]. split.
  - intros Hc0. specialize (Hsame Hc0). subst db'. split; [|done]. congruence.
  - intros Hc0. destruct (Hnew Hc0) as [Hrp [collectorJob Hcj]].
    assert (got = resolvedPolicy) as -> by congruence.
    split; [done|]. exists collectorJob. split; [done|].
    by eapply GetCollectorJob_found.
Qed.

Lemma SetAssetResolvedPolicy_then_GetResolvedPolicy_witness :
  let db' := (SetAssetResolvedPolicy "a1" resolved_a1 "v2" db_a1).2 in
  ∃ assetw got,
    cache db_a1 !! akey "a1" = Some (IAsset assetw)
    ∧ GetResolvedPolicy "a1" db' = (Ok got, db')
    ∧ rp_GraphExecutionChecksum got = rp_GraphExecutionChecksum resolved_a1
    ∧ (already_cached assetw resolved_a1 "v2" = true →
       wa_ResolvedPolicy assetw = Some got ∧ db' = db_a1)
    ∧ (already_cached assetw resolved_a1 "v2" = false →
       got = resolved_a1
       ∧ ∃ collectorJob, rp_CollectorJob resolved_a1 = Some collectorJob
                         ∧ GetCollectorJob "a1" db' = (Ok collectorJob, db')).
Proof.
  apply (SetAssetResolvedPolicy_then_GetResolvedPolicy "a1" resolved_a1 "v2" db_a1).
  reflexivity.
Defined.

(** X8.  A report for an asset that is not ready.  When a score is stored
    for [(assetMrn, qrID)], [GetReport] goes on to read the asset: it
    returns an error if the asset is not stored, and it panics (a nil
    dereference) if the asset is stored without a resolved policy, as it is
    between its creation and its first [SetAssetResolvedPolicy], or with a
    resolved policy that has no collector job. *)
Theorem GetReport_asset_not_ready assetMrn qrID score db :
  cache db !! skey assetMrn qrID = Some (IScore score) →
  (cache db !! akey assetMrn = None →
   GetReport assetMrn qrID db
   = (Err (errors_New ("cannot find asset '" +:+ assetMrn +:+ "'")), db))
  ∧ (∀ assetw, cache db !! akey assetMrn = Some (IAsset assetw) →
       wa_ResolvedPolicy assetw = None
       ∨ (∃ resolvedPolicy, wa_ResolvedPolicy assetw = Some resolvedPolicy
                            ∧ rp_CollectorJob resolvedPolicy = None) →
       GetReport assetMrn qrID db = (Panic, db)).
Proof.
  intros Hs. split.
  - intros Ha. unfold GetReport. unfold bind at 1. unfold try. rewrite GetScore_eq, Hs.
    cbn beta iota. unfold bind, cache_Get. fold (akey assetMrn). by rewrite Ha.
  - intros assetw Ha Hrp. unfold GetReport. unfold bind at 1. unfold try.
    rewrite GetScore_eq, Hs. cbn beta iota. unfold bind, cache_Get.
    fold (akey assetMrn). rewrite Ha. cbn beta iota.
    destruct Hrp as [->|(rp & -> & ->)]; done.
Qed.

Lemma GetReport_asset_not_ready_witness :
  (cache db_c1_failing !! akey "a1" = None →
   GetReport "a1" "c1" db_c1_failing = (Err (errors_New "cannot find asset 'a1'"), db_c1_failing))
  ∧ GetReport "a1" "c1" db_a1_unresolved = (Panic, db_a1_unresolved).
Proof.
  split.
  - apply (GetReport_asset_not_ready "a1" "c1" score_failing_stored db_c1_failing).
    reflexivity.
  - destruct (GetReport_asset_not_ready "a1" "c1" score_failing_stored db_a1_unresolved
                eq_refl) as [_ H].
    apply (H asset_a1); [reflexivity|by left].
Defined.

(** ** Data *)

Section UpdateData_more.

Variable Unset : string.
Variable Label : string → string.

(** The loop of [UpdateData] over an input in two parts. *)
Lemma UpdateData_range_app assetMrn collectorJob pre rest :
  ∀ res errList db,
    UpdateData_range Unset Label assetMrn collectorJob (pre ++ rest) res errList db
    = match UpdateData_range Unset Label assetMrn collectorJob pre res errList db with
      | (Ok (res', errs'), db') =>
          UpdateData_range Unset Label assetMrn collectorJob rest res' errs' db'
      | (Err e, db') => (Err e, db')
      | (Panic, db') => (Panic, db')
      | (Diverge, db') => (Diverge, db')
      end.
Proof.
  induction pre as [|[c v] pre IH]; intros res errList db.
  - simpl. by destruct (UpdateData_range _ _ _ _ rest res errList db) as [[[]| | |] ?].
  - cbn [app UpdateData_range].
    destruct (lookup_assoc (Datapoints collectorJob) c) as [info|]; [|done].
    destruct v as [val|]; [|done].
    destruct (types_dont_match Unset val info); [apply IH|].
    unfold bind, try.
    destruct (setDatum assetMrn c val db) as [[[]|e| |] db1]; try done; apply IH.
Qed.

(** X9.  [UpdateData] is fail-fast on a checksum that is not in the
    catalog, and not atomic.  When the input, in the order the range visits
    it, holds entries of the catalog and then a checksum the collector job
    does not list, [UpdateData] returns the error for that checksum alone
    (type-mismatch errors gathered before it are dropped).  The entries after
    it are not looked at: no slot changes but those of the entries before
    it; and with every write admitted, the entries before it that pass the
    type test are already stored when the call fails. *)
Theorem UpdateData_unknown_datapoint
    assetMrn assetw resolvedPolicy collectorJob pre c v post db :
  cache db !! akey assetMrn = Some (IAsset assetw) →
  wa_ResolvedPolicy assetw = Some resolvedPolicy →
  rp_CollectorJob resolvedPolicy = Some collectorJob →
  in_catalog collectorJob pre →
  lookup_assoc (Datapoints collectorJob) c = None →
  ∃ db',
    UpdateData Unset Label assetMrn (pre ++ (c, v) :: post) db
    = (Err (errors_New ("cannot find this datapoint to store values: " +:+ c)), db')
    ∧ (∀ k, (∀ c' v', (c', v') ∈ pre → k ≠ dkey assetMrn c') →
         cache db' !! k = cache db !! k)
    ∧ (admits_all db → NoDup pre.*1 →
       ∀ c' val, (c', Some val) ∈ pre →
         rejects Unset collectorJob (c', Some val) = false →
         cache db' !! dkey assetMrn c' = Some (IData (Some val))).
Proof.
  intros Ha Hrp Hcj Hwf Hnone.
  destruct (UpdateData_range_spec Unset Label assetMrn collectorJob pre Hwf ∅ [] db)
    as (res' & errs & db' & Hrun & _ & Hframe & _).
  exists db'. split; [|split].
  - unfold UpdateData. unfold bind at 1. unfold try.
    rewrite (GetCollectorJob_found _ _ _ _ _ Ha Hrp Hcj).
    unfold bind. rewrite UpdateData_range_app, Hrun.
    cbn [UpdateData_range]. by rewrite Hnone.
  - intros k Hk. apply Hframe. intros c' v' Hin _. by apply (Hk c' v').
  - intros Hall Hnd c' val Hin Hacc.
    eapply (UpdateData_range_stores Unset Label);
      [exact Hwf|exact Hnd|exact Hall|exact Hrun|exact Hin|exact Hacc].
Qed.

(** The catalog types [UpdateData] answers with when no entry is refused. *)
Lemma UpdateData_range_types assetMrn collectorJob data :
  in_catalog collectorJob data →
  (∀ e, e ∈ data → rejects Unset collectorJob e = false) →
  ∀ res errList db,
    admits_all db →
    ∃ res' db',
      UpdateData_range Unset Label assetMrn collectorJob data res errList db
      = (Ok (res', errList), db')
      ∧ ∀ c t, res' !! c = Some t ↔
          ((c ∈ data.*1 ∧ dq_Type <$> lookup_assoc (Datapoints collectorJob) c = Some t)
           ∨ ((c ∉ data.*1) ∧ res !! c = Some t)).
Proof.
  induction data as [|[c0 v0] rest IH]; intros Hwf Hacc res errList db Hall.
  - exists res, db. split; [done|]. intros c t. split.
    + intros H. right. split; [apply not_elem_of_nil|done].
    + intros [[H _]|[_ H]]; [by apply elem_of_nil in H|done].
  - apply in_catalog_cons in Hwf as [(info & val & Hinfo & ->) Hwf].
    cbn [UpdateData_range]. rewrite Hinfo.
    assert (Hr : types_dont_match Unset val info = false).
    { specialize (Hacc (c0, Some val)). unfold rejects in Hacc. simpl in Hacc.
      rewrite Hinfo in Hacc. apply Hacc. left. }
    rewrite Hr. unfold bind, try. rewrite setDatum_eq.
    rewrite cache_Set_admitted by by apply admits_all_next. cbn beta iota.
    destruct (IH Hwf (λ e He, Hacc e (list_elem_of_further _ _ _ He))
                (<[c0 := dq_Type info]> res) errList
                (stored (dkey assetMrn c0) (IData (Some val)) db)
                (admits_all_stored _ _ _ Hall)) as (res' & db' & Hrun & Hres).
    exists res', db'. split; [exact Hrun|].
    intros c t. rewrite Hres. cbn [fmap list_fmap fst]. rewrite elem_of_cons.
    destruct (decide (c = c0)) as [->|Hne].
    + rewrite lookup_insert_eq, Hinfo. simpl. split.
      * intros [[? ?]|[? ?]]; left; [by split; [right|]|]. split; [by left|congruence].
      * intros [[_ H]|[H _]]; [|exfalso; apply H; by left].
        destruct (decide (c0 ∈ rest.*1)); [left|right]; (split; [done|congruence]).
    + rewrite lookup_insert_ne by done. split.
      * intros [[? ?]|[? ?]]; [left; split; [by right|done]|right].
        split; [|done]. intros [?|?]; done.
      * intros [[[?|?] ?]|[H ?]]; [done|by left|right].
        split; [|done]. intros ?. apply H. by right.
Qed.

(** X10.  Round trip of data.  Take an asset with a collector job, an input
    whose checksums are distinct and in the catalog, of which the type test
    refuses none, and a cache that admits every write.  [UpdateData] returns
    the map from each checksum of the input to its catalog type, and
    [GetData] for that map then returns, for each checksum of the input and
    for nothing else, the value that was sent. *)
Theorem UpdateData_then_GetData assetMrn assetw resolvedPolicy collectorJob data db :
  cache db !! akey assetMrn = Some (IAsset assetw) →
  wa_ResolvedPolicy assetw = Some resolvedPolicy →
  rp_CollectorJob resolvedPolicy = Some collectorJob →
  in_catalog collectorJob data →
  NoDup data.*1 →
  (∀ e, e ∈ data → rejects Unset collectorJob e = false) →
  admits_all db →
  ∃ res db' got,
    UpdateData Unset Label assetMrn data db = (Ok res, db')
    ∧ (∀ c t, res !! c = Some t ↔
         c ∈ data.*1 ∧ dq_Type <$> lookup_assoc (Datapoints collectorJob) c = Some t)
    ∧ GetData assetMrn (map_to_list res) db' = (Ok got, db')
    ∧ (∀ c r, got !! c = Some r ↔ ∃ val, r = Some val ∧ (c, Some val) ∈ data).
Proof.
  intros Ha Hrp Hcj Hwf Hnd Hacc Hall.
  destruct (UpdateData_range_types assetMrn collectorJob data Hwf Hacc ∅ [] db Hall)
    as (res & db' & Hrun & Hres).
  assert (Hres' : ∀ c t, res !! c = Some t ↔
            c ∈ data.*1 ∧ dq_Type <$> lookup_assoc (Datapoints collectorJob) c = Some t).
  { intros c t. rewrite Hres. split; [|by left].
    intros [?|[_ H]]; [done|by rewrite lookup_empty in H]. }
  assert (Hstored : ∀ c val, (c, Some val) ∈ data →
            cache db' !! dkey assetMrn c = Some (IData (Some val))).
  { intros c val Hin.
    eapply (UpdateData_range_stores Unset Label);
      [exact Hwf|exact Hnd|exact Hall|exact Hrun|exact Hin|by apply Hacc]. }
  assert (Hkeys : ∀ c, c ∈ (map_to_list res).*1 ↔ c ∈ data.*1).
  { intros c. rewrite list_elem_of_fmap. split.
    - intros ([c' t] & -> & Hin). apply elem_of_map_to_list in Hin.
      by apply Hres' in Hin as [? _].
    - intros Hc. pose proof Hc as ([c' v] & -> & Hin)%list_elem_of_fmap.
      destruct (Hwf c' v Hin) as [[info Hinfo] _].
      exists (c', dq_Type info). split; [done|].
      apply elem_of_map_to_list, Hres'. simpl. by rewrite Hinfo. }
  destruct (GetData_range_found assetMrn (map_to_list res) ∅ db') as (got & Hget & Hgot).
  { intros c ([c' v] & -> & Hin)%Hkeys%list_elem_of_fmap.
    destruct (Hwf c' v Hin) as [_ [val ->]]. exists (Some val). by apply Hstored. }
  exists res, db', got. split; [|split; [done|split; [exact Hget|]]].
  - unfold UpdateData. unfold bind at 1. unfold try.
    rewrite (GetCollectorJob_found _ _ _ _ _ Ha Hrp Hcj).
    unfold bind. by rewrite Hrun.
  - intros c r. rewrite Hgot. split.
    + intros [[([c' v] & -> & Hin)%Hkeys%list_elem_of_fmap Hr]|[_ Hr]];
        [|by rewrite lookup_empty in Hr].
      destruct (Hwf c' v Hin) as [_ [val ->]]. simpl in Hr.
      rewrite (Hstored c' val Hin) in Hr. exists val. split; [congruence|done].
    + intros (val & -> & Hin). left. split; [|by apply Hstored].
      apply Hkeys, list_elem_of_fmap. by exists (c, Some val).
Qed.

(** X11.  Without a collector job nothing is written.  When the asset is not
    stored, or has no resolved policy, or a resolved policy without a
    collector job, [UpdateData] returns an error that wraps the one of
    [GetCollectorJob] and leaves the datalake as it is, whatever the input
    holds. *)
Theorem UpdateData_without_collector_job assetMrn data db :
  cache db !! akey assetMrn = None
  ∨ (∃ assetw, cache db !! akey assetMrn = Some (IAsset assetw)
       ∧ (wa_ResolvedPolicy assetw = None
          ∨ ∃ resolvedPolicy, wa_ResolvedPolicy assetw = Some resolvedPolicy
                              ∧ rp_CollectorJob resolvedPolicy = None)) →
  ∃ reason,
    GetCollectorJob assetMrn db = (Err (errors_New reason), db)
    ∧ UpdateData Unset Label assetMrn data db
      = (Err (errors_New ("cannot find collectorJob to store data: " +:+ reason)), db).
Proof.
  intros H.
  assert (∃ reason, GetCollectorJob assetMrn db = (Err (errors_New reason), db))
    as [reason Hget].
  { unfold GetCollectorJob, bind, cache_Get. fold (akey assetMrn).
    destruct H as [->|(assetw & -> & [->|(rp & -> & ->)])]; by eexists. }
  exists reason. split; [done|].
  unfold UpdateData, bind, try. by rewrite Hget.
Qed.

End UpdateData_more.

Lemma UpdateData_unknown_datapoint_witness :
  ∃ db',
    UpdateData nul (λ s, s) "a1"
      ([("dp1", Some result_dp1)] ++ ("dp9", Some result_dp1) :: [("dp2", Some result_dp1)])
      db_a1_resolved
    = (Err (errors_New ("cannot find this datapoint to store values: " +:+ "dp9")), db')
    ∧ (∀ k, (∀ c' v', (c', v') ∈ [("dp1", Some result_dp1)] → k ≠ dkey "a1" c') →
         cache db' !! k = cache db_a1_resolved !! k)
    ∧ (admits_all db_a1_resolved → NoDup [("dp1", Some result_dp1)].*1 →
       ∀ c' val, (c', Some val) ∈ [("dp1", Some result_dp1)] →
         rejects nul collector_a1 (c', Some val) = false →
         cache db' !! dkey "a1" c' = Some (IData (Some val))).
Proof.
  apply (UpdateData_unknown_datapoint nul (λ s, s) "a1" asset_a1_resolved resolved_a1
           collector_a1 [("dp1", Some result_dp1)] "dp9" (Some result_dp1)
           [("dp2", Some result_dp1)] db_a1_resolved).
  - reflexivity.
  - reflexivity.
  - reflexivity.
  - intros c v Hin. apply list_elem_of_singleton in Hin. injection Hin as -> ->.
    split; by eexists.
  - reflexivity.
Defined.

Lemma UpdateData_then_GetData_witness :
  ∃ res db' got,
    UpdateData nul (λ s, s) "a1" [("dp1", Some result_dp1)] db_a1_resolved = (Ok res, db')
    ∧ (∀ c t, res !! c = Some t ↔
         c ∈ [("dp1", Some result_dp1)].*1
         ∧ dq_Type <$> lookup_assoc (Datapoints collector_a1) c = Some t)
    ∧ GetData "a1" (map_to_list res) db' = (Ok got, db')
    ∧ (∀ c r, got !! c = Some r ↔
         ∃ val, r = Some val ∧ (c, Some val) ∈ [("dp1", Some result_dp1)]).
Proof.
  apply (UpdateData_then_GetData nul (λ s, s) "a1" asset_a1_resolved resolved_a1
           collector_a1 [("dp1", Some result_dp1)] db_a1_resolved).
  - reflexivity.
  - reflexivity.
  - reflexivity.
  - intros c v Hin. apply list_elem_of_singleton in Hin. injection Hin as -> ->.
    split; by eexists.
  - apply NoDup_singleton.
  - intros e He. apply list_elem_of_singleton in He. by subst e.
  - constructor.
Defined.

Lemma UpdateData_without_collector_job_witness :
  ∃ reason,
    GetCollectorJob "a1" db_a1 = (Err (errors_New reason), db_a1)
    ∧ UpdateData nul (λ s, s) "a1" data_a1 db_a1
      = (Err (errors_New ("cannot find collectorJob to store data: " +:+ reason)), db_a1).
Proof.
  apply (UpdateData_without_collector_job nul (λ s, s) "a1" data_a1 db_a1).
  right. exists asset_a1. split; [reflexivity|by left].
Defined.

(** ** Properties of an entity *)

Lemma load_property_eq l db :
  load_property l db
  = (match properties db !! l with Some p => Ok p | None => Panic end, db).
Proof. unfold load_property. by destruct (properties db !! l). Qed.

Lemma store_Mql_eq l mql db :
  store_Mql l mql db
  = match properties db !! l with
    | Some p => (Ok tt, with_properties (<[l := set_Mql mql p]> (properties db)) db)
    | None => (Panic, db)
    end.
Proof. done. Qed.





Lemma store_Mql_names x mql db l : names_at (store_Mql x mql db).2 l = names_at db l.
Proof.
  rewrite store_Mql_eq. unfold names_at.
  destruct (properties db !! x) as [p|] eqn:E; [|done]. simpl.
  destruct (decide (x = l)) as [->|Hne].
  - by rewrite lookup_insert_eq, E.
  - by rewrite lookup_insert_ne.
Qed.

Lemma SetProps_range_names props :
  ∀ policyw propsIdx db l,
    names_at (SetProps_range props policyw propsIdx db).2 l = names_at db l.
Proof.
  induction props as [|r rest IH]; intros policyw propsIdx db l; [done|].
  simpl. unfold bind. rewrite load_property_eq.
  destruct (properties db !! r) as [cur|]; [|done]. cbn beta iota.
  case_decide; [done|].
  destruct (propsIdx !! _) as [x|]; [|apply IH].
  pose proof (store_Mql_names x (prop_Mql cur) db l) as Hs.
  destruct (store_Mql x (prop_Mql cur) db) as [[[]| | |] db1]; simpl in Hs; try done.
  by rewrite IH.
Qed.

(** X13.  [SetProps] renames no property.  However the call ends, with or
    without error, the datalake holds the property objects it held, each
    with the MRN and UID it had, those of the request included: the only
    field of a property that [SetProps] writes is its query. *)
Theorem SetProps_keeps_names req db l :
  names_at (SetProps req db).2 l = names_at db l.
Proof.
  unfold SetProps, bind.
  pose proof (ensurePolicy_found (req_EntityMrn req) db) as He.
  destruct (ensurePolicy (req_EntityMrn req) false db) as [[policyw| | |] db1];
    simpl in He; subst; try done.
  pose proof (SetProps_index_state (Props policyw) ∅ db) as Hi.
  destruct (SetProps_index (Props policyw) ∅ db) as [[propsIdx| | |] db1];
    simpl in Hi; subst; try done.
  pose proof (SetProps_range_names (req_Props req) policyw propsIdx db l) as Hr.
  by destruct (SetProps_range (req_Props req) policyw propsIdx db) as [[?| | |] db1].
Qed.

(** ** Reasoning about calls *)

Lemma triple_ret {A} (P : Db → Prop) (a : A) (Q : A → Db → Prop) E :
  (∀ db, P db → Q a db) → triple P (ret a) Q E.
Proof. intros H db HP. by apply H. Qed.

Lemma triple_throw {A} (P : Db → Prop) e (Q : A → Db → Prop) (E : Db → Prop) :
  (∀ db, P db → E db) → triple P (throw e) Q E.
Proof. intros H db HP. by apply H. Qed.

Lemma triple_panic {A} (P : Db → Prop) (Q : A → Db → Prop) (E : Db → Prop) :
  (∀ db, P db → E db) → triple P panic Q E.
Proof. intros H db HP. by apply H. Qed.

Lemma triple_diverge {A} (P : Db → Prop) (Q : A → Db → Prop) (E : Db → Prop) :
  (∀ db, P db → E db) → triple P diverge Q E.
Proof. intros H db HP. by apply H. Qed.

Lemma triple_bind {A B} (P : Db → Prop) (m : M A) (Q : A → Db → Prop)
    (k : A → M B) (R : B → Db → Prop) (E : Db → Prop) :
  triple P m Q E → (∀ a, triple (Q a) (k a) R E) → triple P (bind m k) R E.
Proof.
  intros Hm Hk db HP. unfold bind. specialize (Hm db HP).
  destruct (m db) as [[a|e| |] db1]; try done. by apply Hk.
Qed.

Lemma triple_weaken_aux {A} (P : Db → Prop) (m : M A) (Q : A → Db → Prop) (E E' : Db → Prop) :
  triple P m Q E → (∀ db, E db → E' db) → triple P m Q E'.
Proof.
  intros Hm HE db HP. specialize (Hm db HP).
  destruct (m db) as [[a|e| |] db1]; auto.
Qed.

Lemma triple_try {A} (P : Db → Prop) (m : M A) (Q : A + error → Db → Prop) (E : Db → Prop) :
  triple P m (λ a, Q (inl a)) (λ db, E db ∧ ∀ e, Q (inr e) db) →
  triple P (try m) Q E.
Proof.
  intros Hm db HP. unfold try. specialize (Hm db HP).
  destruct (m db) as [[a|e| |] db1]; try done; by destruct Hm.
Qed.

Lemma triple_try_same {A} (P : Db → Prop) (m : M A) :
  triple P m (λ _, P) P → triple P (try m) (λ _, P) P.
Proof. intros Hm. apply triple_try. eapply triple_weaken_aux; [exact Hm|]. done. Qed.

Lemma triple_weaken {A} (P P' : Db → Prop) (m : M A) (Q Q' : A → Db → Prop)
    (E E' : Db → Prop) :
  triple P m Q E →
  (∀ db, P' db → P db) → (∀ a db, Q a db → Q' a db) → (∀ db, E db → E' db) →
  triple P' m Q' E'.
Proof.
  intros Hm HP HQ HE db HP'. specialize (Hm db (HP db HP')).
  destruct (m db) as [[a|e| |] db1]; auto.
Qed.

(** A call that only reads. *)
Lemma triple_read {A} (P : Db → Prop) (m : M A) (Q : A → Db → Prop) :
  (∀ db, (m db).2 = db) →
  (∀ db a, P db → (m db).1 = Ok a → Q a db) →
  triple P m Q P.
Proof.
  intros Hs Hv db HP. specialize (Hs db). specialize (Hv db).
  destruct (m db) as [[a|e| |] db1]; simpl in *; subst; auto.
Qed.

(** ** Views *)

Lemma same_view_refl db : same_view db db.
Proof. by repeat split. Qed.

Lemma same_view_trans db1 db2 db3 :
  same_view db1 db2 → same_view db2 db3 → same_view db1 db3.
Proof.
  intros (H1 & H2 & H3) (H1' & H2' & H3'). repeat split.
  - intros m. by rewrite H1'.
  - congruence.
  - intros l. by rewrite H3'.
Qed.

Lemma same_view_sym db1 db2 : same_view db1 db2 → same_view db2 db1.
Proof. intros (H1 & H2 & H3). by repeat split. Qed.

Lemma refs_at_Some db m r :
  refs_at db m = Some r ↔ ∃ w, policy_at db m = Some w ∧ refs w = r.
Proof.
  unfold refs_at. destruct (policy_at db m) as [w|]; simpl; split.
  - intros [= <-]. by exists w.
  - intros (w' & [= <-] & <-). done.
  - done.
  - by intros (w' & ? & _).
Qed.

Lemma same_view_policy_at db db' m w' :
  same_view db db' → policy_at db' m = Some w' →
  ∃ w, policy_at db m = Some w ∧ refs w = refs w'.
Proof.
  intros (H & _ & _) Hw'. apply refs_at_Some. rewrite <- H. apply refs_at_Some. eauto.
Qed.

Lemma same_view_set_at db db' l : same_view db db' → set_at db' l = set_at db l.
Proof. intros (_ & H & _). unfold set_at. by rewrite H. Qed.

Lemma refs_eq w w' :
  refs w = refs w' →
  wp_Policy w = wp_Policy w' ∧ parents w = parents w' ∧ children w = children w'.
Proof. unfold refs. intros [= ? ? ?]. done. Qed.

Lemma edge_symmetry_view db db' :
  same_view db db' → edge_symmetry db → edge_symmetry db'.
Proof.
  intros Hv Hsym a b wa' wb' Ha Hb.
  destruct (same_view_policy_at _ _ _ _ Hv Ha) as (wa & Ha0 & (_ & _ & Hca)%refs_eq).
  destruct (same_view_policy_at _ _ _ _ Hv Hb) as (wb & Hb0 & (_ & Hpb & _)%refs_eq).
  rewrite !(same_view_set_at _ _ _ Hv), <- Hca, <- Hpb. by apply Hsym.
Qed.

Lemma name_at_Some db l n :
  name_at db l = Some n ↔ ∃ p, policies db !! l = Some p ∧ Mrn p = n.
Proof.
  unfold name_at. destruct (policies db !! l) as [p|]; simpl; split.
  - intros [= <-]. by exists p.
  - intros (p' & [= <-] & <-). done.
  - done.
  - by intros (p' & ? & _).
Qed.

Lemma well_formed_view db db' :
  same_view db db' → well_formed db → well_formed db'.
Proof.
  intros Hv [Halloc Hapart Hnamed Hclosed].
  pose proof Hv as (Hrefs & Hmaps & Hnames).
  split.
  - intros m w' Hw'.
    destruct (same_view_policy_at _ _ _ _ Hv Hw') as (w & Hw & (Hp & Hpa & Hch)%refs_eq).
    destruct (Halloc m w Hw) as (H1 & H2 & [p H3]).
    rewrite Hmaps, <- Hpa, <- Hch, <- Hp. split; [done|split; [done|]].
    assert (Hn : name_at db' (wp_Policy w) = Some (Mrn p)).
    { rewrite Hnames. apply name_at_Some. eauto. }
    apply name_at_Some in Hn as (p' & -> & _). by eexists.
  - intros m1 m2 w1' w2' H1 H2.
    destruct (same_view_policy_at _ _ _ _ Hv H1) as (w1 & Hw1 & (_ & Hpa1 & Hch1)%refs_eq).
    destruct (same_view_policy_at _ _ _ _ Hv H2) as (w2 & Hw2 & (_ & Hpa2 & Hch2)%refs_eq).
    rewrite <- Hpa1, <- Hpa2, <- Hch1, <- Hch2. by eapply Hapart.
  - intros m w' p' Hw' Hp'.
    destruct (same_view_policy_at _ _ _ _ Hv Hw') as (w & Hw & (Hp & _ & _)%refs_eq).
    assert (Hn : name_at db (wp_Policy w) = Some (Mrn p')).
    { rewrite <- Hnames, Hp. apply name_at_Some. eauto. }
    apply name_at_Some in Hn as (p & Hlp & <-). by eapply Hnamed.
  - intros m w' x Hw' Hx.
    destruct (same_view_policy_at _ _ _ _ Hv Hw') as (w & Hw & (_ & Hpa & Hch)%refs_eq).
    rewrite !(same_view_set_at _ _ _ Hv), <- Hpa, <- Hch in Hx.
    destruct (Hclosed m w x Hw Hx) as [wx Hwx].
    assert (Hr : refs_at db' x = Some (refs wx)).
    { rewrite Hrefs. apply refs_at_Some. eauto. }
    apply refs_at_Some in Hr as (wx' & -> & _). by eexists.
Qed.

Lemma held_view db db' w : same_view db db' → held db w → held db' w.
Proof. intros (H & _ & _) [m Hm]. exists m. by rewrite H. Qed.

(** The key under which a held wrapper is stored is the name of its policy
    object. *)
Lemma held_named db w n :
  well_formed db → held db w → name_at db (wp_Policy w) = Some n →
  refs_at db n = Some (refs w).
Proof.
  intros Hwf [m Hm] Hn.
  pose proof Hm as (w0 & Hw0 & (Hp & _ & _)%refs_eq)%refs_at_Some.
  apply name_at_Some in Hn as (p & Hlp & <-).
  rewrite <- Hp in Hlp. by rewrite (wf_named _ Hwf m w0 p Hw0 Hlp).
Qed.

Lemma triple_pure {A} (φ : Prop) (P : Db → Prop) (m : M A) (Q : A → Db → Prop) E :
  (φ → triple P m Q E) → triple (λ db, P db ∧ φ) m Q E.
Proof. intros H db [HP Hφ]. by apply H. Qed.

Ltac triple_pure_intro H :=
  cbv beta;
  lazymatch goal with
  | |- triple (λ db, @?P db ∧ ?φ) _ _ _ => apply (triple_pure φ P); intros H
  end.

Lemma policy_at_stored_policy m w db m' :
  policy_at (stored (pkey m) (IPolicy w) db) m'
  = if decide (m = m') then Some w else policy_at db m'.
Proof.
  unfold policy_at, stored. simpl. case_decide as Hm.
  - subst. by rewrite lookup_insert_eq.
  - rewrite lookup_insert_ne; [done|]. intros Hk. by apply pkey_inj in Hk.
Qed.

Lemma policy_at_stored_other key value db m :
  (∀ m', key ≠ pkey m') →
  policy_at (stored key value db) m = policy_at db m.
Proof.
  intros Hk. unfold policy_at, stored. simpl. by rewrite lookup_insert_ne.
Qed.

Lemma same_view_heaps db db' :
  (∀ m, policy_at db' m = policy_at db m) → maps db' = maps db →
  policies db' = policies db → same_view db db'.
Proof.
  intros Hc Hm Hp. repeat split; [|done|].
  - intros m. unfold refs_at. by rewrite Hc.
  - intros l. unfold name_at. by rewrite Hp.
Qed.

Section View.

(** The datalake whose view the calls below keep. *)
Variable db0 : Db.
Hypothesis wf0 : well_formed db0.

Let V : Db → Prop := same_view db0.

Lemma cache_Set_view m w cost :
  refs_at db0 m = Some (refs w) →
  triple V (cache_Set (pkey m) (IPolicy w) cost) (λ _, V) V.
Proof.
  intros Hm db HV.
  destruct (cache_Set_cases (pkey m) (IPolicy w) cost db) as [(db' & E & _)|E]; rewrite E.
  - eapply same_view_trans; [exact HV|].
    apply cache_Set_refused_heaps in E as (Hc & Hm' & Hp).
    apply same_view_heaps; [|done|done]. intros m'. unfold policy_at. by rewrite Hc.
  - destruct HV as (Hrefs & Hmaps & Hnames). split; [|split; [done|]].
    + intros m'. unfold refs_at at 1. rewrite policy_at_stored_policy.
      case_decide; [subst; by rewrite Hm|]. apply Hrefs.
    + intros l. apply Hnames.
Qed.

Lemma load_policy_view l :
  triple V (load_policy l) (λ p db, V db ∧ name_at db0 l = Some (Mrn p)) V.
Proof.
  intros db HV. unfold load_policy. destruct (policies db !! l) as [p|] eqn:E; [|done].
  split; [done|]. destruct HV as (_ & _ & Hn). rewrite <- Hn.
  apply name_at_Some. eauto.
Qed.

Lemma update_policy_view l f :
  (∀ p, Mrn (f p) = Mrn p) →
  triple V (update_policy l f) (λ _, V) V.
Proof.
  intros Hf db HV. unfold update_policy. destruct (policies db !! l) as [p|] eqn:E; [|done].
  destruct HV as (Hrefs & Hmaps & Hnames). split; [done|split; [done|]].
  intros l'. rewrite <- Hnames. unfold name_at; simpl.
  destruct (decide (l = l')) as [->|Hne].
  - rewrite lookup_insert_eq, E. simpl. by rewrite Hf.
  - by rewrite lookup_insert_ne.
Qed.

Lemma cache_Get_view k :
  triple V (cache_Get (pkey k))
    (λ x db, V db ∧ ∀ w, x = Some (IPolicy w) → refs_at db0 k = Some (refs w)) V.
Proof.
  intros db HV. unfold cache_Get. split; [done|].
  intros w Hw. destruct HV as (Hrefs & _ & _). rewrite <- Hrefs.
  unfold refs_at, policy_at. by rewrite Hw.
Qed.

Lemma GetRawPolicy_view mrn : triple V (GetRawPolicy mrn) (λ _, V) V.
Proof.
  intros db HV. unfold GetRawPolicy, bind, cache_Get.
  by destruct (cache db !! (dbIDPolicy +:+ mrn)) as [[?|?|?|?]|].
Qed.

Lemma map_keys_view l : triple V (map_keys l) (λ _, V) V.
Proof. by intros db HV. Qed.

Lemma get_db_view : triple V get_db (λ _, V) V.
Proof. by intros db HV. Qed.

Lemma set_Sums_Mrn s p : Mrn (set_Sums s p) = Mrn p.
Proof. done. Qed.

Section Routines.

Variable ComputeAssetFilters : Db → Policy → list Mquery + error.
Variable UpdateChecksums : Db → nat → gmap nat Checksums + error.

Lemma UpdateChecksums_call_view l :
  triple V (UpdateChecksums_call UpdateChecksums l) (λ _, V) V.
Proof.
  intros db HV. unfold UpdateChecksums_call.
  destruct (UpdateChecksums db l) as [sums|e]; [|done].
  destruct HV as (Hrefs & Hmaps & Hnames). split; [done|split; [done|]].
  intros l'. rewrite <- Hnames. unfold name_at; simpl.
  rewrite map_lookup_imap. destruct (policies db !! l') as [p|]; [|done].
  simpl. by destruct (sums !! l').
Qed.

Lemma refreshAssetFilters_deps_view policyObj depMrns :
  triple V (refreshAssetFilters_deps policyObj depMrns) (λ _, V) V.
Proof.
  induction depMrns as [|mrn rest IH]; [by apply triple_ret|].
  simpl. eapply triple_bind.
  { apply triple_try_same, GetRawPolicy_view. }
  intros [depl|err]; [|by apply triple_throw].
  eapply triple_bind; [apply load_policy_view|].
  intros dep. triple_pure_intro Hpure.
  destruct (Filters dep) as [items|]; [|exact IH].
  eapply triple_bind; [by apply update_policy_view|].
  intros ?; cbv beta. exact IH.
Qed.

Lemma refreshAssetFilters_view policyw :
  held db0 policyw →
  triple V (refreshAssetFilters ComputeAssetFilters policyw) (λ _, V) V.
Proof.
  intros Hheld. unfold refreshAssetFilters.
  eapply triple_bind; [apply load_policy_view|].
  intros p. triple_pure_intro Hname.
  eapply triple_bind; [apply get_db_view|].
  intros db. destruct (ComputeAssetFilters db p) as [filters|err]; [|by apply triple_throw].
  eapply triple_bind; [by apply update_policy_view|].
  intros ?; cbv beta. eapply triple_bind; [apply refreshAssetFilters_deps_view|].
  intros ?; cbv beta. eapply triple_bind.
  { apply (cache_Set_view (Mrn p)). by apply held_named. }
  intros [|]; [by apply triple_ret|by apply triple_throw].
Qed.

Lemma checkAndInvalidatePolicyBundle_view wrap :
  held db0 wrap →
  triple V (checkAndInvalidatePolicyBundle wrap)
    (λ wrap' db, V db ∧ refs wrap' = refs wrap) V.
Proof.
  intros Hheld. unfold checkAndInvalidatePolicyBundle.
  eapply triple_bind; [apply load_policy_view|].
  intros p. triple_pure_intro Hname.
  eapply triple_bind.
  { apply (cache_Set_view (Mrn p)).
    change (refs (set_invalidated true wrap)) with (refs wrap). by apply held_named. }
  intros [|]; [by apply triple_ret|by apply triple_throw].
Qed.

Lemma load_parents_view ks needsUpdate :
  (∀ k w, needsUpdate !! k = Some w → held db0 w) →
  triple V (load_parents ks needsUpdate)
    (λ needsUpdate' db, V db ∧ ∀ k w, needsUpdate' !! k = Some w → held db0 w) V.
Proof.
  revert needsUpdate. induction ks as [|k rest IH]; intros needsUpdate Hall.
  - by apply triple_ret.
  - simpl. eapply triple_bind; [apply cache_Get_view|].
    intros x. triple_pure_intro Hx.
    destruct x as [[w|?|?|?]|]; try (by apply triple_panic); [|by apply triple_throw].
    apply IH. intros k' w' Hk'.
    destruct (decide (k = k')) as [->|Hne].
    + rewrite lookup_insert_eq in Hk'. simplify_eq. exists k'. by apply Hx.
    + rewrite lookup_insert_ne in Hk' by done. by eapply Hall.
Qed.

Lemma nth_mod_elem {A} (n : nat) (x : A) (l : list A) :
  nth (n mod length (x :: l)) (x :: l) x ∈ x :: l.
Proof.
  apply list_elem_of_In, nth_In. apply Nat.mod_upper_bound. simpl. lia.
Qed.

Lemma refreshDependent_loop_view sched needsUpdate :
  (∀ k w, needsUpdate !! k = Some w → held db0 w) →
  triple V (refreshDependent_loop ComputeAssetFilters UpdateChecksums sched needsUpdate)
    (λ _, V) V.
Proof.
  revert needsUpdate. induction sched as [|n sched IH]; intros needsUpdate Hall.
  - simpl. destruct (map_to_list needsUpdate); [by apply triple_ret|by apply triple_diverge].
  - cbn [refreshDependent_loop].
    destruct (map_to_list needsUpdate) as [|first others] eqn:E;
      [by apply triple_ret|].
    cbv zeta.
    pose proof (nth_mod_elem n first others) as Hin.
    destruct (nth (n mod length (first :: others)) (first :: others) first)
      as [k policyw].
    rewrite <- E in Hin. apply elem_of_map_to_list in Hin.
    assert (Hheld : held db0 policyw) by by eapply Hall.
    eapply triple_bind; [by apply refreshAssetFilters_view|].
    intros ?; cbv beta. eapply triple_bind; [by apply update_policy_view|].
    intros ?; cbv beta. eapply triple_bind; [apply UpdateChecksums_call_view|].
    intros ?; cbv beta. eapply triple_bind; [apply load_policy_view|].
    intros p. triple_pure_intro Hname.
    eapply triple_bind.
    { apply (cache_Set_view (Mrn p)). by apply held_named. }
    intros ?; cbv beta. eapply triple_bind; [by apply checkAndInvalidatePolicyBundle_view|].
    intros policyw'. triple_pure_intro Hrefs.
    eapply triple_bind; [apply map_keys_view|].
    intros ks. eapply triple_bind; [by apply load_parents_view|].
    intros needsUpdate'. triple_pure_intro Hall'.
    apply IH. intros k' w' Hk'.
    apply lookup_delete_Some in Hk' as [_ Hk']. by eapply Hall'.
Qed.

Lemma refreshDependentAssetFilters_view sched startPolicy :
  triple V (refreshDependentAssetFilters ComputeAssetFilters UpdateChecksums sched startPolicy)
    (λ _, V) V.
Proof.
  unfold refreshDependentAssetFilters.
  eapply triple_bind; [apply map_keys_view|].
  intros ks. eapply triple_bind.
  { apply load_parents_view. intros k w Hk. by rewrite lookup_empty in Hk. }
  intros needsUpdate. triple_pure_intro Hall.
  by apply refreshDependent_loop_view.
Qed.

End Routines.

End View.

(** ** Edges *)

Lemma set_at_with_maps m db l :
  set_at (with_maps m db) l = default ∅ (m !! l).
Proof. done. Qed.

Lemma policy_at_with_maps m db k : policy_at (with_maps m db) k = policy_at db k.
Proof. done. Qed.

Lemma elem_of_edit add k s x :
  x ∈ edit add k s ↔ (if add then x = k ∨ x ∈ s else x ∈ s ∧ x ≠ k).
Proof.
  unfold edit. destruct add.
  - by rewrite elem_of_union, elem_of_singleton.
  - by rewrite elem_of_difference, elem_of_singleton.
Qed.

(** Adding or removing the edge from [T] to [X] at both of its ends keeps
    the graph sound. *)
Lemma graph_edit add db T X wT wX :
  graph_ok db → policy_at db T = Some wT → policy_at db X = Some wX →
  graph_ok
    (with_maps (<[parents wX := edit add T (set_at db (parents wX))]>
                  (<[children wT := edit add X (set_at db (children wT))]> (maps db))) db).
Proof.
  intros [Hwf Hsym] HT HX.
  set (m' := <[parents wX := _]> (<[children wT := _]> (maps db))).
  destruct (wf_apart _ Hwf X T wX wT HX HT) as [Hpc _].
  (* the sets of the stored policies after the change *)
  assert (Hch : ∀ a wa, policy_at db a = Some wa →
            set_at (with_maps m' db) (children wa)
            = if decide (a = T) then edit add X (set_at db (children wT))
              else set_at db (children wa)).
  { intros a wa Ha. rewrite set_at_with_maps. unfold m'.
    destruct (wf_apart _ Hwf X a wX wa HX Ha) as [Hne _].
    rewrite lookup_insert_ne by done.
    case_decide as HaT.
    - subst a. simplify_eq. by rewrite lookup_insert_eq.
    - destruct (wf_apart _ Hwf a T wa wT Ha HT) as [_ Hne'].
      destruct (Hne' HaT) as [_ Hcc]. by rewrite lookup_insert_ne. }
  assert (Hpa : ∀ b wb, policy_at db b = Some wb →
            set_at (with_maps m' db) (parents wb)
            = if decide (b = X) then edit add T (set_at db (parents wX))
              else set_at db (parents wb)).
  { intros b wb Hb. rewrite set_at_with_maps. unfold m'.
    case_decide as HbX.
    - subst b. simplify_eq. by rewrite lookup_insert_eq.
    - destruct (wf_apart _ Hwf b X wb wX Hb HX) as [_ Hne'].
      destruct (Hne' HbX) as [Hpp _]. rewrite lookup_insert_ne by done.
      destruct (wf_apart _ Hwf b T wb wT Hb HT) as [Hne _].
      by rewrite lookup_insert_ne. }
  split; [split|].
  - intros m w Hw. rewrite policy_at_with_maps in Hw.
    destruct (wf_alloc _ Hwf m w Hw) as (H1 & H2 & H3).
    split; [|split; [|done]]; simpl; unfold m'.
    + destruct (decide (parents wX = parents w)) as [->|?];
        [rewrite lookup_insert_eq; by eexists|rewrite lookup_insert_ne by done].
      destruct (decide (children wT = parents w)) as [->|?];
        [rewrite lookup_insert_eq; by eexists|by rewrite lookup_insert_ne].
    + destruct (decide (parents wX = children w)) as [->|?];
        [rewrite lookup_insert_eq; by eexists|rewrite lookup_insert_ne by done].
      destruct (decide (children wT = children w)) as [->|?];
        [rewrite lookup_insert_eq; by eexists|by rewrite lookup_insert_ne].
  - intros m1 m2 w1 w2 H1 H2. by eapply (wf_apart _ Hwf).
  - intros m w p Hw Hp. by eapply (wf_named _ Hwf).
  - intros m w x Hw Hx. rewrite policy_at_with_maps in Hw |- *.
    rewrite (Hch m w Hw), (Hpa m w Hw) in Hx.
    apply elem_of_union in Hx as [Hx|Hx].
    + case_decide; [subst m; simplify_eq|].
      * apply elem_of_edit in Hx. destruct add.
        -- destruct Hx as [->|Hx]; [by eexists|].
           eapply (wf_closed _ Hwf T); [exact HT|]. apply elem_of_union. by left.
        -- destruct Hx as [Hx _].
           eapply (wf_closed _ Hwf T); [exact HT|]. apply elem_of_union. by left.
      * eapply (wf_closed _ Hwf m w); [done|]. apply elem_of_union. by left.
    + case_decide; [subst m; simplify_eq|].
      * apply elem_of_edit in Hx. destruct add.
        -- destruct Hx as [->|Hx]; [by eexists|].
           eapply (wf_closed _ Hwf X); [exact HX|]. apply elem_of_union. by right.
        -- destruct Hx as [Hx _].
           eapply (wf_closed _ Hwf X); [exact HX|]. apply elem_of_union. by right.
      * eapply (wf_closed _ Hwf m w); [done|]. apply elem_of_union. by right.
  - intros a b wa wb Ha Hb. rewrite policy_at_with_maps in Ha, Hb.
    rewrite (Hch a wa Ha), (Hpa b wb Hb).
    specialize (Hsym a b wa wb Ha Hb).
    repeat case_decide; subst; simplify_eq; rewrite ?elem_of_edit;
      destruct add; intuition congruence.
Qed.

Lemma graph_ok_view db db' : same_view db db' → graph_ok db → graph_ok db'.
Proof.
  intros Hv [Hwf Hsym]. split; [by eapply well_formed_view|by eapply edge_symmetry_view].
Qed.

(** [m[k] = struct{}{}] or [delete(m, k)] on the Go map at [l]. *)
Definition map_edit (add : bool) (l : nat) (k : string) : M unit :=
  if add then map_add l k else map_delete l k.

Lemma map_edit_alloc add l k s db :
  maps db !! l = Some s →
  map_edit add l k db = (Ok tt, with_maps (<[l := edit add k s]> (maps db)) db).
Proof.
  intros H. unfold map_edit, map_add, map_delete, edit. destruct add; by rewrite H.
Qed.

(** The two map writes of one delta, on a sound graph. *)
Lemma edge_step add T X policyw childw db :
  graph_ok db → refs_at db T = Some (refs policyw) → policy_at db X = Some childw →
  ∃ db1 db2,
    map_edit add (children policyw) X db = (Ok tt, db1)
    ∧ map_edit add (parents childw) T db1 = (Ok tt, db2)
    ∧ graph_ok db2
    ∧ refs_at db2 T = Some (refs policyw)
    ∧ policy_at db2 X = Some childw.
Proof.
  intros Hok HT HX.
  pose proof HT as (wT & HwT & (_ & _ & Hc)%refs_eq)%refs_at_Some.
  destruct Hok as [Hwf Hsym].
  destruct (wf_alloc _ Hwf T wT HwT) as (_ & [sc Hsc] & _).
  destruct (wf_alloc _ Hwf X childw HX) as ([sp Hsp] & _ & _).
  destruct (wf_apart _ Hwf X T childw wT HX HwT) as [Hne _].
  rewrite <- Hc.
  eexists _, _. split; [by apply map_edit_alloc|].
  split.
  { apply map_edit_alloc. simpl. rewrite lookup_insert_ne by done. exact Hsp. }
  pose proof (graph_edit add db T X wT childw (conj Hwf Hsym) HwT HX) as Hok'.
  unfold set_at in Hok'. rewrite Hsc, Hsp in Hok'. simpl in Hok'.
  split; [|done].
  replace (with_maps _ (with_maps _ db)) with
    (with_maps (<[parents childw := edit add T sp]>
                  (<[children wT := edit add X sc]> (maps db))) db); done.
Qed.

(** Writing back a wrapper under the key it is stored at. *)
Lemma cache_Set_held m w cost db :
  well_formed db → refs_at db m = Some (refs w) →
  same_view db (cache_Set (pkey m) (IPolicy w) cost db).2.
Proof.
  intros Hwf Hm.
  pose proof (cache_Set_view db m w cost Hm db (same_view_refl db)) as H.
  by destruct (cache_Set (pkey m) (IPolicy w) cost db) as [[?| | |] ?].
Qed.

Lemma MutatePolicy_range_ok T policyw deltas :
  ∀ idx changed,
  triple (λ db, graph_ok db ∧ refs_at db T = Some (refs policyw))
    (MutatePolicy_range T policyw deltas idx changed)
    (λ _ db, graph_ok db ∧ refs_at db T = Some (refs policyw))
    graph_ok.
Proof.
  induction deltas as [|[X d] rest IH]; intros idx changed.
  { by apply triple_ret. }
  assert (Hstep : ∀ add idx' db,
    graph_ok db → refs_at db T = Some (refs policyw) →
    match
      (do x <- cache_Get (dbIDPolicy +:+ X);
       match x with
       | None => throw (child_not_found X)
       | Some (IPolicy childw) =>
           do _ <- map_edit add (children policyw) X;
           do _ <- map_edit add (parents childw) T;
           do ok <- cache_Set (dbIDPolicy +:+ X) (IPolicy childw) 2;
           if negb ok then throw (child_not_saved X)
           else MutatePolicy_range T policyw rest idx' true
       | Some _ => panic
       end) db
    with
    | (Ok _, db') => graph_ok db' ∧ refs_at db' T = Some (refs policyw)
    | (_, db') => graph_ok db'
    end).
  { intros add idx' db Hok HT. unfold bind at 1. unfold cache_Get.
    fold (pkey X).
    destruct (cache db !! pkey X) as [[childw|?|?|?]|] eqn:E; try done.
    assert (HX : policy_at db X = Some childw) by (unfold policy_at; by rewrite E).
    destruct (edge_step add T X policyw childw db Hok HT HX)
      as (db1 & db2 & E1 & E2 & Hok2 & HT2 & HX2).
    unfold bind at 1. rewrite E1. unfold bind at 1. rewrite E2. unfold bind at 1.
    assert (HrX : refs_at db2 X = Some (refs childw)) by (apply refs_at_Some; eauto).
    pose proof (cache_Set_held X childw 2 db2 (proj1 Hok2) HrX) as Hv.
    destruct (cache_Set (pkey X) (IPolicy childw) 2 db2) as [[ok| | |] db3];
      simpl in Hv; try (by eapply graph_ok_view).
    assert (Hok3 : graph_ok db3) by by eapply graph_ok_view.
    assert (HT3 : refs_at db3 T = Some (refs policyw)).
    { destruct Hv as (Hr & _ & _). by rewrite Hr. }
    destruct ok; simpl; [|done].
    by apply (IH idx' true db3). }
  intros db [Hok HT]. cbn [MutatePolicy_range].
  destruct (Action d).
  - destruct (idx !! X); [by apply IH|].
    by apply (Hstep true).
  - by apply (Hstep false).
  - done.
Qed.

(** ** A new asset policy *)

(** New objects at fresh locations do not disturb the graph. *)
Lemma graph_ok_alloc db db' :
  (∀ m, policy_at db' m = policy_at db m) →
  (∀ l s, maps db !! l = Some s → maps db' !! l = Some s) →
  (∀ l p, policies db !! l = Some p → policies db' !! l = Some p) →
  graph_ok db → graph_ok db'.
Proof.
  intros Hc Hm Hp [Hwf Hsym].
  assert (Hpar : ∀ m w, policy_at db m = Some w → set_at db' (parents w) = set_at db (parents w)).
  { intros m w Hw. destruct (wf_alloc _ Hwf m w Hw) as ([s Hs] & _ & _).
    unfold set_at. by rewrite Hs, (Hm _ _ Hs). }
  assert (Hchi : ∀ m w, policy_at db m = Some w → set_at db' (children w) = set_at db (children w)).
  { intros m w Hw. destruct (wf_alloc _ Hwf m w Hw) as (_ & [s Hs] & _).
    unfold set_at. by rewrite Hs, (Hm _ _ Hs). }
  split; [split|].
  - intros m w Hw. rewrite Hc in Hw.
    destruct (wf_alloc _ Hwf m w Hw) as ([s1 H1] & [s2 H2] & [p H3]).
    rewrite (Hm _ _ H1), (Hm _ _ H2), (Hp _ _ H3). by repeat split; eexists.
  - intros m1 m2 w1 w2 H1 H2. rewrite Hc in H1, H2. by eapply (wf_apart _ Hwf).
  - intros m w p Hw Hlp. rewrite Hc in Hw.
    destruct (wf_alloc _ Hwf m w Hw) as (_ & _ & [p0 H3]).
    rewrite (Hp _ _ H3) in Hlp. simplify_eq. by eapply (wf_named _ Hwf).
  - intros m w x Hw Hx. rewrite Hc in Hw |- *.
    rewrite (Hpar m w Hw), (Hchi m w Hw) in Hx. by eapply (wf_closed _ Hwf).
  - intros a b wa wb Ha Hb. rewrite Hc in Ha, Hb.
    rewrite (Hchi a wa Ha), (Hpar b wb Hb). by apply Hsym.
Qed.

(** Storing a wrapper for a policy that was not stored, with empty maps of
    its own. *)
Lemma graph_ok_new_policy db T w obj :
  graph_ok db → policy_at db T = None →
  maps db !! parents w = Some ∅ → maps db !! children w = Some ∅ →
  parents w ≠ children w →
  policies db !! wp_Policy w = Some obj → Mrn obj = T →
  (∀ m w', policy_at db m = Some w' →
     parents w' ≠ parents w ∧ parents w' ≠ children w
     ∧ children w' ≠ parents w ∧ children w' ≠ children w) →
  graph_ok (stored (pkey T) (IPolicy w) db).
Proof.
  intros [Hwf Hsym] Hnone Hp Hc Hpc Hobj Hname Hfresh.
  set (db' := stored (pkey T) (IPolicy w) db).
  assert (Hat : ∀ m, policy_at db' m = if decide (T = m) then Some w else policy_at db m)
    by apply policy_at_stored_policy.
  assert (Hset : ∀ l, set_at db' l = set_at db l) by done.
  assert (HsT : set_at db (parents w) = ∅ ∧ set_at db (children w) = ∅).
  { unfold set_at. by rewrite Hp, Hc. }
  destruct HsT as [HpT HcT].
  assert (Hnot : ∀ m w' x, policy_at db m = Some w' →
            x ∈ set_at db (children w') ∪ set_at db (parents w') → x ≠ T).
  { intros m w' x Hw' Hx ->. destruct (wf_closed _ Hwf m w' T Hw' Hx) as [? Hs].
    by rewrite Hnone in Hs. }
  split; [split|].
  - intros m w' Hw'. rewrite Hat in Hw'. case_decide; [simplify_eq|].
    + split; [by eexists|split; by eexists].
    + by eapply (wf_alloc _ Hwf).
  - intros m1 m2 w1 w2 H1 H2. rewrite Hat in H1, H2.
    repeat case_decide; simplify_eq.
    + split; [done|]. intros Hne. by destruct Hne.
    + destruct (Hfresh _ _ H1) as (? & ? & ? & ?). split; [done|]. by intros _.
    + destruct (Hfresh _ _ H2) as (? & ? & ? & ?). split; [done|]. by intros _.
    + by eapply (wf_apart _ Hwf).
  - intros m w' p Hw' Hlp. rewrite Hat in Hw'. case_decide; [simplify_eq|].
    + change (policies db' !! wp_Policy w' = Some p) in Hlp.
      unfold db', stored in Hlp. simpl in Hlp. by simplify_eq.
    + by eapply (wf_named _ Hwf).
  - intros m w' x Hw' Hx. rewrite Hat in Hw'. rewrite !Hset in Hx. rewrite Hat.
    destruct (decide (T = x)); [by eexists|].
    destruct (decide (T = m)); [simplify_eq|].
    + rewrite HpT, HcT in Hx. apply elem_of_union in Hx as [Hx|Hx]; by apply elem_of_empty in Hx.
    + by eapply (wf_closed _ Hwf).
  - intros a b wa wb Ha Hb. rewrite Hat in Ha, Hb. rewrite !Hset.
    destruct (decide (T = a)) as [<-|Ha']; destruct (decide (T = b)) as [<-|Hb'].
    + injection Ha as <-. injection Hb as <-. by rewrite HpT, HcT.
    + injection Ha as <-. rewrite HcT. split; [by intros ?%elem_of_empty|].
      intros Hin. exfalso. eapply (Hnot b wb T); [done| |done].
      apply elem_of_union. by right.
    + injection Hb as <-. rewrite HpT. split; [|by intros ?%elem_of_empty].
      intros Hin. exfalso. eapply (Hnot a wa T); [done| |done].
      apply elem_of_union. by left.
    + by apply Hsym.
Qed.

Lemma ensureAsset_ok T :
  triple (λ db, graph_ok db ∧ policy_at db T = None)
    (ensureAsset T)
    (λ r db, graph_ok db ∧ refs_at db T = Some (refs r.2))
    graph_ok.
Proof.
  intros db [Hok Hnone]. unfold ensureAsset.
  set (lp := fresh (dom (policies db))).
  set (l1 := fresh (dom (maps db))).
  set (l2 := fresh ({[l1]} ∪ dom (maps db))).
  set (obj := {| Mrn := T; Groups := _; Filters := None; Sums := Checksums_zero |}).
  set (policyw := {| wp_Policy := lp; parents := l1; children := l2;
                     Props := []; invalidated := false |}).
  set (dba := with_maps _ (with_policies _ db)).
  assert (Hlp : lp ∉ dom (policies db)) by apply is_fresh.
  assert (Hl1 : l1 ∉ dom (maps db)) by apply is_fresh.
  assert (Hl2 : l2 ∉ ({[l1]} ∪ dom (maps db) : gset nat)) by apply is_fresh.
  assert (Hl12 : l1 ≠ l2) by set_solver.
  assert (Hl2' : l2 ∉ dom (maps db)) by set_solver.
  assert (Hmaps : ∀ l s, maps db !! l = Some s → maps dba !! l = Some s).
  { intros l s Hs. simpl.
    assert (l ∈ dom (maps db)) by (apply elem_of_dom; by eexists).
    rewrite !lookup_insert_ne by congruence. done. }
  assert (Hoka : graph_ok dba).
  { apply (graph_ok_alloc db); [done|exact Hmaps| |done].
    intros l p Hp. simpl.
    assert (l ∈ dom (policies db)) by (apply elem_of_dom; by eexists).
    rewrite lookup_insert_ne by congruence. done. }
  unfold bind at 1.
  destruct (cache_Set_cases (pkey T) (IPolicy policyw) 2 dba) as [(db1 & E & _)|E];
    fold (pkey T); rewrite E; simpl.
  { apply cache_Set_refused_heaps in E as (Hc & Hm & Hp).
    eapply graph_ok_view; [|exact Hoka].
    apply same_view_heaps; [|done|done]. intros m. unfold policy_at. by rewrite Hc. }
  assert (Hokb : graph_ok (stored (pkey T) (IPolicy policyw) dba)).
  { apply (graph_ok_new_policy dba T policyw obj); try done.
    - simpl. by rewrite lookup_insert_ne, lookup_insert_eq.
    - simpl. by rewrite lookup_insert_eq.
    - simpl. by rewrite lookup_insert_eq.
    - intros m w' Hw'. destruct Hok as [Hwf _].
      destruct (wf_alloc _ Hwf m w' Hw') as (Hp%elem_of_dom & Hc%elem_of_dom & _).
      simpl. repeat split; congruence. }
  assert (HrT : refs_at (stored (pkey T) (IPolicy policyw) dba) T = Some (refs policyw)).
  { unfold refs_at. rewrite policy_at_stored_policy. by rewrite decide_True. }
  set (dbb := stored (pkey T) (IPolicy policyw) dba) in *.
  unfold bind at 1. fold (akey T).
  match goal with |- context [cache_Set (akey T) ?v 1 dbb] =>
    destruct (cache_Set_cases (akey T) v 1 dbb) as [(db1 & E' & _)|E']; rewrite E'; simpl end.
  { apply cache_Set_refused_heaps in E' as (Hc & Hm & Hp).
    eapply graph_ok_view; [|exact Hokb].
    apply same_view_heaps; [|done|done]. intros m. unfold policy_at. by rewrite Hc. }
  match goal with |- graph_ok ?d ∧ _ => assert (Hv : same_view dbb d) end.
  { apply same_view_heaps; [|done|done]. intros m.
    apply policy_at_stored_other. intros m'. apply akey_pkey. }
  split; [by eapply graph_ok_view|].
  destruct Hv as (Hr & _ & _). by rewrite Hr.
Qed.

Lemma ensurePolicy_ok T createIfMissing :
  triple graph_ok (ensurePolicy T createIfMissing)
    (λ w db, graph_ok db ∧ refs_at db T = Some (refs w))
    graph_ok.
Proof.
  intros db Hok. unfold ensurePolicy. unfold bind at 1. unfold cache_Get.
  fold (pkey T).
  destruct (cache db !! pkey T) as [[w|?|?|?]|] eqn:E; try done.
  - split; [done|]. unfold refs_at, policy_at. by rewrite E.
  - destruct createIfMissing; simpl; [|done].
    assert (Hnone : policy_at db T = None) by (unfold policy_at; by rewrite E).
    pose proof (ensureAsset_ok T db (conj Hok Hnone)) as H.
    unfold bind. by destruct (ensureAsset T db) as [[[assetw policyw]| | |] db1].
Qed.

(** ** Edge symmetry *)

Lemma with_admission_view answers db : same_view db (with_admission answers db).
Proof. by apply same_view_heaps. Qed.

Section Graph.

Variable ComputeAssetFilters : Db → Policy → list Mquery + error.
Variable UpdateChecksums : Db → nat → gmap nat Checksums + error.

(** The part of [MutatePolicy] after its loop keeps the view of the
    datalake it starts from. *)
Lemma MutatePolicy_tail_view db0 sched T policyw refs :
  well_formed db0 → refs_at db0 T = Some (Datalake.refs policyw) →
  triple (same_view db0)
    (do _ <- update_policy (wp_Policy policyw) (set_group_Policies refs);
     do _ <- refreshAssetFilters ComputeAssetFilters policyw;
     do _ <- update_policy (wp_Policy policyw) InvalidateExecutionChecksums;
     do _ <- UpdateChecksums_call UpdateChecksums (wp_Policy policyw);
     do ok <- cache_Set (dbIDPolicy +:+ T) (IPolicy policyw) 2;
     if negb ok then throw (errors_New "")
     else
       do policyw' <- checkAndInvalidatePolicyBundle policyw;
       do _ <- refreshDependentAssetFilters ComputeAssetFilters UpdateChecksums sched policyw';
       ret (wp_Policy policyw))
    (λ _, same_view db0) (same_view db0).
Proof.
  intros Hwf HT.
  assert (Hheld : held db0 policyw) by by exists T.
  eapply triple_bind; [by apply update_policy_view|].
  intros ?; cbv beta. eapply triple_bind; [by apply refreshAssetFilters_view|].
  intros ?; cbv beta. eapply triple_bind; [by apply update_policy_view|].
  intros ?; cbv beta. eapply triple_bind; [by apply UpdateChecksums_call_view|].
  intros ?; cbv beta. eapply triple_bind; [by apply (cache_Set_view db0 T)|].
  intros [|]; simpl; [|by apply triple_throw].
  eapply triple_bind; [by apply checkAndInvalidatePolicyBundle_view|].
  intros policyw'. triple_pure_intro Hrefs.
  eapply triple_bind; [by apply refreshDependentAssetFilters_view|].
  intros ?; cbv beta. by apply triple_ret.
Qed.

(** However a [MutatePolicy] call ends, it leaves a sound graph sound. *)
Lemma MutatePolicy_ok sched mutation createIfMissing :
  triple graph_ok
    (MutatePolicy ComputeAssetFilters UpdateChecksums sched mutation createIfMissing)
    (λ _, graph_ok) graph_ok.
Proof.
  unfold MutatePolicy.
  eapply triple_bind; [apply ensurePolicy_ok|].
  intros policyw. cbv beta.
  eapply triple_bind.
  { eapply triple_weaken_aux.
    - apply (triple_read _ _ (λ _ db, graph_ok db
                                 ∧ refs_at db (PolicyMrn mutation) = Some (refs policyw))).
      + intros db. unfold load_policy. by destruct (policies db !! _).
      + by intros db p H _.
    - by intros db [H _]. }
  intros p. cbv beta.
  destruct (Groups p) as [|group groups].
  { apply triple_throw. by intros db [? _]. }
  eapply triple_bind.
  { apply MutatePolicy_range_ok. }
  intros [idx changed]. destruct changed; simpl.
  - intros db1 [Hok HT].
    pose proof (MutatePolicy_tail_view db1 sched (PolicyMrn mutation) policyw
                  (map snd (map_to_list idx)) (proj1 Hok) HT db1 (same_view_refl db1)) as H.
    match goal with |- match ?m db1 with _ => _ end =>
      match type of H with match ?m' db1 with _ => _ end => change m with m' end end.
    match type of H with match ?m db1 with _ => _ end =>
      destruct (m db1) as [[?| | |] db2] end; by eapply graph_ok_view.
  - apply triple_ret. by intros db [? _].
Qed.

(** C1.  Start from a datalake whose wrappers are well formed and whose
    edges are symmetric.  After any sequence of [MutatePolicy] calls that
    returned (without error, and also with calls in between that returned
    an error), for every pair of stored policies [(a, b)], [b] is among the
    children of [a] iff [a] is among the parents of [b]. *)
Theorem edge_symmetry_invariant db0 db :
  well_formed db0 → edge_symmetry db0 →
  reachable ComputeAssetFilters UpdateChecksums db0 db →
  ∀ a b wa wb,
    policy_at db a = Some wa → policy_at db b = Some wb →
    (b ∈ set_at db (children wa) ↔ a ∈ set_at db (parents wb)).
Proof.
  intros Hwf Hsym Hreach.
  assert (Hok : graph_ok db); [|by destruct Hok].
  induction Hreach as [|db answers sched mutation createIfMissing p db' _ IH Hrun
                        |db answers sched mutation createIfMissing e db' _ IH Hrun].
  - done.
  - pose proof (MutatePolicy_ok sched mutation createIfMissing (with_admission answers db)) as H.
    rewrite Hrun in H. apply H.
    eapply graph_ok_view; [apply with_admission_view|exact IH].
  - pose proof (MutatePolicy_ok sched mutation createIfMissing (with_admission answers db)) as H.
    rewrite Hrun in H. apply H.
    eapply graph_ok_view; [apply with_admission_view|exact IH].
Qed.

End Graph.

(** The sample datalake [db_policies] is sound. *)
Lemma db_policies_stored m w :
  policy_at db_policies m = Some w →
  (m = "a1" ∧ w = wrap 0 0 1) ∨ (m = "pA" ∧ w = wrap 1 2 3) ∨ (m = "pB" ∧ w = wrap 2 4 5).
Proof.
  unfold policy_at, db_policies. simpl.
  rewrite !lookup_insert, lookup_empty.
  repeat case_decide; try done; intros [= <-].
  - left. split; [|done]. by apply pkey_inj.
  - right; left. split; [|done]. by apply pkey_inj.
  - right; right. split; [|done]. by apply pkey_inj.
Qed.

Lemma db_policies_ok : well_formed db_policies ∧ edge_symmetry db_policies.
Proof.
  split; [split|].
  - intros m w [[-> ->]|[[-> ->]|[-> ->]]]%db_policies_stored;
      repeat split; by eexists.
  - intros m1 m2 w1 w2
      [[-> ->]|[[-> ->]|[-> ->]]]%db_policies_stored
      [[-> ->]|[[-> ->]|[-> ->]]]%db_policies_stored;
      (split; [done|]); intros Hne; try done; by split.
  - intros m w p [[-> ->]|[[-> ->]|[-> ->]]]%db_policies_stored;
      simpl; intros [= <-]; done.
  - intros m w x [[-> ->]|[[-> ->]|[-> ->]]]%db_policies_stored; simpl.
    + change (x ∈ ({["pA"]} : gset string) ∪ ∅ → is_Some (policy_at db_policies x)).
      rewrite elem_of_union, elem_of_singleton.
      intros [->|[]%elem_of_empty]. by eexists.
    + change (x ∈ (∅ : gset string) ∪ {["a1"]} → is_Some (policy_at db_policies x)).
      rewrite elem_of_union, elem_of_singleton.
      intros [[]%elem_of_empty| ->]. by eexists.
    + change (x ∈ (∅ : gset string) ∪ ∅ → is_Some (policy_at db_policies x)).
      rewrite elem_of_union. by intros [[]%elem_of_empty|[]%elem_of_empty].
  - intros a b wa wb
      [[-> ->]|[[-> ->]|[-> ->]]]%db_policies_stored
      [[-> ->]|[[-> ->]|[-> ->]]]%db_policies_stored;
      simpl;
      match goal with
      | |- ?x ∈ set_at _ ?l ↔ ?y ∈ set_at _ ?l' =>
          let s := eval vm_compute in (set_at db_policies l) in
          let s' := eval vm_compute in (set_at db_policies l') in
          change (x ∈ s ↔ y ∈ s')
      end;
      rewrite ?elem_of_singleton; split; try done; by intros []%elem_of_empty.
Qed.

Lemma db_policies_reach :
  reachable no_filters no_checksums db_policies db_policies_2.
Proof.
  apply (reach_mutate _ _ _ db_policies_1 [] [] unassign_pA false 0%nat).
  - apply (reach_mutate _ _ _ db_policies [] [0%nat] add_pB_to_pA false 1%nat).
    + apply reach_start.
    + vm_compute. reflexivity.
  - vm_compute. reflexivity.
Qed.

Lemma edge_symmetry_invariant_witness :
  well_formed db_policies
  ∧ edge_symmetry db_policies
  ∧ reachable no_filters no_checksums db_policies db_policies_2
  ∧ policy_at db_policies_2 "a1" = Some (set_invalidated true (wrap 0 0 1))
  ∧ policy_at db_policies_2 "pA" = Some (set_invalidated true (wrap 1 2 3))
  ∧ policy_at db_policies_2 "pB" = Some (wrap 2 4 5)
  ∧ set_at db_policies_2 3 = {["pB"]}
  ∧ set_at db_policies_2 1 = ∅
  ∧ ("pB" ∈ set_at db_policies_2 3 ↔ "pA" ∈ set_at db_policies_2 4)
  ∧ ("pA" ∈ set_at db_policies_2 1 ↔ "a1" ∈ set_at db_policies_2 2).
Proof.
  destruct db_policies_ok as [Hwf Hsym].
  split; [exact Hwf|]. split; [exact Hsym|]. split; [exact db_policies_reach|].
  assert (Ha : policy_at db_policies_2 "a1" = Some (set_invalidated true (wrap 0 0 1)))
    by (vm_compute; reflexivity).
  assert (HA : policy_at db_policies_2 "pA" = Some (set_invalidated true (wrap 1 2 3)))
    by (vm_compute; reflexivity).
  assert (HB : policy_at db_policies_2 "pB" = Some (wrap 2 4 5)) by (vm_compute; reflexivity).
  split; [exact Ha|]. split; [exact HA|]. split; [exact HB|].
  split; [vm_compute; reflexivity|]. split; [vm_compute; reflexivity|].
  pose proof (edge_symmetry_invariant no_filters no_checksums db_policies db_policies_2
                Hwf Hsym db_policies_reach) as H.
  split.
  - exact (H "pA" "pB" _ _ HA HB).
  - exact (H "a1" "pA" _ _ Ha HA).
Defined.

(** * What a mutation does to its target *)

(** ** Calls that leave the groups alone *)

Lemma same_groups_refl db : same_groups db db.
Proof. done. Qed.

Lemma same_groups_trans db1 db2 db3 :
  same_groups db1 db2 → same_groups db2 db3 → same_groups db1 db3.
Proof. intros H1 H2 l. by rewrite H2. Qed.

Lemma keeps_bind {A B} (m : M A) (k : A → M B) :
  keeps_groups m → (∀ a, keeps_groups (k a)) → keeps_groups (bind m k).
Proof.
  intros Hm Hk db. unfold bind. specialize (Hm db).
  destruct (m db) as [[a|e| |] db1]; simpl in *; try done.
  eapply same_groups_trans; [exact Hm|apply Hk].
Qed.

Lemma keeps_try {A} (m : M A) : keeps_groups m → keeps_groups (try m).
Proof. intros Hm db. unfold try. specialize (Hm db). by destruct (m db) as [[a|e| |] db1]. Qed.

(** A call that does not write to policy objects. *)
Lemma keeps_policies {A} (m : M A) :
  (∀ db, policies (m db).2 = policies db) → keeps_groups m.
Proof. intros H db l. by rewrite H. Qed.

Lemma keeps_ret {A} (a : A) : keeps_groups (ret a).
Proof. by apply keeps_policies. Qed.

Lemma keeps_throw {A} e : keeps_groups (@throw A e).
Proof. by apply keeps_policies. Qed.

Lemma keeps_panic {A} : keeps_groups (@panic A).
Proof. by apply keeps_policies. Qed.

Lemma keeps_diverge {A} : keeps_groups (@diverge A).
Proof. by apply keeps_policies. Qed.

Lemma keeps_get_db : keeps_groups get_db.
Proof. by apply keeps_policies. Qed.

Lemma keeps_cache_Get key : keeps_groups (cache_Get key).
Proof. by apply keeps_policies. Qed.

Lemma keeps_cache_Set key value cost : keeps_groups (cache_Set key value cost).
Proof.
  apply keeps_policies. intros db. unfold cache_Set.
  by destruct (admission db) as [|[] ?].
Qed.

Lemma keeps_load_policy l : keeps_groups (load_policy l).
Proof.
  apply keeps_policies. intros db. unfold load_policy. by destruct (policies db !! l).
Qed.

Lemma keeps_map_keys l : keeps_groups (map_keys l).
Proof. by apply keeps_policies. Qed.

Lemma keeps_update_policy l f :
  (∀ p, Groups (f p) = Groups p) → keeps_groups (update_policy l f).
Proof.
  intros Hf db l'. unfold update_policy.
  destruct (policies db !! l) as [p|] eqn:E; [|done]. simpl.
  destruct (decide (l = l')) as [<-|Hne].
  - rewrite lookup_insert_eq, E. simpl. by rewrite Hf.
  - by rewrite lookup_insert_ne.
Qed.

Lemma keeps_GetRawPolicy mrn : keeps_groups (GetRawPolicy mrn).
Proof.
  apply keeps_bind; [apply keeps_cache_Get|].
  intros [[?|?|?|?]|]; first [apply keeps_ret|apply keeps_panic|apply keeps_throw].
Qed.

Lemma keeps_checkAndInvalidatePolicyBundle wrap :
  keeps_groups (checkAndInvalidatePolicyBundle wrap).
Proof.
  apply keeps_bind; [apply keeps_load_policy|]. intros p.
  apply keeps_bind; [apply keeps_cache_Set|].
  intros []; [apply keeps_ret|apply keeps_throw].
Qed.

Lemma keeps_load_parents ks : ∀ needsUpdate, keeps_groups (load_parents ks needsUpdate).
Proof.
  induction ks as [|k rest IH]; intros needsUpdate; [apply keeps_ret|].
  simpl. apply keeps_bind; [apply keeps_cache_Get|].
  intros [[?|?|?|?]|]; first [apply IH|apply keeps_panic|apply keeps_throw].
Qed.

Section Keeps.

Variable ComputeAssetFilters : Db → Policy → list Mquery + error.
Variable UpdateChecksums : Db → nat → gmap nat Checksums + error.

Lemma keeps_UpdateChecksums_call l : keeps_groups (UpdateChecksums_call UpdateChecksums l).
Proof.
  intros db l'. unfold UpdateChecksums_call.
  destruct (UpdateChecksums db l) as [sums|err]; [|done]. simpl.
  rewrite map_lookup_imap. destruct (policies db !! l') as [p|]; [|done]. simpl.
  by destruct (sums !! l').
Qed.

Lemma keeps_refreshAssetFilters_deps l depMrns : keeps_groups (refreshAssetFilters_deps l depMrns).
Proof.
  induction depMrns as [|mrn rest IH]; [apply keeps_ret|].
  simpl. apply keeps_bind; [apply keeps_try, keeps_GetRawPolicy|].
  intros [depl|err]; [|apply keeps_throw].
  apply keeps_bind; [apply keeps_load_policy|]. intros dep.
  destruct (Filters dep); [|apply IH].
  apply keeps_bind; [by apply keeps_update_policy|]. intros _. apply IH.
Qed.

Lemma keeps_refreshAssetFilters policyw :
  keeps_groups (refreshAssetFilters ComputeAssetFilters policyw).
Proof.
  unfold refreshAssetFilters.
  apply keeps_bind; [apply keeps_load_policy|]. intros p.
  apply keeps_bind; [apply keeps_get_db|]. intros db.
  destruct (ComputeAssetFilters db p); [|apply keeps_throw].
  apply keeps_bind; [by apply keeps_update_policy|]. intros _.
  apply keeps_bind; [apply keeps_refreshAssetFilters_deps|]. intros _.
  apply keeps_bind; [apply keeps_cache_Set|].
  intros []; [apply keeps_ret|apply keeps_throw].
Qed.

Lemma keeps_refreshDependent_loop sched :
  ∀ needsUpdate,
    keeps_groups (refreshDependent_loop ComputeAssetFilters UpdateChecksums sched needsUpdate).
Proof.
  induction sched as [|n sched IH]; intros needsUpdate.
  - simpl. destruct (map_to_list needsUpdate); [apply keeps_ret|apply keeps_diverge].
  - cbn [refreshDependent_loop].
    destruct (map_to_list needsUpdate) as [|first others]; [apply keeps_ret|].
    cbv zeta. destruct (nth _ _ _) as [k policyw].
    apply keeps_bind; [apply keeps_refreshAssetFilters|]. intros _.
    apply keeps_bind; [by apply keeps_update_policy|]. intros _.
    apply keeps_bind; [apply keeps_UpdateChecksums_call|]. intros _.
    apply keeps_bind; [apply keeps_load_policy|]. intros p.
    apply keeps_bind; [apply keeps_cache_Set|]. intros _.
    apply keeps_bind; [apply keeps_checkAndInvalidatePolicyBundle|]. intros policyw'.
    apply keeps_bind; [apply keeps_map_keys|]. intros ks.
    apply keeps_bind; [apply keeps_load_parents|]. intros needsUpdate'.
    apply IH.
Qed.

Lemma keeps_refreshDependentAssetFilters sched startPolicy :
  keeps_groups (refreshDependentAssetFilters ComputeAssetFilters UpdateChecksums
                  sched startPolicy).
Proof.
  unfold refreshDependentAssetFilters.
  apply keeps_bind; [apply keeps_map_keys|]. intros ks.
  apply keeps_bind; [apply keeps_load_parents|]. intros needsUpdate.
  apply keeps_refreshDependent_loop.
Qed.

(** What follows the rewrite of the group in [MutatePolicy]. *)
Lemma keeps_MutatePolicy_rest sched T policyw :
  keeps_groups
    (do _ <- refreshAssetFilters ComputeAssetFilters policyw;
     do _ <- update_policy (wp_Policy policyw) InvalidateExecutionChecksums;
     do _ <- UpdateChecksums_call UpdateChecksums (wp_Policy policyw);
     do ok <- cache_Set (dbIDPolicy +:+ T) (IPolicy policyw) 2;
     if negb ok then throw (errors_New "")
     else
       do policyw' <- checkAndInvalidatePolicyBundle policyw;
       do _ <- refreshDependentAssetFilters ComputeAssetFilters UpdateChecksums sched policyw';
       ret (wp_Policy policyw)).
Proof.
  apply keeps_bind; [apply keeps_refreshAssetFilters|]. intros _.
  apply keeps_bind; [by apply keeps_update_policy|]. intros _.
  apply keeps_bind; [apply keeps_UpdateChecksums_call|]. intros _.
  apply keeps_bind; [apply keeps_cache_Set|].
  intros []; simpl; [|apply keeps_throw].
  apply keeps_bind; [apply keeps_checkAndInvalidatePolicyBundle|]. intros policyw'.
  apply keeps_bind; [apply keeps_refreshDependentAssetFilters|]. intros _.
  apply keeps_ret.
Qed.

End Keeps.

(** ** Mutations that cannot succeed *)

Lemma map_edit_cache add l k db : cache (map_edit add l k db).2 = cache db.
Proof.
  unfold map_edit, map_add, map_delete. destruct add; by destruct (maps db !! l).
Qed.

(** One ADD or DELETE of the loop, for a child that is stored: the state in
    which the loop goes on holds the cache keys it held. *)
Lemma delta_step_cache add T X policyw childw (k : M (gmap string PolicyRef * bool)) db r db' :
  cache db !! pkey X = Some (IPolicy childw) →
  (do _ <- map_edit add (children policyw) X;
   do _ <- map_edit add (parents childw) T;
   do ok <- cache_Set (dbIDPolicy +:+ X) (IPolicy childw) 2;
   if negb ok then throw (child_not_saved X) else k) db = (Ok r, db') →
  ∃ db3, k db3 = (Ok r, db') ∧ ∀ key, cache db3 !! key = None ↔ cache db !! key = None.
Proof.
  intros HX Hrun. unfold bind in Hrun.
  pose proof (map_edit_cache add (children policyw) X db) as H1.
  destruct (map_edit add (children policyw) X db) as [[[]| | |] db1]; try done.
  pose proof (map_edit_cache add (parents childw) T db1) as H2.
  destruct (map_edit add (parents childw) T db1) as [[[]| | |] db2]; try done.
  simpl in H1, H2. fold (pkey X) in Hrun.
  destruct (cache_Set_cases (pkey X) (IPolicy childw) 2 db2) as [(db3 & E & Hc)|E];
    rewrite E in Hrun; simpl in Hrun; [done|].
  eexists. split; [exact Hrun|]. intros key. unfold stored; simpl. rewrite H2, H1.
  destruct (decide (key = pkey X)) as [->|Hne].
  - rewrite lookup_insert_eq, HX. done.
  - by rewrite lookup_insert_ne.
Qed.

Lemma MutatePolicy_range_unsupported T policyw deltas X d :
  (X, d) ∈ deltas → is_unsupported d = true →
  ∀ idx changed db r db',
    MutatePolicy_range T policyw deltas idx changed db ≠ (Ok r, db').
Proof.
  intros Hin Hd.
  induction deltas as [|[Y dY] rest IH]; intros idx changed db r db' Hrun;
    [by apply elem_of_nil in Hin|].
  apply elem_of_cons in Hin as [Heq|Hin].
  { simplify_eq. cbn [MutatePolicy_range] in Hrun. unfold is_unsupported in Hd.
    by destruct (Action dY). }
  specialize (IH Hin).
  assert (Hstep : ∀ add idx' db0 r0 db0',
    (do x <- cache_Get (dbIDPolicy +:+ Y);
     match x with
     | None => throw (child_not_found Y)
     | Some (IPolicy childw) =>
         do _ <- map_edit add (children policyw) Y;
         do _ <- map_edit add (parents childw) T;
         do ok <- cache_Set (dbIDPolicy +:+ Y) (IPolicy childw) 2;
         if negb ok then throw (child_not_saved Y)
         else MutatePolicy_range T policyw rest idx' true
     | Some _ => panic
     end) db0 ≠ (Ok r0, db0')).
  { intros add idx' db0 r0 db0' H. unfold bind at 1 in H. unfold cache_Get in H.
    fold (pkey Y) in H.
    destruct (cache db0 !! pkey Y) as [[childw|?|?|?]|] eqn:E; try done.
    apply (delta_step_cache add T Y policyw childw _ _ _ _ E) in H as (db3 & H & _).
    by eapply IH. }
  cbn [MutatePolicy_range] in Hrun. destruct (Action dY).
  - destruct (idx !! Y); [by eapply IH|]. by eapply (Hstep true).
  - by eapply (Hstep false).
  - done.
Qed.

Lemma MutatePolicy_range_unknown_child T policyw deltas X d :
  (X, d) ∈ deltas → NoDup deltas.*1 →
  ∀ idx changed db r db',
    cache db !! pkey X = None →
    is_DELETE d = true ∨ (is_ADD d = true ∧ idx !! X = None) →
    MutatePolicy_range T policyw deltas idx changed db ≠ (Ok r, db').
Proof.
  intros Hin Hnd.
  induction deltas as [|[Y dY] rest IH]; intros idx changed db r db' HX Hd Hrun;
    [by apply elem_of_nil in Hin|].
  simpl in Hnd. apply NoDup_cons in Hnd as [HY Hnd].
  apply elem_of_cons in Hin as [Heq|Hin].
  { simplify_eq. cbn [MutatePolicy_range] in Hrun. unfold is_DELETE, is_ADD in Hd.
    destruct (Action dY).
    - destruct Hd as [?|[_ Hidx]]; [done|]. rewrite Hidx in Hrun.
      unfold bind, cache_Get in Hrun. fold (pkey Y) in Hrun. by rewrite HX in Hrun.
    - unfold bind, cache_Get in Hrun. fold (pkey Y) in Hrun. by rewrite HX in Hrun.
    - by destruct Hd as [?|[? _]]. }
  specialize (IH Hin Hnd).
  assert (Hne : X ≠ Y).
  { intros ->. apply HY. apply list_elem_of_fmap. by exists (Y, d). }
  assert (Hstep : ∀ add idx',
    is_DELETE d = true ∨ (is_ADD d = true ∧ idx' !! X = None) →
    (do x <- cache_Get (dbIDPolicy +:+ Y);
     match x with
     | None => throw (child_not_found Y)
     | Some (IPolicy childw) =>
         do _ <- map_edit add (children policyw) Y;
         do _ <- map_edit add (parents childw) T;
         do ok <- cache_Set (dbIDPolicy +:+ Y) (IPolicy childw) 2;
         if negb ok then throw (child_not_saved Y)
         else MutatePolicy_range T policyw rest idx' true
     | Some _ => panic
     end) db ≠ (Ok r, db')).
  { intros add idx' Hd' H. unfold bind at 1 in H. unfold cache_Get in H.
    fold (pkey Y) in H.
    destruct (cache db !! pkey Y) as [[childw|?|?|?]|] eqn:E; try done.
    apply (delta_step_cache add T Y policyw childw _ _ _ _ E) in H as (db3 & H & Hc).
    eapply IH; [|exact Hd'|exact H]. by apply Hc. }
  cbn [MutatePolicy_range] in Hrun. destruct (Action dY).
  - destruct (idx !! Y) eqn:EY; [by eapply IH|].
    eapply (Hstep true); [|exact Hrun].
    destruct Hd as [?|[? ?]]; [by left|right]. split; [done|].
    by rewrite lookup_insert_ne.
  - eapply (Hstep false); [|exact Hrun].
    destruct Hd as [?|[? ?]]; [by left|right]. split; [done|].
    by rewrite lookup_delete_ne.
  - done.
Qed.

(** ** The effect of the deltas *)

Lemma fold_edits_sets deltas :
  NoDup deltas.*1 →
  ∀ s, fold_edits deltas s = (s ∪ added deltas) ∖ deleted deltas.
Proof.
  unfold added, deleted.
  induction deltas as [|[X d] rest IH]; intros Hnd s.
  - simpl. set_solver.
  - simpl in Hnd. apply NoDup_cons in Hnd as [HX Hnd].
    assert (Hout : ∀ P `{!∀ kd, Decision (P kd)},
              X ∉ (list_to_set (filter P rest).*1 : gset string)).
    { intros P ?. rewrite elem_of_list_to_set. intros ([X' d'] & -> & Hin)%list_elem_of_fmap.
      apply list_elem_of_filter in Hin as [_ Hin]. apply HX.
      apply list_elem_of_fmap. by exists (X', d'). }
    pose proof (Hout (λ kd, is_ADD kd.2 = true) _) as Ha.
    pose proof (Hout (λ kd, is_DELETE kd.2 = true) _) as Hd.
    unfold fold_edits in *. cbn [foldl]. rewrite (IH Hnd). cbn [fst snd].
    destruct (Action d) eqn:E.
    + rewrite (filter_cons_True (λ kd, is_ADD kd.2 = true)) by (unfold is_ADD; simpl; by rewrite E).
      rewrite (filter_cons_False (λ kd, is_DELETE kd.2 = true))
        by (unfold is_DELETE; simpl; by rewrite E).
      simpl. set_solver.
    + rewrite (filter_cons_False (λ kd, is_ADD kd.2 = true))
        by (unfold is_ADD; simpl; by rewrite E).
      rewrite (filter_cons_True (λ kd, is_DELETE kd.2 = true))
        by (unfold is_DELETE; simpl; by rewrite E).
      simpl. set_solver.
    + rewrite (filter_cons_False (λ kd, is_ADD kd.2 = true))
        by (unfold is_ADD; simpl; by rewrite E).
      rewrite (filter_cons_False (λ kd, is_DELETE kd.2 = true))
        by (unfold is_DELETE; simpl; by rewrite E).
      done.
Qed.

Lemma map_edit_effect add l k db db1 :
  map_edit add l k db = (Ok tt, db1) →
  policies db1 = policies db
  ∧ set_at db1 l = edit add k (set_at db l)
  ∧ ∀ l', l' ≠ l → set_at db1 l' = set_at db l'.
Proof.
  unfold map_edit, map_add, map_delete, set_at, edit.
  destruct add; destruct (maps db !! l) as [s|] eqn:E; intros H; simplify_eq; simpl.
  - split; [done|]. rewrite lookup_insert_eq. split; [done|].
    intros l' Hl. by rewrite lookup_insert_ne.
  - split; [done|]. rewrite lookup_insert_eq. split; [done|].
    intros l' Hl. by rewrite lookup_insert_ne.
  - rewrite E. simpl. split; [done|]. split; [set_solver|done].
Qed.

(** One ADD or DELETE of the loop on a sound graph, for a child that is
    stored: the graph in which the loop goes on. *)
Lemma delta_step_effect add T X policyw childw
    (k : M (gmap string PolicyRef * bool)) db r db' :
  graph_ok db → refs_at db T = Some (refs policyw) →
  cache db !! pkey X = Some (IPolicy childw) →
  (do _ <- map_edit add (children policyw) X;
   do _ <- map_edit add (parents childw) T;
   do ok <- cache_Set (dbIDPolicy +:+ X) (IPolicy childw) 2;
   if negb ok then throw (child_not_saved X) else k) db = (Ok r, db') →
  ∃ db3,
    k db3 = (Ok r, db')
    ∧ graph_ok db3 ∧ refs_at db3 T = Some (refs policyw)
    ∧ policies db3 = policies db
    ∧ set_at db3 (children policyw) = edit add X (set_at db (children policyw)).
Proof.
  intros Hok HT HcX Hrun.
  assert (HX : policy_at db X = Some childw) by (unfold policy_at; by rewrite HcX).
  destruct (edge_step add T X policyw childw db Hok HT HX)
    as (db1 & db2 & E1 & E2 & Hok2 & HT2 & HX2).
  pose proof HT as (wT & HwT & (_ & _ & Hc)%refs_eq)%refs_at_Some.
  destruct (wf_apart _ (proj1 Hok) X T childw wT HX HwT) as [Hne _].
  rewrite Hc in Hne.
  destruct (map_edit_effect _ _ _ _ _ E1) as (Hp1 & Hs1 & _).
  destruct (map_edit_effect _ _ _ _ _ E2) as (Hp2 & _ & Hs2).
  unfold bind at 1 in Hrun. rewrite E1 in Hrun.
  unfold bind at 1 in Hrun. rewrite E2 in Hrun.
  unfold bind at 1 in Hrun. fold (pkey X) in Hrun.
  assert (HrX : refs_at db2 X = Some (refs childw)) by (apply refs_at_Some; eauto).
  pose proof (cache_Set_held X childw 2 db2 (proj1 Hok2) HrX) as Hv.
  destruct (cache_Set_cases (pkey X) (IPolicy childw) 2 db2) as [(db3 & E & _)|E];
    rewrite E in Hrun, Hv; simpl in Hrun, Hv; [done|].
  eexists. split; [exact Hrun|]. split; [by eapply graph_ok_view|].
  split; [destruct Hv as (Hr & _ & _); by rewrite Hr|].
  split; [unfold stored; simpl; congruence|].
  rewrite (same_view_set_at _ _ _ Hv), (Hs2 _ (not_eq_sym Hne)). exact Hs1.
Qed.

(** The flag [changed], once set, stays set. *)
Lemma MutatePolicy_range_flag T policyw deltas :
  ∀ idx db idx' changed' db',
    MutatePolicy_range T policyw deltas idx true db = (Ok (idx', changed'), db') →
    changed' = true.
Proof.
  induction deltas as [|[Y dY] rest IH]; intros idx db idx' changed' db' H.
  { simpl in H. unfold ret in H. by simplify_eq. }
  assert (Hstep : ∀ add idx1,
    (do x <- cache_Get (dbIDPolicy +:+ Y);
     match x with
     | None => throw (child_not_found Y)
     | Some (IPolicy childw) =>
         do _ <- map_edit add (children policyw) Y;
         do _ <- map_edit add (parents childw) T;
         do ok <- cache_Set (dbIDPolicy +:+ Y) (IPolicy childw) 2;
         if negb ok then throw (child_not_saved Y)
         else MutatePolicy_range T policyw rest idx1 true
     | Some _ => panic
     end) db = (Ok (idx', changed'), db') → changed' = true).
  { intros add idx1 H0. unfold bind at 1 in H0. unfold cache_Get in H0.
    fold (pkey Y) in H0.
    destruct (cache db !! pkey Y) as [[childw|?|?|?]|] eqn:E; try done.
    apply (delta_step_cache add T Y policyw childw _ _ _ _ E) in H0 as (db3 & H0 & _).
    by eapply IH. }
  cbn [MutatePolicy_range] in H. destruct (Action dY).
  - destruct (idx !! Y); [by eapply IH|]. by eapply (Hstep true).
  - by eapply (Hstep false).
  - done.
Qed.

Lemma MutatePolicy_range_effect T policyw deltas :
  ∀ idx changed db idx' changed' db',
    graph_ok db → refs_at db T = Some (refs policyw) →
    (∀ m r, idx !! m = Some r → ref_Mrn r = m) →
    MutatePolicy_range T policyw deltas idx changed db = (Ok (idx', changed'), db') →
    graph_ok db' ∧ refs_at db' T = Some (refs policyw)
    ∧ policies db' = policies db
    ∧ (∀ m r, idx' !! m = Some r → ref_Mrn r = m)
    ∧ dom idx' = fold_edits deltas (dom idx)
    ∧ (set_at db (children policyw) = dom idx → set_at db' (children policyw) = dom idx')
    ∧ (changed' = false → idx' = idx).
Proof.
  induction deltas as [|[X d] rest IH]; intros idx changed db idx' changed' db' Hok HT Hkey Hrun.
  { simpl in Hrun. unfold ret in Hrun. simplify_eq. done. }
  assert (Hstep : ∀ add idx1,
    (∀ m r, idx1 !! m = Some r → ref_Mrn r = m) →
    dom idx1 = edit add X (dom idx) →
    (do x <- cache_Get (dbIDPolicy +:+ X);
     match x with
     | None => throw (child_not_found X)
     | Some (IPolicy childw) =>
         do _ <- map_edit add (children policyw) X;
         do _ <- map_edit add (parents childw) T;
         do ok <- cache_Set (dbIDPolicy +:+ X) (IPolicy childw) 2;
         if negb ok then throw (child_not_saved X)
         else MutatePolicy_range T policyw rest idx1 true
     | Some _ => panic
     end) db = (Ok (idx', changed'), db') →
    graph_ok db' ∧ refs_at db' T = Some (refs policyw)
    ∧ policies db' = policies db
    ∧ (∀ m r, idx' !! m = Some r → ref_Mrn r = m)
    ∧ dom idx' = fold_edits rest (edit add X (dom idx))
    ∧ (set_at db (children policyw) = dom idx → set_at db' (children policyw) = dom idx')
    ∧ changed' = true).
  { intros add idx1 Hkey1 Hdom H. unfold bind at 1 in H. unfold cache_Get in H.
    fold (pkey X) in H.
    destruct (cache db !! pkey X) as [[childw|?|?|?]|] eqn:E; try done.
    apply (delta_step_effect add T X policyw childw _ _ _ _ Hok HT E) in H
      as (db3 & H & Hok3 & HT3 & Hp3 & Hs3).
    destruct (IH _ _ _ _ _ _ Hok3 HT3 Hkey1 H) as (? & ? & Hp & ? & Hd & Hc & Hch).
    split; [done|]. split; [done|]. split; [congruence|]. split; [done|].
    split; [by rewrite Hd, Hdom|]. split.
    - intros Hs. apply Hc. by rewrite Hs3, Hs, Hdom.
    - by eapply MutatePolicy_range_flag. }
  cbn [MutatePolicy_range] in Hrun. unfold fold_edits. cbn [foldl fst snd].
  fold (fold_edits rest). destruct (Action d).
  - destruct (idx !! X) as [r0|] eqn:EX.
    + destruct (IH _ _ _ _ _ _ Hok HT Hkey Hrun) as (? & ? & ? & ? & Hd & ? & ?).
      repeat (split; [done|]). split; [|done].
      rewrite Hd. apply elem_of_dom_2 in EX. unfold fold_edits. f_equal. clear -EX. set_solver.
    + destruct (Hstep true (<[X := {| ref_Mrn := X |}]> idx)) as (?&?&?&?&?&?&?);
        [| |exact Hrun|].
      * intros m r [[<- <-]|[_ ?]]%lookup_insert_Some; [done|by eapply Hkey].
      * by rewrite dom_insert_L.
      * repeat (split; [done|]). by intros ->.
  - destruct (Hstep false (delete X idx)) as (?&?&?&?&?&?&?); [| |exact Hrun|].
    + intros m r [_ ?]%lookup_delete_Some. by eapply Hkey.
    + by rewrite dom_delete_L.
    + repeat (split; [done|]). by intros ->.
  - done.
Qed.

Lemma index_of_keyed group m r : index_of group !! m = Some r → ref_Mrn r = m.
Proof.
  unfold index_of.
  assert (H : ∀ (acc : gmap string PolicyRef) refs,
    (∀ m r, acc !! m = Some r → ref_Mrn r = m) →
    ∀ m r, foldl (λ idx cur, <[ref_Mrn cur := cur]> idx) acc refs !! m = Some r →
           ref_Mrn r = m).
  { intros acc refs. revert acc. induction refs as [|c refs IH]; intros acc Hacc; [done|].
    simpl. apply IH. intros m' r' [[<- <-]|[_ ?]]%lookup_insert_Some; [done|by eapply Hacc]. }
  apply H. intros m' r' H0. by rewrite lookup_empty in H0.
Qed.

Lemma index_of_dom group : dom (index_of group) = group_mrns group.
Proof.
  unfold index_of, group_mrns.
  assert (H : ∀ (acc : gmap string PolicyRef) refs,
    dom (foldl (λ idx cur, <[ref_Mrn cur := cur]> idx) acc refs)
    = dom acc ∪ list_to_set (ref_Mrn <$> refs)).
  { intros acc refs. revert acc. induction refs as [|c refs IH]; intros acc; simpl.
    - set_solver.
    - rewrite IH, dom_insert_L. set_solver. }
  rewrite H, dom_empty_L. set_solver.
Qed.

(** The MRNs of the list the index is translated back to. *)
Lemma index_back_mrns (idx : gmap string PolicyRef) :
  (∀ m r, idx !! m = Some r → ref_Mrn r = m) →
  group_mrns {| Policies := map snd (map_to_list idx) |} = dom idx.
Proof.
  intros Hkey. unfold group_mrns. simpl. apply set_eq. intros m.
  rewrite elem_of_list_to_set, elem_of_dom, list_elem_of_fmap. split.
  - intros (r & -> & ([m' r'] & -> & Hin%elem_of_map_to_list)%list_elem_of_fmap).
    simpl. rewrite (Hkey _ _ Hin). by eexists.
  - intros [r Hr]. exists r. split; [by rewrite (Hkey _ _ Hr)|].
    apply list_elem_of_fmap. exists (m, r). split; [done|]. by apply elem_of_map_to_list.
Qed.

Lemma ensurePolicy_missing mrn db :
  cache db !! pkey mrn = None →
  ensurePolicy mrn false db
  = (Err (errors_New ("failed to modify policy '" +:+ mrn +:+ "', could not find it")), db).
Proof.
  intros Hnone. unfold ensurePolicy. unfold bind at 1. unfold cache_Get.
  fold (pkey mrn). by rewrite Hnone.
Qed.

Section Mutate_more.

Variable ComputeAssetFilters : Db → Policy → list Mquery + error.
Variable UpdateChecksums : Db → nat → gmap nat Checksums + error.

(** [MutatePolicy] for a target that is stored, up to the loop. *)
Lemma MutatePolicy_stored sched mutation createIfMissing policyw p group groups db :
  cache db !! pkey (PolicyMrn mutation) = Some (IPolicy policyw) →
  policies db !! wp_Policy policyw = Some p →
  Groups p = group :: groups →
  MutatePolicy ComputeAssetFilters UpdateChecksums sched mutation createIfMissing db
  = (do '(policies, changed) <-
       MutatePolicy_range (PolicyMrn mutation) policyw (PolicyDeltas mutation)
         (index_of group) false;
     if negb changed then ret (wp_Policy policyw)
     else
       do _ <- update_policy (wp_Policy policyw)
                 (set_group_Policies (map snd (map_to_list policies)));
       do _ <- refreshAssetFilters ComputeAssetFilters policyw;
       do _ <- update_policy (wp_Policy policyw) InvalidateExecutionChecksums;
       do _ <- UpdateChecksums_call UpdateChecksums (wp_Policy policyw);
       do ok <- cache_Set (dbIDPolicy +:+ PolicyMrn mutation) (IPolicy policyw) 2;
       if negb ok then throw (errors_New "")
       else
         do policyw' <- checkAndInvalidatePolicyBundle policyw;
         do _ <- refreshDependentAssetFilters ComputeAssetFilters UpdateChecksums
                   sched policyw';
         ret (wp_Policy policyw)) db.
Proof.
  intros Hw Hp Hg. unfold MutatePolicy. unfold bind at 1.
  rewrite (ensurePolicy_stored _ _ _ _ Hw). unfold bind at 1.
  rewrite (load_policy_found _ _ _ Hp). by rewrite Hg.
Qed.

(** X14.  A target that cannot be mutated.  When the target policy is not
    stored and the caller does not ask to create it, or when it is stored
    with no group at all, [MutatePolicy] returns an error and leaves the
    datalake as it is, whatever the deltas are. *)
Theorem MutatePolicy_bad_target sched mutation db :
  (cache db !! pkey (PolicyMrn mutation) = None →
   MutatePolicy ComputeAssetFilters UpdateChecksums sched mutation false db
   = (Err (errors_New ("failed to modify policy '" +:+ PolicyMrn mutation
                       +:+ "', could not find it")), db))
  ∧ (∀ createIfMissing policyw p,
       cache db !! pkey (PolicyMrn mutation) = Some (IPolicy policyw) →
       policies db !! wp_Policy policyw = Some p →
       Groups p = [] →
       MutatePolicy ComputeAssetFilters UpdateChecksums sched mutation createIfMissing db
       = (Err (errors_New "cannot modify policy, it has no specs (invalid state)"), db)).
Proof.
  split.
  - intros Hnone. unfold MutatePolicy. unfold bind at 1.
    by rewrite (ensurePolicy_missing _ _ Hnone).
  - intros createIfMissing policyw p Hw Hp Hg. unfold MutatePolicy. unfold bind at 1.
    rewrite (ensurePolicy_stored _ _ _ _ Hw). unfold bind at 1.
    rewrite (load_policy_found _ _ _ Hp). by rewrite Hg.
Qed.

(** X15.  An unsupported action fails the whole mutation.  When one of the
    deltas carries an action that is neither ADD nor DELETE,
    [MutatePolicy] never returns a policy, in whatever order the deltas are
    visited and whatever the other deltas are; for a stored target with
    that delta alone the error is [InvalidArgument] and nothing has
    changed. *)
Theorem MutatePolicy_unsupported_action
    sched mutation createIfMissing policyw p group groups X d db :
  cache db !! pkey (PolicyMrn mutation) = Some (IPolicy policyw) →
  policies db !! wp_Policy policyw = Some p →
  Groups p = group :: groups →
  (X, d) ∈ PolicyDeltas mutation →
  is_unsupported d = true →
  (∀ l db',
     MutatePolicy ComputeAssetFilters UpdateChecksums sched mutation createIfMissing db
     ≠ (Ok l, db'))
  ∧ (PolicyDeltas mutation = [(X, d)] →
     MutatePolicy ComputeAssetFilters UpdateChecksums sched mutation createIfMissing db
     = (Err (status_Error InvalidArgument "unsupported change  is required"), db)).
Proof.
  intros Hw Hp Hg Hin Hd.
  rewrite (MutatePolicy_stored _ _ _ _ _ _ _ _ Hw Hp Hg). split.
  - intros l db' Hrun. unfold bind at 1 in Hrun.
    destruct (MutatePolicy_range _ _ _ _ _ _) as [[[idx' changed']| | |] db1] eqn:E;
      try done.
    by eapply MutatePolicy_range_unsupported in E.
  - intros ->. unfold bind. cbn [MutatePolicy_range]. unfold is_unsupported in Hd.
    by destruct (Action d).
Qed.

(** X16.  A child that is not stored fails the whole mutation.  For a stored
    target and a delta map (with distinct keys) in which some delta deletes
    a policy that is not stored, or adds one that is not stored and that the
    first group of the target does not list yet, [MutatePolicy] never
    returns a policy; with that delta alone the error names the child and
    nothing has changed. *)
Theorem MutatePolicy_unknown_child
    sched mutation createIfMissing policyw p group groups X d db :
  cache db !! pkey (PolicyMrn mutation) = Some (IPolicy policyw) →
  policies db !! wp_Policy policyw = Some p →
  Groups p = group :: groups →
  NoDup (PolicyDeltas mutation).*1 →
  (X, d) ∈ PolicyDeltas mutation →
  cache db !! pkey X = None →
  is_DELETE d = true ∨ (is_ADD d = true ∧ X ∉ group_mrns group) →
  (∀ l db',
     MutatePolicy ComputeAssetFilters UpdateChecksums sched mutation createIfMissing db
     ≠ (Ok l, db'))
  ∧ (PolicyDeltas mutation = [(X, d)] →
     MutatePolicy ComputeAssetFilters UpdateChecksums sched mutation createIfMissing db
     = (Err (child_not_found X), db)).
Proof.
  intros Hw Hp Hg Hnd Hin HX Hd.
  assert (Hd' : is_DELETE d = true ∨ (is_ADD d = true ∧ index_of group !! X = None)).
  { destruct Hd as [?|[? Hn]]; [by left|right]. split; [done|].
    destruct (index_of group !! X) eqn:E; [|done]. exfalso. apply Hn.
    unfold group_mrns. apply elem_of_list_to_set.
    clear -E. unfold index_of in E.
    assert (H : ∀ (acc : gmap string PolicyRef) refs r,
      foldl (λ idx cur, <[ref_Mrn cur := cur]> idx) acc refs !! X = Some r →
      is_Some (acc !! X) ∨ X ∈ ref_Mrn <$> refs).
    { intros acc refs. revert acc. induction refs as [|c refs IH]; intros acc r H.
      - left. by eexists.
      - simpl in H. destruct (IH _ _ H) as [[r' Hr']|?]; [|right; by right].
        apply lookup_insert_Some in Hr' as [[<- _]|[_ ?]]; [right; left|left; by eexists]. }
    destruct (H _ _ _ E) as [[? H0]|?]; [by rewrite lookup_empty in H0|done]. }
  rewrite (MutatePolicy_stored _ _ _ _ _ _ _ _ Hw Hp Hg). split.
  - intros l db' Hrun. unfold bind at 1 in Hrun.
    destruct (MutatePolicy_range _ _ _ _ _ _) as [[[idx' changed']| | |] db1] eqn:E;
      try done.
    by eapply (MutatePolicy_range_unknown_child _ _ _ X d) in E.
  - intros ->. unfold bind at 1. cbn [MutatePolicy_range].
    unfold is_DELETE, is_ADD in Hd'. destruct (Action d).
    + destruct Hd' as [?|[_ ->]]; [done|].
      unfold bind, cache_Get. fold (pkey X). by rewrite HX.
    + unfold bind, cache_Get. fold (pkey X). by rewrite HX.
    + by destruct Hd' as [?|[? _]].
Qed.


(** X17.  What a successful mutation does to its target.  Take a sound
    policy graph, a stored target whose policy has a first group, and a
    delta map (with distinct keys).  When [MutatePolicy] returns, it returns
    the policy object of the target, still stored under the MRN of the
    target; its first group lists exactly the MRNs it listed before,
    together with those the deltas add and without those they delete, and
    its other groups are as before.  If the children of the target were the
    policies its first group listed, they still are, and a stored policy has
    the target among its parents exactly when the first group lists it. *)
Theorem MutatePolicy_applies_deltas
    sched mutation createIfMissing policyw p group groups db l db' :
  graph_ok db →
  cache db !! pkey (PolicyMrn mutation) = Some (IPolicy policyw) →
  policies db !! wp_Policy policyw = Some p →
  Groups p = group :: groups →
  NoDup (PolicyDeltas mutation).*1 →
  MutatePolicy ComputeAssetFilters UpdateChecksums sched mutation createIfMissing db
  = (Ok l, db') →
  l = wp_Policy policyw
  ∧ refs_at db' (PolicyMrn mutation) = Some (refs policyw)
  ∧ ∃ p' group',
      policies db' !! l = Some p'
      ∧ Mrn p' = PolicyMrn mutation
      ∧ Groups p' = group' :: groups
      ∧ group_mrns group'
        = (group_mrns group ∪ added (PolicyDeltas mutation))
            ∖ deleted (PolicyDeltas mutation)
      ∧ (set_at db (children policyw) = group_mrns group →
         set_at db' (children policyw) = group_mrns group'
         ∧ ∀ X wX, policy_at db' X = Some wX →
             (PolicyMrn mutation ∈ set_at db' (parents wX) ↔ X ∈ group_mrns group')).
Proof.
  intros Hok Hw Hp Hg Hnd Hrun.
  set (T := PolicyMrn mutation) in *.
  assert (HT : refs_at db T = Some (refs policyw)).
  { unfold refs_at, policy_at. by rewrite Hw. }
  (* the whole call keeps the graph sound *)
  assert (Hok' : graph_ok db').
  { pose proof (MutatePolicy_ok ComputeAssetFilters UpdateChecksums sched mutation
                  createIfMissing db Hok) as H. by rewrite Hrun in H. }
  rewrite (MutatePolicy_stored _ _ _ _ _ _ _ _ Hw Hp Hg) in Hrun.
  unfold bind at 1 in Hrun. fold T in Hrun.
  destruct (MutatePolicy_range T policyw (PolicyDeltas mutation) (index_of group) false db)
    as [[[idx' changed']| | |] db1] eqn:Erange; try done.
  destruct (MutatePolicy_range_effect _ _ _ _ _ _ _ _ _ Hok HT (index_of_keyed group) Erange)
    as (Hok1 & HT1 & Hp1 & Hkey' & Hdom & Hch & Hsame).
  rewrite (fold_edits_sets _ Hnd), index_of_dom in Hdom.
  rewrite index_of_dom in Hch.
  assert (Hfinish : ∀ group',
    refs_at db' T = Some (refs policyw) →
    maps db' = maps db1 →
    (∃ p', policies db' !! wp_Policy policyw = Some p' ∧ Groups p' = group' :: groups) →
    group_mrns group' = dom idx' →
    refs_at db' T = Some (refs policyw)
    ∧ ∃ p' group',
        policies db' !! wp_Policy policyw = Some p'
        ∧ Mrn p' = T
        ∧ Groups p' = group' :: groups
        ∧ group_mrns group'
          = (group_mrns group ∪ added (PolicyDeltas mutation))
              ∖ deleted (PolicyDeltas mutation)
        ∧ (set_at db (children policyw) = group_mrns group →
           set_at db' (children policyw) = group_mrns group'
           ∧ ∀ X wX, policy_at db' X = Some wX →
               (T ∈ set_at db' (parents wX) ↔ X ∈ group_mrns group'))).
  { intros group' HT' Hmaps (p' & Hp' & Hg') Hmrns. split; [done|].
    exists p', group'. split; [done|].
    pose proof HT' as (wT & HwT & (Hl & _ & Hc)%refs_eq)%refs_at_Some.
    split; [eapply (wf_named _ (proj1 Hok') T wT); [done|by rewrite Hl]|].
    split; [done|]. split; [by rewrite Hmrns|].
    intros Hcons.
    assert (Hkids : set_at db' (children policyw) = group_mrns group').
    { rewrite Hmrns, <- (Hch Hcons). unfold set_at. by rewrite Hmaps. }
    split; [done|]. intros X wX HX.
    rewrite <- Hkids, <- Hc. symmetry. by apply (proj2 Hok'). }
  destruct changed'; simpl in Hrun.
  - (* the group is rewritten and the target stored again *)
    pose proof (MutatePolicy_tail_view ComputeAssetFilters UpdateChecksums db1 sched T
                  policyw (map snd (map_to_list idx')) (proj1 Hok1) HT1 db1
                  (same_view_refl db1)) as Hview.
    rewrite Hrun in Hview. destruct Hview as (Hrefs & Hmaps & _).
    unfold bind at 1 in Hrun. unfold update_policy at 1 in Hrun.
    rewrite Hp1, Hp in Hrun.
    match type of Hrun with ?rest ?db2 = _ =>
      pose proof (keeps_MutatePolicy_rest ComputeAssetFilters UpdateChecksums sched T
                    policyw db2 (wp_Policy policyw)) as Hgroups end.
    rewrite Hrun in Hgroups. simpl in Hgroups. rewrite lookup_insert_eq in Hgroups.
    simpl in Hgroups. rewrite Hg in Hgroups.
    assert (Hex : ∃ p', policies db' !! wp_Policy policyw = Some p'
                        ∧ Groups p' = {| Policies := map snd (map_to_list idx') |} :: groups).
    { destruct (policies db' !! wp_Policy policyw) as [p'|]; [|done].
      simpl in Hgroups. injection Hgroups as Hgroups. by exists p'. }
    assert (l = wp_Policy policyw) as ->.
    { clear -Hrun. unfold bind in Hrun.
      repeat match type of Hrun with
             | match ?m with _ => _ end = _ =>
                 destruct m as [[?| | |] ?]; try done
             | (if negb ?b then _ else _) _ = _ => destruct b; simpl in Hrun; try done
             end.
      unfold ret in Hrun. by simplify_eq. }
    split; [done|].
    apply (Hfinish {| Policies := map snd (map_to_list idx') |});
      [by rewrite Hrefs|done|done|by apply index_back_mrns].
  - (* nothing changed *)
    unfold ret in Hrun. simplify_eq. split; [done|].
    specialize (Hsame eq_refl). subst idx'.
    apply (Hfinish group); [done|done| |by rewrite index_of_dom].
    exists p. split; [by rewrite Hp1|done].
Qed.

End Mutate_more.

Lemma MutatePolicy_bad_target_witness :
  MutatePolicy no_filters no_checksums [] assign_to_zz false db_policies
  = (Err (errors_New "failed to modify policy 'zz', could not find it"), db_policies)
  ∧ MutatePolicy no_filters no_checksums [] swap_pA_pB true db_no_groups
    = (Err (errors_New "cannot modify policy, it has no specs (invalid state)"),
       db_no_groups).
Proof.
  split.
  - destruct (MutatePolicy_bad_target no_filters no_checksums [] assign_to_zz db_policies)
      as [H _].
    apply H. reflexivity.
  - destruct (MutatePolicy_bad_target no_filters no_checksums [] swap_pA_pB db_no_groups)
      as [_ H].
    apply (H true (wrap 0 0 1)
             {| Mrn := "a1"; Groups := []; Filters := None; Sums := Checksums_zero |});
      reflexivity.
Defined.

Lemma MutatePolicy_unsupported_action_witness :
  (∀ l db',
     MutatePolicy no_filters no_checksums [] assign_pB_and_more false db_policies
     ≠ (Ok l, db'))
  ∧ MutatePolicy no_filters no_checksums [] other_pA false db_policies
    = (Err (status_Error InvalidArgument "unsupported change  is required"), db_policies).
Proof.
  split.
  - destruct (MutatePolicy_unsupported_action no_filters no_checksums [] assign_pB_and_more
                false (wrap 0 0 1) (policy_obj "a1" ["pA"])
                {| Policies := [{| ref_Mrn := "pA" |}] |} []
                "pA" {| pd_PolicyMrn := "pA"; Action := PolicyDelta_other 7 |} db_policies)
      as [H _]; [reflexivity|reflexivity|reflexivity| |reflexivity|exact H].
    right. left.
  - destruct (MutatePolicy_unsupported_action no_filters no_checksums [] other_pA
                false (wrap 0 0 1) (policy_obj "a1" ["pA"])
                {| Policies := [{| ref_Mrn := "pA" |}] |} []
                "pA" {| pd_PolicyMrn := "pA"; Action := PolicyDelta_other 7 |} db_policies)
      as [_ H]; [reflexivity|reflexivity|reflexivity|left|reflexivity|].
    apply H. reflexivity.
Defined.

Lemma MutatePolicy_unknown_child_witness :
  (∀ l db',
     MutatePolicy no_filters no_checksums [] assign_pB_pZ false db_policies ≠ (Ok l, db'))
  ∧ MutatePolicy no_filters no_checksums [] assign_pZ false db_policies
    = (Err (child_not_found "pZ"), db_policies).
Proof.
  split.
  - destruct (MutatePolicy_unknown_child no_filters no_checksums [] assign_pB_pZ
                false (wrap 0 0 1) (policy_obj "a1" ["pA"])
                {| Policies := [{| ref_Mrn := "pA" |}] |} []
                "pZ" {| pd_PolicyMrn := "pZ"; Action := PolicyDelta_ADD |} db_policies)
      as [H _]; [reflexivity|reflexivity|reflexivity| | |reflexivity| |exact H].
    + repeat constructor; set_solver.
    + right. left.
    + right. split; [reflexivity|]. unfold group_mrns. simpl. set_solver.
  - destruct (MutatePolicy_unknown_child no_filters no_checksums [] assign_pZ
                false (wrap 0 0 1) (policy_obj "a1" ["pA"])
                {| Policies := [{| ref_Mrn := "pA" |}] |} []
                "pZ" {| pd_PolicyMrn := "pZ"; Action := PolicyDelta_ADD |} db_policies)
      as [_ H]; [reflexivity|reflexivity|reflexivity| | |reflexivity| |].
    + repeat constructor; set_solver.
    + left.
    + right. split; [reflexivity|]. unfold group_mrns. simpl. set_solver.
    + apply H. reflexivity.
Defined.

Lemma MutatePolicy_applies_deltas_witness :
  let db' := (MutatePolicy no_filters no_checksums [] swap_pA_pB false db_policies).2 in
  (0%nat = wp_Policy (wrap 0 0 1))
  ∧ refs_at db' "a1" = Some (refs (wrap 0 0 1))
  ∧ ∃ p' group',
      policies db' !! 0%nat = Some p'
      ∧ Mrn p' = "a1"
      ∧ Groups p' = group' :: []
      ∧ group_mrns group'
        = (group_mrns {| Policies := [{| ref_Mrn := "pA" |}] |} ∪ added (PolicyDeltas swap_pA_pB))
            ∖ deleted (PolicyDeltas swap_pA_pB)
      ∧ (set_at db_policies (children (wrap 0 0 1))
         = group_mrns {| Policies := [{| ref_Mrn := "pA" |}] |} →
         set_at db' (children (wrap 0 0 1)) = group_mrns group'
         ∧ ∀ X wX, policy_at db' X = Some wX →
             ("a1" ∈ set_at db' (parents wX) ↔ X ∈ group_mrns group')).
Proof.
  apply (MutatePolicy_applies_deltas no_filters no_checksums [] swap_pA_pB false
           (wrap 0 0 1) (policy_obj "a1" ["pA"])
           {| Policies := [{| ref_Mrn := "pA" |}] |} [] db_policies).
  - exact db_policies_ok.
  - reflexivity.
  - reflexivity.
  - reflexivity.
  - repeat constructor; set_solver.
  - vm_compute. reflexivity.
Defined.

(** * Properties of the dependency sort *)

Import BundleMap.

Lemma lookup_assoc_elem {V} (l : list (string * V)) k v :
  lookup_assoc l k = Some v → (k, v) ∈ l.
Proof.
  induction l as [|[k0 v0] l IH]; simpl; [done|].
  case_decide as Hk.
  - intros [= <-]. subst. by left.
  - intros H. right. by apply IH.
Qed.

Lemma lookup_assoc_NoDup {V} (l : list (string * V)) k v :
  NoDup l.*1 → (k, v) ∈ l → lookup_assoc l k = Some v.
Proof.
  intros Hnd Hin. destruct (lookup_assoc l k) as [v'|] eqn:E.
  - apply lookup_assoc_elem in E. by rewrite (NoDup_keys_functional l k v v' Hnd Hin E).
  - exfalso. clear Hnd. induction l as [|[k0 v0] l IH]; [by apply elem_of_nil in Hin|].
    simpl in E. case_decide; [done|].
    apply elem_of_cons in Hin as [Heq|Hin]; [congruence|by apply IH].
Qed.

Lemma lookup_assoc_None {V} (l : list (string * V)) k v :
  lookup_assoc l k = None → (k, v) ∉ l.
Proof.
  intros E Hin. induction l as [|[k0 v0] l IH]; [by apply elem_of_nil in Hin|].
  simpl in E. case_decide; [done|].
  apply elem_of_cons in Hin as [Heq|Hin]; [congruence|by apply IH].
Qed.

Lemma omap_snd_NoDup (l : list (string * option Policy)) :
  NoDup l.*1 →
  (∀ k v, (k, v) ∈ l → ∃ p, v = Some p ∧ Mrn p = k) →
  NoDup (omap snd l).
Proof.
  induction l as [|[k v] l IH]; intros Hnd Hk; [constructor|].
  simpl in Hnd. apply NoDup_cons in Hnd as [Hfresh Hnd].
  destruct (Hk k v) as (p & -> & Hp); [by left|].
  simpl. apply NoDup_cons. split.
  - rewrite list_elem_of_omap. intros ([k' v'] & Hin & Hv). simpl in Hv. subst v'.
    destruct (Hk k' (Some p)) as (p' & [= <-] & Hp'); [by right|].
    apply Hfresh. apply list_elem_of_fmap. exists (k', Some p). split; [|done].
    simpl. congruence.
  - apply IH; [done|]. intros k' v' Hin. apply Hk. by right.
Qed.

Section Sort.

Variable bundle : PolicyBundleMap.
Hypothesis keyed : keyed_by_mrn bundle.

Let B := bm_Policies bundle.

(** The set of keys of the map. *)
Let K : gset string := list_to_set B.*1.

Lemma same_mrn_same_policy x y :
  (Mrn x, Some x) ∈ B → (Mrn y, Some y) ∈ B → Mrn x = Mrn y → x = y.
Proof.
  intros Hx Hy E. rewrite E in Hx.
  pose proof (NoDup_keys_functional B _ _ _ (keys_nodup _ keyed) Hx Hy). congruence.
Qed.

Lemma key_in_K x : (Mrn x, Some x) ∈ B → Mrn x ∈ K.
Proof.
  intros H. apply elem_of_list_to_set, list_elem_of_fmap. by exists (Mrn x, Some x).
Qed.

Lemma segment_nil from V : segment bundle from V [] V.
Proof.
  split; [|split; [|split]].
  - simpl. set_solver.
  - constructor.
  - intros x Hx. by apply elem_of_nil in Hx.
  - intros l1 x l2 q E. by destruct l1.
Qed.

Lemma segment_sub from V new V' : segment bundle from V new V' → V ⊆ V'.
Proof. intros (-> & _). set_solver. Qed.

Lemma segment_from (from from' : Policy → Prop) V new V' :
  (∀ r, from r → from' r) →
  segment bundle from V new V' → segment bundle from' V new V'.
Proof.
  intros Hf (HV & Hnd & Hmem & Hord). split; [done|split; [done|split; [|done]]].
  intros x Hx. destruct (Hmem x Hx) as (? & ? & r & ? & ?). eauto 6.
Qed.

Lemma segment_elem from V new V' q :
  segment bundle from V new V' → (Mrn q, Some q) ∈ B →
  Mrn q ∈ (list_to_set (Mrn <$> new) : gset string) → q ∈ new.
Proof.
  intros (_ & _ & Hmem & _) Hq Hin.
  apply elem_of_list_to_set, list_elem_of_fmap in Hin as (y & E & Hy).
  destruct (Hmem y Hy) as (_ & HyB & _).
  by rewrite (same_mrn_same_policy q y Hq HyB E).
Qed.

Lemma segment_app from V new1 V1 new2 V2 :
  segment bundle from V new1 V1 → segment bundle from V1 new2 V2 →
  segment bundle from V (new1 ++ new2) V2.
Proof.
  intros H1 H2.
  pose proof H1 as (HV1 & Hnd1 & Hmem1 & Hord1).
  pose proof H2 as (HV2 & Hnd2 & Hmem2 & Hord2).
  split; [|split; [|split]].
  - rewrite HV2, HV1, fmap_app, list_to_set_app_L. set_solver.
  - rewrite fmap_app. apply NoDup_app. split; [done|split; [|done]].
    intros m Hm1 Hm2. apply list_elem_of_fmap in Hm2 as (y & -> & Hy).
    destruct (Hmem2 y Hy) as (Hfresh & _). apply Hfresh.
    rewrite HV1. apply elem_of_union. right. by apply elem_of_list_to_set.
  - intros x Hx. apply elem_of_app in Hx as [Hx|Hx].
    + by apply Hmem1.
    + destruct (Hmem2 x Hx) as (Hfresh & HB & Hr). split; [|done].
      intros Hin. apply Hfresh. by apply (segment_sub _ _ _ _ H1).
  - intros l1 x l2 q E Hdep.
    assert (Hcase : (∃ l2', new1 = l1 ++ x :: l2' ∧ l2 = l2' ++ new2)
                    ∨ (∃ l1', l1 = new1 ++ l1' ∧ new2 = l1' ++ x :: l2)).
    { apply app_eq_inv in E as [(k & E1 & E2)|(k & E1 & E2)].
      - destruct k as [|y k].
        + right. exists []. rewrite app_nil_r in E1. subst new1. simpl in E2. subst new2.
          by rewrite app_nil_r.
        + left. simpl in E2. injection E2 as <- ->. by exists k.
      - right. by exists k. }
    destruct Hcase as [(l2' & E1 & _)|(l1' & -> & E2)].
    + by apply (Hord1 l1 x l2').
    + destruct (Hord2 l1' x l2 q E2 Hdep) as [Hin|[Hin|Hin]].
      * rewrite HV1 in Hin. apply elem_of_union in Hin as [Hin|Hin]; [by left|].
        right; left. apply elem_of_app. left.
        eapply segment_elem; [exact H1| |exact Hin]. by destruct Hdep.
      * right; left. apply elem_of_app. by right.
      * by right; right.
Qed.

Section Loops.

(** The recursive call, which behaves well on every visited set above [V1]. *)
Variable rec : Policy → gset string → outcome (list Policy * gset string).
Variable V1 : gset string.
Hypothesis rec_spec : ∀ dep Vc,
  V1 ⊆ Vc → (Mrn dep, Some dep) ∈ B → Mrn dep ∉ Vc →
  ∃ res V', rec dep Vc = Ok (res, V') ∧ segment bundle (eq dep) Vc res V' ∧ Mrn dep ∈ V'.

Lemma sort_refs_spec refs :
  ∀ res V, V1 ⊆ V → "" ∉ map ref_Mrn refs →
  ∃ new V',
    sort_refs bundle rec refs res V = Ok (res ++ new, V')
    ∧ segment bundle (referred bundle (map ref_Mrn refs)) V new V'
    ∧ (∀ q, referred bundle (map ref_Mrn refs) q → Mrn q ∈ V').
Proof.
  induction refs as [|ref rest IH]; intros res V HV Hne.
  - exists [], V. simpl. rewrite app_nil_r. split; [done|]. split; [apply segment_nil|].
    intros q [Hq _]. by apply elem_of_nil in Hq.
  - simpl in Hne. apply not_elem_of_cons in Hne as [Hne Hne'].
    simpl. rewrite decide_False by done.
    assert (Hweak : ∀ r, referred bundle (map ref_Mrn rest) r
                         → referred bundle (ref_Mrn ref :: map ref_Mrn rest) r).
    { intros r [? ?]. split; [by right|done]. }
    destruct (decide (ref_Mrn ref ∈ V)) as [Hin|Hnin].
    { destruct (IH res V HV Hne') as (new & V' & Hrun & Hseg & Hall).
      exists new, V'. split; [done|]. split; [by eapply segment_from|].
      intros q [Hq HqB]. apply elem_of_cons in Hq as [Hq|Hq].
      - apply (segment_sub _ _ _ _ Hseg). by rewrite Hq.
      - by apply Hall. }
    destruct (lookup_assoc (bm_Policies bundle) (ref_Mrn ref)) as [v|] eqn:E.
    + apply lookup_assoc_elem in E.
      destruct (keys_mrn _ keyed _ _ E) as (dep & -> & Hdep).
      rewrite <- Hdep in E, Hnin.
      destruct (rec_spec dep V HV E Hnin) as (resd & Vd & -> & Hsegd & Hind).
      destruct (IH (res ++ resd) Vd) as (new & V' & Hrun & Hseg & Hall); [|done|].
      { etrans; [exact HV|]. by eapply segment_sub. }
      exists (resd ++ new), V'. split; [by rewrite app_assoc|]. split.
      * eapply segment_app.
        -- eapply segment_from; [|exact Hsegd]. intros r <-. split; [|done].
           rewrite Hdep. by left.
        -- by eapply segment_from.
      * intros q [Hq HqB]. apply elem_of_cons in Hq as [Hq|Hq]; [|by apply Hall].
        apply (segment_sub _ _ _ _ Hseg). by rewrite Hq, <- Hdep.
    + destruct (IH res V HV Hne') as (new & V' & Hrun & Hseg & Hall).
      exists new, V'. split; [done|]. split; [by eapply segment_from|].
      intros q [Hq HqB]. apply elem_of_cons in Hq as [Hq|Hq]; [|by apply Hall].
      exfalso. rewrite Hq in HqB. by eapply lookup_assoc_None.
Qed.

Lemma sort_groups_spec groups :
  ∀ res V, V1 ⊆ V →
  "" ∉ concat (map (λ g, map ref_Mrn (Policies g)) groups) →
  ∃ new V',
    sort_groups bundle rec groups res V = Ok (res ++ new, V')
    ∧ segment bundle
        (referred bundle (concat (map (λ g, map ref_Mrn (Policies g)) groups))) V new V'
    ∧ (∀ q, referred bundle (concat (map (λ g, map ref_Mrn (Policies g)) groups)) q
            → Mrn q ∈ V').
Proof.
  induction groups as [|g rest IH]; intros res V HV Hne.
  - exists [], V. simpl. rewrite app_nil_r. split; [done|]. split; [apply segment_nil|].
    intros q [Hq _]. by apply elem_of_nil in Hq.
  - simpl in Hne. apply not_elem_of_app in Hne as [Hne Hne'].
    destruct (sort_refs_spec (Policies g) res V HV Hne) as (new1 & Va & Hrun1 & Hseg1 & Hall1).
    destruct (IH (res ++ new1) Va) as (new2 & V' & Hrun2 & Hseg2 & Hall2); [|done|].
    { etrans; [exact HV|]. by eapply segment_sub. }
    exists (new1 ++ new2), V'. simpl. rewrite Hrun1, Hrun2.
    split; [by rewrite app_assoc|]. split.
    + eapply segment_app.
      * eapply segment_from; [|exact Hseg1]. intros r [? ?]. split; [|done].
        apply elem_of_app. by left.
      * eapply segment_from; [|exact Hseg2]. intros r [? ?]. split; [|done].
        apply elem_of_app. by right.
    + intros q [Hq HqB]. apply elem_of_app in Hq as [Hq|Hq].
      * apply (segment_sub _ _ _ _ Hseg2). by apply Hall1.
      * by apply Hall2.
Qed.

End Loops.

(** [sortPolicies] returns when it may nest as deep as there are policies
    left to visit, and what it returns is a stretch that ends with [p]. *)
Lemma sortPolicies_spec depth :
  ∀ p V, (size (K ∖ V) ≤ depth)%nat → (Mrn p, Some p) ∈ B → Mrn p ∉ V →
  ∃ res V',
    sortPolicies depth bundle p V = Ok (res, V')
    ∧ segment bundle (eq p) V res V' ∧ Mrn p ∈ V'.
Proof.
  induction depth as [|depth IH]; intros p V Hsize Hp Hfresh.
  { exfalso. assert (Hin : Mrn p ∈ K ∖ V) by (apply elem_of_difference; split;
      [by apply key_in_K|done]).
    assert (size (K ∖ V) = 0%nat) as Hz%size_empty_inv by lia.
    rewrite Hz in Hin. by apply elem_of_empty in Hin. }
  set (V1 := {[Mrn p]} ∪ V).
  assert (Hrec : ∀ dep Vc, V1 ⊆ Vc → (Mrn dep, Some dep) ∈ B → Mrn dep ∉ Vc →
            ∃ res V', sortPolicies depth bundle dep Vc = Ok (res, V')
                      ∧ segment bundle (eq dep) Vc res V' ∧ Mrn dep ∈ V').
  { intros dep Vc HVc Hdep Hdfresh. apply IH; [|done|done].
    assert (K ∖ Vc ⊂ K ∖ V) as Hlt%subset_size; [|lia].
    split; [set_solver|].
    intros Hsub. assert (Hin : Mrn p ∈ K ∖ V) by (apply elem_of_difference; split;
      [by apply key_in_K|done]).
    apply Hsub in Hin. set_solver. }
  destruct (sort_groups_spec (sortPolicies depth bundle) V1 Hrec (Groups p) [] V1)
    as (new & V' & Hrun & Hseg & Hall); [done|by eapply (refs_named _ keyed)|].
  exists (new ++ [p]), V'. simpl. fold V1. rewrite Hrun. simpl. split; [done|].
  pose proof Hseg as (HV' & Hnd & Hmem & Hord).
  assert (HpV' : Mrn p ∈ V') by (rewrite HV'; set_solver).
  split; [|done].
  assert (Hreach : ∀ x, x ∈ new → rtc (depends bundle) p x).
  { intros x Hx. destruct (Hmem x Hx) as (_ & _ & r & [Hr HrB] & Hrx).
    eapply rtc_l; [|exact Hrx]. split; done. }
  split; [|split; [|split]].
  - rewrite HV', fmap_app, list_to_set_app_L. simpl. set_solver.
  - rewrite fmap_app. apply NoDup_app. split; [done|]. split; [|apply NoDup_singleton].
    intros m Hm Hm'. apply list_elem_of_fmap in Hm as (y & -> & Hy).
    apply list_elem_of_singleton in Hm'. destruct (Hmem y Hy) as (Hny & _).
    apply Hny. rewrite Hm'. set_solver.
  - intros x Hx. apply elem_of_app in Hx as [Hx|Hx].
    + destruct (Hmem x Hx) as (Hnx & HxB & _). split; [set_solver|]. split; [done|].
      exists p. split; [done|]. by apply Hreach.
    + apply list_elem_of_singleton in Hx as ->. split; [done|]. split; [done|].
      by exists p.
  - intros l1 x l2 q E Hdep.
    assert (Hcase : (∃ l2', new = l1 ++ x :: l2') ∨ (l1 = new ∧ x = p)).
    { apply app_eq_inv in E as [(k & E1 & E2)|(k & E1 & E2)].
      - destruct k as [|y k].
        + right. rewrite app_nil_r in E1. simpl in E2. by simplify_eq.
        + left. simpl in E2. injection E2 as <- E2. by exists k.
      - destruct k as [|y k].
        + right. rewrite app_nil_r in E1. simpl in E2. by simplify_eq.
        + exfalso. simpl in E2. injection E2 as _ E2. by destruct k. }
    assert (HqV1 : Mrn q ∈ V1 → Mrn q ∈ V ∨ q = p).
    { intros [Hq|Hq]%elem_of_union; [|by left]. right.
      apply elem_of_singleton in Hq. destruct Hdep as [_ HqB].
      by apply same_mrn_same_policy. }
    destruct Hcase as [(l2' & E')|[-> ->]].
    + destruct (Hord l1 x l2' q E' Hdep) as [Hin|[Hin|Hin]].
      * destruct (HqV1 Hin) as [?| ->]; [by left|]. right; right.
        apply Hreach. rewrite E'. apply elem_of_app. right. by left.
      * by right; left.
      * by right; right.
    + assert (Hq : Mrn q ∈ V') by (apply Hall; destruct Hdep; by split).
      rewrite HV' in Hq. apply elem_of_union in Hq as [Hq|Hq].
      * destruct (HqV1 Hq) as [?| ->]; [by left|]. by right; right.
      * right; left. eapply segment_elem; [exact Hseg| |exact Hq]. by destruct Hdep.
Qed.

Lemma sort_all_spec depth entries :
  (size K ≤ depth)%nat → (∀ e, e ∈ entries → e ∈ B) →
  ∀ res V,
  ∃ new V',
    sort_all depth bundle entries res V = Ok (res ++ new)
    ∧ segment bundle (λ _, True) V new V'
    ∧ (∀ k v, (k, v) ∈ entries → k ∈ V').
Proof.
  intros Hdepth. induction entries as [|[k v] rest IH]; intros Hsub res V.
  - exists [], V. simpl. rewrite app_nil_r. split; [done|]. split; [apply segment_nil|].
    intros k v Hin. by apply elem_of_nil in Hin.
  - assert (HB : (k, v) ∈ B) by (apply Hsub; by left).
    destruct (keys_mrn _ keyed _ _ HB) as (p & -> & Hp).
    assert (Hsub' : ∀ e, e ∈ rest → e ∈ B) by (intros e He; apply Hsub; by right).
    simpl. destruct (decide (Mrn p ∈ V)) as [Hin|Hnin].
    + destruct (IH Hsub' res V) as (new & V' & Hrun & Hseg & Hall).
      exists new, V'. split; [done|]. split; [done|].
      intros k' v' Hin'. apply elem_of_cons in Hin' as [Heq|Hin']; [|by eapply Hall].
      injection Heq as -> ->. apply (segment_sub _ _ _ _ Hseg). by rewrite <- Hp.
    + rewrite <- Hp in HB.
      destruct (sortPolicies_spec depth p V) as (resd & Vd & -> & Hsegd & Hind);
        [|done|done|].
      { etrans; [|exact Hdepth]. apply subseteq_size. set_solver. }
      destruct (IH Hsub' (res ++ resd) Vd) as (new & V' & Hrun & Hseg & Hall).
      exists (resd ++ new), V'. split; [by rewrite app_assoc|]. split.
      * eapply segment_app; [|exact Hseg]. by eapply segment_from.
      * intros k' v' Hin'. apply elem_of_cons in Hin' as [Heq|Hin']; [|by eapply Hall].
        injection Heq as -> ->. apply (segment_sub _ _ _ _ Hseg). by rewrite <- Hp.
Qed.

Lemma policies_of_elem x : x ∈ policies_of bundle ↔ (Mrn x, Some x) ∈ B.
Proof.
  unfold policies_of. rewrite list_elem_of_omap. split.
  - intros ([k v] & Hin & Hv). simpl in Hv. subst v.
    destruct (keys_mrn _ keyed _ _ Hin) as (p & [= <-] & <-). done.
  - intros Hin. by exists (Mrn x, Some x).
Qed.

Lemma policies_of_NoDup : NoDup (policies_of bundle).
Proof. apply omap_snd_NoDup; [apply (keys_nodup _ keyed)|apply (keys_mrn _ keyed)]. Qed.

End Sort.

(** C6, as the code has it.  Take a bundle map that is keyed by MRN (no nil
    policy, every policy under its own MRN, no reference with an empty MRN)
    and let the calls nest as deep as the map has policies.
    [PoliciesSortedByDependency] returns, without error, every policy of the
    map exactly once.  When no policy of the map depends on itself through
    the map, every dependency that is present in the map comes before the
    policies that depend on it.  A dependency cycle is not detected: the
    call returns all the same. *)
Theorem sorted_by_dependency bundle depth :
  keyed_by_mrn bundle →
  (length (bm_Policies bundle) ≤ depth)%nat →
  ∃ res,
    PoliciesSortedByDependency depth bundle = Ok res
    ∧ NoDup res
    ∧ res ≡ₚ policies_of bundle
    ∧ (acyclic bundle → dependencies_first bundle res).
Proof.
  intros keyed Hdepth.
  destruct (sort_all_spec bundle keyed depth (bm_Policies bundle)) with (res := @nil Policy)
    (V := (∅ : gset string)) as (new & V' & Hrun & Hseg & Hall); [|done|].
  { rewrite size_list_to_set by apply (keys_nodup _ keyed). by rewrite length_fmap. }
  exists new. split; [done|].
  pose proof Hseg as (HV' & Hnd & Hmem & Hord).
  assert (Hnd' : NoDup new) by by eapply NoDup_fmap_1.
  split; [done|]. split.
  - apply NoDup_Permutation; [done|by apply policies_of_NoDup|].
    intros x. rewrite policies_of_elem by done. split.
    + intros Hx. by destruct (Hmem x Hx) as (_ & ? & _).
    + intros Hx. eapply segment_elem; [done|exact Hseg|done|].
      specialize (Hall _ _ Hx). rewrite HV' in Hall. set_solver.
  - intros Hacyc l1 p l2 q E Hdep.
    destruct (Hord l1 p l2 q E Hdep) as [Hin|[Hin|Hin]]; [set_solver|done|].
    by destruct (Hacyc p q Hdep).
Qed.

Lemma bundle_chain_keyed : keyed_by_mrn bundle_chain.
Proof.
  split.
  - simpl. repeat (apply NoDup_cons; split; [set_solver|]). constructor.
  - intros k v Hin. simpl in Hin.
    repeat (apply elem_of_cons in Hin as [[= -> ->]|Hin]; [by eexists|]).
    by apply elem_of_nil in Hin.
  - intros k p Hin. simpl in Hin.
    repeat (apply elem_of_cons in Hin as [[= -> ->]|Hin];
            [vm_compute; intros H; repeat (apply elem_of_cons in H as [H|H]; [discriminate H|]);
             by apply elem_of_nil in H|]).
    by apply elem_of_nil in Hin.
Qed.

Lemma sorted_by_dependency_witness :
  keyed_by_mrn bundle_chain
  ∧ (length (bm_Policies bundle_chain) ≤ 3)%nat
  ∧ PoliciesSortedByDependency 3 bundle_chain
    = Ok [policy_plain "w" []; policy_plain "y" ["w"]; policy_plain "z" ["y"; "missing"]]
  ∧ ∃ res,
      PoliciesSortedByDependency 3 bundle_chain = Ok res
      ∧ NoDup res
      ∧ res ≡ₚ policies_of bundle_chain
      ∧ (acyclic bundle_chain → dependencies_first bundle_chain res).
Proof.
  split; [exact bundle_chain_keyed|]. split; [simpl; lia|].
  split; [vm_compute; reflexivity|].
  apply (sorted_by_dependency bundle_chain 3 bundle_chain_keyed). simpl. lia.
Defined.

(** C6 as stated fails on a cycle: the map holds [x] and [y], which depend
    on each other; the call returns both, without an error, and [y] comes
    before [x], on which it depends. *)
Lemma sort_returns_on_cycle :
  depends bundle_cycle policy_x policy_y
  ∧ depends bundle_cycle policy_y policy_x
  ∧ PoliciesSortedByDependency 2 bundle_cycle = Ok [policy_y; policy_x].
Proof.
  split; [|split].
  - split; [by left|]. simpl. right. by left.
  - split; [by left|]. by left.
  - vm_compute. reflexivity.
Qed.

(** * Properties of the other operations on a bundle map *)

(** ** The order of [sort.Strings] *)

Lemma ascii_compare_refl a : Ascii.compare a a = Eq.
Proof. unfold Ascii.compare. apply N.compare_refl. Qed.

Lemma ascii_compare_lt_trans a b c :
  Ascii.compare a b = Lt → Ascii.compare b c = Lt → Ascii.compare a c = Lt.
Proof. unfold Ascii.compare. rewrite !N.compare_lt_iff. lia. Qed.

Lemma string_compare_refl s : String.compare s s = Eq.
Proof. induction s as [|a s IH]; [done|]. simpl. by rewrite ascii_compare_refl. Qed.

Lemma string_compare_lt_trans a :
  ∀ b c, String.compare a b = Lt → String.compare b c = Lt → String.compare a c = Lt.
Proof.
  induction a as [|x a IH]; intros [|y b] [|z c]; simpl; try done.
  destruct (Ascii.compare x y) eqn:E1; destruct (Ascii.compare y z) eqn:E2; try done.
  - apply Ascii.compare_eq_iff in E1, E2. subst. rewrite ascii_compare_refl. apply IH.
  - apply Ascii.compare_eq_iff in E1. subst. by rewrite E2.
  - apply Ascii.compare_eq_iff in E2. subst. by rewrite E1.
  - by rewrite (ascii_compare_lt_trans x y z).
Qed.

Lemma string_le_cases a b : string_le a b ↔ String.compare a b = Lt ∨ a = b.
Proof.
  unfold string_le, String.leb. split.
  - destruct (String.compare a b) eqn:E; [|by left|done].
    right. by apply String.compare_eq_iff.
  - intros [-> | ->]; [done|]. by rewrite string_compare_refl.
Qed.

#[global] Instance string_le_total : Total string_le.
Proof. intros a b. apply String.leb_total. Qed.

#[global] Instance string_le_antisymm : AntiSymm (=) string_le.
Proof. intros a b. apply String.leb_antisym. Qed.

#[global] Instance string_le_trans : Transitive string_le.
Proof.
  intros a b c. rewrite !string_le_cases.
  intros [H1| ->] [H2| ->]; eauto using string_compare_lt_trans.
Qed.

Lemma sort_Strings_perm ids ids' : ids' ≡ₚ ids → sort_Strings ids' = sort_Strings ids.
Proof.
  intros Hp. unfold sort_Strings.
  apply (StronglySorted_unique string_le);
    [apply StronglySorted_merge_sort; apply _..|].
  by rewrite !merge_sort_Permutation.
Qed.

(** ** Maps in range order *)

Lemma lookup_assoc_perm {V} (m m' : list (string * V)) k :
  NoDup m.*1 → m' ≡ₚ m → lookup_assoc m' k = lookup_assoc m k.
Proof.
  intros Hnd Hp.
  assert (Hnd' : NoDup m'.*1) by by rewrite Hp.
  destruct (lookup_assoc m k) as [v|] eqn:E.
  - apply lookup_assoc_NoDup; [done|]. rewrite Hp. by apply lookup_assoc_elem.
  - destruct (lookup_assoc m' k) as [v|] eqn:E'; [|done].
    apply lookup_assoc_elem in E'. rewrite Hp in E'.
    by apply (lookup_assoc_None _ _ v) in E.
Qed.

Lemma lookup_assoc_is_Some {V} (m : list (string * V)) k :
  is_Some (lookup_assoc m k) ↔ k ∈ m.*1.
Proof.
  induction m as [|[k0 v0] m IH]; simpl.
  - split; [by intros [? ?]|]. intros H. by apply elem_of_nil in H.
  - rewrite elem_of_cons. case_decide as Hk.
    + split; [intros _; by left|by eexists].
    + rewrite IH. split; [by right|]. intros [?|?]; [congruence|done].
Qed.

Lemma lookup_assoc_filter {V} (P : string * V → Prop) `{!∀ kv, Decision (P kv)}
    (m : list (string * V)) k :
  (∀ v, P (k, v)) → lookup_assoc (filter P m) k = lookup_assoc m k.
Proof.
  intros Hk. induction m as [|[k0 v0] m IH]; [done|].
  destruct (decide (P (k0, v0))) as [H0|H0].
  - rewrite filter_cons_True by done. simpl. by rewrite IH.
  - rewrite filter_cons_False by done. simpl. rewrite IH.
    case_decide; [|done]. subst k0. by destruct (H0 (Hk v0)).
Qed.

Lemma assoc_set_new {V} (m : list (string * V)) k v :
  lookup_assoc m k = None → assoc_set k v m = m ++ [(k, v)].
Proof.
  induction m as [|[k0 v0] m IH]; simpl; [done|].
  case_decide; [done|]. intros Hnone. by rewrite IH.
Qed.

Lemma lookup_assoc_app {V} (m1 m2 : list (string * V)) k :
  lookup_assoc (m1 ++ m2) k
  = match lookup_assoc m1 k with Some v => Some v | None => lookup_assoc m2 k end.
Proof.
  induction m1 as [|[k0 v0] m1 IH]; simpl; [done|]. by case_decide.
Qed.

(** ** [ToList] *)

Lemma values_by_key_spec {V} (m : list (string * option V)) :
  NoDup m.*1 →
  ∃ l, l ≡ₚ m ∧ StronglySorted string_le l.*1 ∧ values_by_key m = l.*2.
Proof.
  intros Hnd.
  set (f := λ id : string, (id, default None (lookup_assoc m id))).
  exists (f <$> sort_Strings m.*1). split; [|split].
  - unfold sort_Strings. rewrite merge_sort_Permutation.
    rewrite <- list_fmap_compose.
    rewrite (list_fmap_ext (f ∘ fst) id m); [by rewrite list_fmap_id|].
    intros i [k v] Hi. unfold f. simpl.
    rewrite (lookup_assoc_NoDup m k v Hnd); [done|]. by eapply list_elem_of_lookup_2.
  - rewrite <- list_fmap_compose.
    rewrite (list_fmap_ext (fst ∘ f) id (sort_Strings m.*1)); [|done].
    rewrite list_fmap_id. apply StronglySorted_merge_sort; apply _.
  - unfold values_by_key. by rewrite <- list_fmap_compose.
Qed.

Lemma values_by_key_perm {V} (m m' : list (string * option V)) :
  NoDup m.*1 → m' ≡ₚ m → values_by_key m' = values_by_key m.
Proof.
  intros Hnd Hp. unfold values_by_key.
  rewrite (sort_Strings_perm m.*1 m'.*1) by by rewrite Hp.
  apply list_fmap_ext. intros i k _. by rewrite (lookup_assoc_perm m m').
Qed.

(** X18.  [ToList] lists the values of each map in the increasing order of
    their keys.  For a bundle map whose three maps each have distinct keys
    (as Go maps have), the policies, queries and properties of the bundle
    are the values of the listing of the map that is sorted by key, each
    value once, whatever order a range would visit the map in. *)
Theorem ToList_sorted_by_key p :
  NoDup (bm_Policies (bm_map p)).*1 →
  NoDup (bm_Queries p).*1 →
  NoDup (bm_Props p).*1 →
  ∃ policies queries props,
    policies ≡ₚ bm_Policies (bm_map p) ∧ StronglySorted string_le policies.*1
    ∧ queries ≡ₚ bm_Queries p ∧ StronglySorted string_le queries.*1
    ∧ props ≡ₚ bm_Props p ∧ StronglySorted string_le props.*1
    ∧ ToList p = {| b_OwnerMrn := bm_OwnerMrn (bm_map p); b_Policies := policies.*2;
                    b_Queries := queries.*2; b_Props := props.*2 |}.
Proof.
  intros H1 H2 H3.
  destruct (values_by_key_spec _ H1) as (policies & ? & ? & E1).
  destruct (values_by_key_spec _ H2) as (queries & ? & ? & E2).
  destruct (values_by_key_spec _ H3) as (props & ? & ? & E3).
  exists policies, queries, props. unfold ToList. by rewrite E1, E2, E3.
Qed.

Lemma fields_chain_keys :
  NoDup (bm_Policies (bm_map fields_chain)).*1
  ∧ NoDup (bm_Queries fields_chain).*1
  ∧ NoDup (bm_Props fields_chain).*1.
Proof.
  split; [|split]; simpl; repeat (apply NoDup_cons_2; [set_solver|]); apply NoDup_nil_2.
Defined.

Lemma ToList_sorted_by_key_witness :
  ∃ policies queries props,
    policies ≡ₚ bm_Policies (bm_map fields_chain) ∧ StronglySorted string_le policies.*1
    ∧ queries ≡ₚ bm_Queries fields_chain ∧ StronglySorted string_le queries.*1
    ∧ props ≡ₚ bm_Props fields_chain ∧ StronglySorted string_le props.*1
    ∧ ToList fields_chain
      = {| b_OwnerMrn := "o"; b_Policies := policies.*2;
           b_Queries := queries.*2; b_Props := props.*2 |}.
Proof.
  apply (ToList_sorted_by_key fields_chain); apply fields_chain_keys.
Defined.

(** X19.  [ToList] does not depend on the order in which Go ranges over the
    maps: two bundle maps with the same owner that hold the same policies,
    queries and properties under the same (distinct) keys, listed in any
    two orders, give the same bundle. *)
Theorem ToList_order_independent p p' :
  NoDup (bm_Policies (bm_map p)).*1 →
  NoDup (bm_Queries p).*1 →
  NoDup (bm_Props p).*1 →
  bm_OwnerMrn (bm_map p') = bm_OwnerMrn (bm_map p) →
  bm_Policies (bm_map p') ≡ₚ bm_Policies (bm_map p) →
  bm_Queries p' ≡ₚ bm_Queries p →
  bm_Props p' ≡ₚ bm_Props p →
  ToList p' = ToList p.
Proof.
  intros H1 H2 H3 Ho P1 P2 P3. unfold ToList.
  by rewrite Ho, (values_by_key_perm _ _ H1 P1), (values_by_key_perm _ _ H2 P2),
    (values_by_key_perm _ _ H3 P3).
Qed.

Lemma ToList_order_independent_witness :
  ToList (with_Queries (reverse (bm_Queries fields_chain))
            (with_Policies (reverse (bm_Policies bundle_chain)) fields_chain))
  = ToList fields_chain.
Proof.
  apply (ToList_order_independent fields_chain); try apply fields_chain_keys;
    try reflexivity; simpl; apply reverse_Permutation.
Defined.

(** ** [SelectPolicies] *)

Lemma select_names_spec b names :
  ∀ filters missing,
    select_names b names filters missing
    = (list_to_set (filter (λ n, is_Some (lookup_assoc (bm_Policies b) n)) names) ∪ filters,
       missing ++ filter (λ n, lookup_assoc (bm_Policies b) n = None) names).
Proof.
  induction names as [|n rest IH]; intros filters missing; simpl.
  - f_equal; [set_solver|by rewrite app_nil_r].
  - destruct (lookup_assoc (bm_Policies b) n) as [v|] eqn:E.
    + rewrite IH. rewrite filter_cons_True by (by rewrite E).
      rewrite (filter_cons_False _ n) by (by rewrite E).
      f_equal. set_solver.
    + rewrite IH. rewrite filter_cons_False by (rewrite E; by intros [? ?]).
      rewrite (filter_cons_True _ n) by done.
      by rewrite <- app_assoc.
Qed.

Lemma filter_ext_in {A} (P Q : A → Prop) `{!∀ x, Decision (P x)} `{!∀ x, Decision (Q x)}
    (l : list A) :
  (∀ x, x ∈ l → (P x ↔ Q x)) → filter P l = filter Q l.
Proof.
  induction l as [|a l IH]; intros Hpq; [done|].
  assert (IH' : filter P l = filter Q l).
  { apply IH. intros x Hx. apply Hpq. by right. }
  destruct (decide (P a)) as [Ha|Ha].
  - rewrite !filter_cons_True; [by rewrite IH'|by apply Hpq; [left|]|done].
  - rewrite !filter_cons_False; [done| |done]. intros Hq. apply Ha, Hpq; [left|done].
Qed.

Lemma filter_all {A} (P : A → Prop) `{!∀ x, Decision (P x)} (l : list A) :
  (∀ x, x ∈ l → P x) → filter P l = l.
Proof.
  induction l as [|a l IH]; intros Hp; [done|].
  rewrite filter_cons_True by (apply Hp; left).
  rewrite IH; [done|]. intros x Hx. apply Hp. by right.
Qed.

Lemma filter_none {A} (P : A → Prop) `{!∀ x, Decision (P x)} (l : list A) :
  (∀ x, x ∈ l → ¬ P x) → filter P l = [].
Proof.
  induction l as [|a l IH]; intros Hp; [done|].
  rewrite filter_cons_False by (apply Hp; left).
  apply IH. intros x Hx. apply Hp. by right.
Qed.

Lemma filter_filter_and {A} (P Q : A → Prop) `{!∀ x, Decision (P x)} `{!∀ x, Decision (Q x)}
    (l : list A) :
  filter P (filter Q l) = filter (λ x, P x ∧ Q x) l.
Proof.
  induction l as [|a l IH]; [done|].
  destruct (decide (Q a)) as [Hq|Hq].
  - rewrite (filter_cons_True Q) by done.
    destruct (decide (P a)) as [Hp|Hp].
    + rewrite !filter_cons_True; [by rewrite IH|done|done].
    + rewrite !filter_cons_False; [done|tauto|done].
  - rewrite (filter_cons_False Q) by done. rewrite filter_cons_False by tauto. done.
Qed.

Lemma select_range_spec (filters : gset string) keys :
  ∀ policies : list (string * option Policy),
    select_range keys filters policies
    = filter (λ kv, kv.1 ∈ filters ∨ kv.1 ∉ keys) policies.
Proof.
  induction keys as [|name rest IH]; intros policies; simpl.
  - symmetry. apply filter_all. intros kv _. right. apply not_elem_of_nil.
  - rewrite IH. case_decide as Hn.
    + apply filter_ext_in. intros kv _. rewrite elem_of_cons.
      split; [|tauto]. intros [?|Hk]; [by left|].
      destruct (decide (kv.1 = name)) as [->|?]; [by left|right]. tauto.
    + unfold assoc_delete. rewrite filter_filter_and.
      apply filter_ext_in. intros kv _. rewrite elem_of_cons.
      split; [|intros [?|?]; [split; [by left|congruence]|tauto]].
      intros [[?|?] ?]; [by left|right]. tauto.
Qed.

Lemma select_range_all (filters : gset string) (policies : list (string * option Policy)) :
  select_range policies.*1 filters policies = filter (λ kv, kv.1 ∈ filters) policies.
Proof.
  rewrite select_range_spec. apply filter_ext_in. intros kv Hin.
  split; [|by left]. intros [?|Hk]; [done|].
  exfalso. apply Hk. apply list_elem_of_fmap. by exists kv.
Qed.

(** [SelectPolicies] when every name is a key of the map. *)
Lemma SelectPolicies_present names (b : PolicyBundleMap) :
  (∀ n, n ∈ names → is_Some (lookup_assoc (bm_Policies b) n)) →
  SelectPolicies names b
  = (Ok tt, set_Policies (filter (λ kv, names = [] ∨ kv.1 ∈ names) (bm_Policies b)) b).
Proof.
  intros Hall. unfold SelectPolicies. destruct names as [|n0 rest] eqn:En.
  - destruct b as [o ps]. unfold set_Policies. simpl. do 2 f_equal.
    symmetry. apply filter_all. intros kv _. by left.
  - rewrite <- En in *. rewrite select_names_spec.
    rewrite (filter_none (λ n, lookup_assoc (bm_Policies b) n = None)).
    2:{ intros n Hn Hnone. destruct (Hall n Hn) as [v Hv]. congruence. }
    simpl. rewrite select_range_all. do 2 f_equal.
    apply filter_ext_in. intros kv Hin. rewrite elem_of_union, elem_of_list_to_set.
    rewrite list_elem_of_filter. split.
    + intros [[_ ?]|H]; [by right|by apply not_elem_of_empty in H].
    + intros [H|H]; [by rewrite En in H|]. left. split; [by apply Hall|done].
Qed.

(** X20.  [SelectPolicies] keeps exactly the policies that are named.  When
    every given name is a key of the map, the call returns no error and
    leaves in the map the entries whose key is among the names, as they
    were and in the order they had; with no name given it leaves the map as
    it is.  Selecting the same names once more changes nothing. *)
Theorem SelectPolicies_selects names b :
  (∀ n, n ∈ names → is_Some (lookup_assoc (bm_Policies b) n)) →
  ∃ b',
    SelectPolicies names b = (Ok tt, b')
    ∧ bm_OwnerMrn b' = bm_OwnerMrn b
    ∧ bm_Policies b' = filter (λ kv, names = [] ∨ kv.1 ∈ names) (bm_Policies b)
    ∧ SelectPolicies names b' = (Ok tt, b').
Proof.
  intros Hall. eexists. split; [by apply SelectPolicies_present|].
  split; [done|]. split; [done|].
  rewrite SelectPolicies_present.
  - unfold set_Policies. simpl. do 2 f_equal.
    apply filter_all. by intros kv [? _]%list_elem_of_filter.
  - intros n Hn. destruct (Hall n Hn) as [v Hv]. exists v. rewrite <- Hv.
    unfold set_Policies. cbn [bm_Policies].
    apply (lookup_assoc_filter (λ kv, names = [] ∨ kv.1 ∈ names)). intros ?. by right.
Qed.

Lemma SelectPolicies_selects_witness :
  ∃ b',
    SelectPolicies ["y"; "w"] bundle_chain = (Ok tt, b')
    ∧ bm_OwnerMrn b' = bm_OwnerMrn bundle_chain
    ∧ bm_Policies b'
      = filter (λ kv, ["y"; "w"] = [] ∨ kv.1 ∈ ["y"; "w"]) (bm_Policies bundle_chain)
    ∧ SelectPolicies ["y"; "w"] b' = (Ok tt, b').
Proof.
  apply (SelectPolicies_selects ["y"; "w"] bundle_chain).
  intros n Hn. apply elem_of_cons in Hn as [-> | ->%list_elem_of_singleton]; by eexists.
Defined.

(** X21.  [SelectPolicies] with a name that is not in the map.  When one of
    the given names is not a key of the map, the call returns an error whose
    text lists the missing names, in the order given and separated by
    [", "], and the map is left as it was: nothing is removed. *)
Theorem SelectPolicies_missing names b n :
  n ∈ names →
  lookup_assoc (bm_Policies b) n = None →
  SelectPolicies names b
  = (Err (errors_New ("failed to find the following policies: "
                      +:+ String.concat ", "
                            (filter (λ n, lookup_assoc (bm_Policies b) n = None) names))),
     b).
Proof.
  intros Hn Hnone. unfold SelectPolicies.
  destruct names as [|n0 rest] eqn:En; [by apply elem_of_nil in Hn|].
  rewrite <- En in *. rewrite select_names_spec. simpl.
  destruct (filter (λ n, lookup_assoc (bm_Policies b) n = None) names) as [|m ms] eqn:E;
    [|done].
  exfalso. assert (Hin : n ∈ filter (λ n, lookup_assoc (bm_Policies b) n = None) names)
    by by apply list_elem_of_filter.
  rewrite E in Hin. by apply elem_of_nil in Hin.
Qed.

Lemma SelectPolicies_missing_witness :
  SelectPolicies ["y"; "a"; "w"; "b"] bundle_chain
  = (Err (errors_New "failed to find the following policies: a, b"), bundle_chain).
Proof.
  apply (SelectPolicies_missing ["y"; "a"; "w"; "b"] bundle_chain "a");
    [by right; left|reflexivity].
Defined.

(** ** Lookups through the library *)

(** A map that holds a nil policy cannot be sorted. *)
Lemma sort_all_nil depth bundle entries k :
  (k, None) ∈ entries →
  ∀ res indexer sorted, sort_all depth bundle entries res indexer ≠ Ok sorted.
Proof.
  induction entries as [|[k0 [policy|]] rest IH]; intros Hin res indexer sorted.
  - by apply elem_of_nil in Hin.
  - apply elem_of_cons in Hin as [?|Hin]; [done|]. simpl.
    case_decide; [by apply IH|].
    destruct (sortPolicies depth bundle policy indexer) as [[depRes indexer']| | |]; try done.
    by apply IH.
  - done.
Qed.

(** X22.  [policyExists] caches what the library knows, as a nil policy.
    When the MRN is not a key of [Policies] and the library answers that the
    policy exists, [policyExists] answers true (with the error of the
    library, if any) and adds the MRN to [Policies] with a nil policy,
    leaving every other key as it was.  From then on the library is not
    asked again: whatever the library of the map is afterwards,
    [policyExists] answers true without error and changes nothing. *)
Theorem policyExists_caches mrn p library err :
  lookup_assoc (bm_Policies (bm_map p)) mrn = None →
  bm_Library p = Some library →
  PolicyExists library mrn = (true, err) →
  ∃ p',
    policyExists mrn p = ((true, err), p')
    ∧ lookup_assoc (bm_Policies (bm_map p')) mrn = Some None
    ∧ (∀ k, k ≠ mrn →
         lookup_assoc (bm_Policies (bm_map p')) k = lookup_assoc (bm_Policies (bm_map p)) k)
    ∧ (∀ library',
         policyExists mrn (with_Library library' p')
         = ((true, None), with_Library library' p')).
Proof.
  intros Hnone Hlib Hex. unfold policyExists at 1. rewrite Hnone, Hlib, Hex.
  eexists. split; [done|]. simpl. rewrite (assoc_set_new _ _ _ Hnone).
  assert (Hl : lookup_assoc (bm_Policies (bm_map p) ++ [(mrn, None)]) mrn = Some None).
  { rewrite lookup_assoc_app, Hnone. simpl. by rewrite decide_True. }
  split; [done|]. split.
  - intros k Hk. rewrite lookup_assoc_app.
    destruct (lookup_assoc (bm_Policies (bm_map p)) k); [done|].
    simpl. by rewrite decide_False.
  - intros library'. unfold policyExists. simpl. by rewrite Hl.
Qed.

Lemma policyExists_caches_witness :
  ∃ p',
    policyExists "lib" fields_chain = ((true, None), p')
    ∧ lookup_assoc (bm_Policies (bm_map p')) "lib" = Some None
    ∧ (∀ k, k ≠ "lib" →
         lookup_assoc (bm_Policies (bm_map p')) k
         = lookup_assoc (bm_Policies (bm_map fields_chain)) k)
    ∧ (∀ library',
         policyExists "lib" (with_Library library' p')
         = ((true, None), with_Library library' p')).
Proof.
  apply (policyExists_caches "lib" fields_chain library_lib None); reflexivity.
Defined.

(** X23.  A bundle map that holds a nil policy cannot be sorted.  When some
    key of [Policies] holds a nil policy, as [policyExists] leaves it for a
    policy of the library, [PoliciesSortedByDependency] never returns a
    list: the range over the map, or the lookup of a dependency, reads the
    MRN of the nil policy. *)
Theorem sort_fails_on_nil_policy bundle k depth sorted :
  (k, None) ∈ bm_Policies bundle →
  PoliciesSortedByDependency depth bundle ≠ Ok sorted.
Proof. intros Hin. unfold PoliciesSortedByDependency. by eapply sort_all_nil. Qed.

Lemma sort_fails_on_nil_policy_witness :
  PoliciesSortedByDependency 4 (bm_map (policyExists "lib" fields_chain).2) = Panic
  ∧ ∀ sorted,
      PoliciesSortedByDependency 4 (bm_map (policyExists "lib" fields_chain).2) ≠ Ok sorted.
Proof.
  split; [reflexivity|]. intros sorted.
  apply (sort_fails_on_nil_policy _ "lib" 4 sorted). simpl. do 3 right. left.
Defined.

(** ** [QueryMap] *)

Lemma QueryMap_range_nil queries k :
  (k, None) ∈ queries → ∀ res, QueryMap_range queries res = Panic.
Proof.
  induction queries as [|[k0 [v|]] rest IH]; intros Hin res.
  - by apply elem_of_nil in Hin.
  - apply elem_of_cons in Hin as [?|Hin]; [done|]. simpl. by apply IH.
  - done.
Qed.

Lemma QueryMap_range_spec queries :
  ∀ res,
    (∀ k v, (k, v) ∈ queries → is_Some v) →
    ∃ res',
      QueryMap_range queries res = Ok res'
      ∧ (∀ c v, res' !! c = Some v →
           res !! c = Some v ∨ (CodeId v = c ∧ ∃ k, (k, Some v) ∈ queries))
      ∧ (NoDup (omap (λ kv, CodeId <$> kv.2) queries) →
         (∀ k v, (k, Some v) ∈ queries → res' !! CodeId v = Some v)
         ∧ (∀ c, c ∉ omap (λ kv, CodeId <$> kv.2) queries → res' !! c = res !! c)).
Proof.
  induction queries as [|[k0 v0] rest IH]; intros res Hall.
  - exists res. split; [done|]. split; [by left|]. intros _. split; [|done].
    intros k v Hin. by apply elem_of_nil in Hin.
  - destruct (Hall k0 v0) as [q ->]; [left|]. simpl.
    destruct (IH (<[CodeId q := q]> res)) as (res' & Hrun & Hsub & Hnd).
    { intros k v Hin. eapply Hall. by right. }
    exists res'. split; [done|]. split.
    + intros c v Hv. destruct (Hsub c v Hv) as [H|[Hc [k Hk]]].
      * apply lookup_insert_Some in H as [[<- <-]|[_ H]]; [|by left].
        right. split; [done|]. exists k0. left.
      * right. split; [done|]. exists k. by right.
    + intros [Hfresh Hnd']%NoDup_cons. destruct (Hnd Hnd') as [Hin Hout].
      split.
      * intros k v Hkv. apply elem_of_cons in Hkv as [[= <- <-]|Hkv]; [|by eapply Hin].
        rewrite Hout; [apply lookup_insert_eq|done].
      * intros c Hc. rewrite Hout.
        -- rewrite lookup_insert_ne; [done|]. intros <-. apply Hc. left.
        -- intros H. apply Hc. by right.
Qed.

(** X24.  [QueryMap] indexes the queries by [CodeId].  For a bundle map
    without nil query, every entry of the result is a query of the map
    under its own [CodeId]; and when the queries of the map have distinct
    [CodeId]s, every query of the map is found under its [CodeId].  When the
    map holds a nil query, as [queryExists] leaves it for a query of the
    library, [QueryMap] panics. *)
Theorem QueryMap_by_CodeId bundle :
  (∀ k, (k, None) ∉ bm_Queries bundle) →
  ∃ res,
    QueryMap bundle = Ok res
    ∧ (∀ c v, res !! c = Some v → CodeId v = c ∧ ∃ k, (k, Some v) ∈ bm_Queries bundle)
    ∧ (NoDup (omap (λ kv, CodeId <$> kv.2) (bm_Queries bundle)) →
       ∀ k v, (k, Some v) ∈ bm_Queries bundle → res !! CodeId v = Some v).
Proof.
  intros Hall. unfold QueryMap.
  destruct (QueryMap_range_spec (bm_Queries bundle) ∅) as (res & Hrun & Hsub & Hnd).
  { intros k [v|] Hin; [by eexists|]. by apply Hall in Hin. }
  exists res. split; [done|]. split.
  - intros c v Hv. destruct (Hsub c v Hv) as [H|?]; [by rewrite lookup_empty in H|done].
  - intros H. by apply Hnd.
Qed.

Lemma QueryMap_by_CodeId_witness :
  ∃ res,
    QueryMap fields_chain = Ok res
    ∧ (∀ c v, res !! c = Some v → CodeId v = c ∧ ∃ k, (k, Some v) ∈ bm_Queries fields_chain)
    ∧ (NoDup (omap (λ kv, CodeId <$> kv.2) (bm_Queries fields_chain)) →
       ∀ k v, (k, Some v) ∈ bm_Queries fields_chain → res !! CodeId v = Some v).
Proof.
  apply (QueryMap_by_CodeId fields_chain).
  intros k Hin. simpl in Hin.
  apply elem_of_cons in Hin as [?|Hin]; [done|].
  apply elem_of_cons in Hin as [?|Hin]; [done|]. by apply elem_of_nil in Hin.
Defined.

(** X25.  [queryExists] caches what the library knows, as a nil query, and
    [QueryMap] cannot read it.  When the MRN is not a key of [Queries] and
    the library answers that the query exists, [queryExists] answers true
    and adds the MRN to [Queries] with a nil query; from then on it answers
    true without asking the library, and [QueryMap] of that map panics. *)
Theorem queryExists_caches mrn p library err :
  lookup_assoc (bm_Queries p) mrn = None →
  bm_Library p = Some library →
  QueryExists library mrn = (true, err) →
  ∃ p',
    queryExists mrn p = ((true, err), p')
    ∧ lookup_assoc (bm_Queries p') mrn = Some None
    ∧ (∀ k, k ≠ mrn → lookup_assoc (bm_Queries p') k = lookup_assoc (bm_Queries p) k)
    ∧ (∀ library',
         queryExists mrn (with_Library library' p')
         = ((true, None), with_Library library' p'))
    ∧ QueryMap p' = Panic.
Proof.
  intros Hnone Hlib Hex. unfold queryExists at 1. rewrite Hnone, Hlib, Hex.
  eexists. split; [done|]. simpl. rewrite (assoc_set_new _ _ _ Hnone).
  assert (Hl : lookup_assoc (bm_Queries p ++ [(mrn, None)]) mrn = Some None).
  { rewrite lookup_assoc_app, Hnone. simpl. by rewrite decide_True. }
  split; [done|]. split; [|split].
  - intros k Hk. rewrite lookup_assoc_app.
    destruct (lookup_assoc (bm_Queries p) k); [done|].
    simpl. by rewrite decide_False.
  - intros library'. unfold queryExists. simpl. by rewrite Hl.
  - unfold QueryMap. simpl. apply (QueryMap_range_nil _ mrn).
    apply elem_of_app. right. left.
Qed.

Lemma queryExists_caches_witness :
  ∃ p',
    queryExists "q-lib" fields_chain = ((true, None), p')
    ∧ lookup_assoc (bm_Queries p') "q-lib" = Some None
    ∧ (∀ k, k ≠ "q-lib" →
         lookup_assoc (bm_Queries p') k = lookup_assoc (bm_Queries fields_chain) k)
    ∧ (∀ library',
         queryExists "q-lib" (with_Library library' p')
         = ((true, None), with_Library library' p'))
    ∧ QueryMap p' = Panic.
Proof.
  apply (queryExists_caches "q-lib" fields_chain library_lib None); reflexivity.
Defined.
